(** * Memory trainer: text normalisation, scoring, highlighting, session

    A shallow embedding of the logical core of [src/App.jsx]: the utility
    functions [sanitize], [stripPunctuation], [normalize], [splitWords],
    [calcStats], the [Highlighter] classification, the derived
    words-per-minute figure and the three session handlers.

    JavaScript strings are sequences of UTF-16 code units, JavaScript
    numbers are IEEE 754 binary64 values; both are modelled as such. *)

From Stdlib Require Import Ascii String.
From Stdlib Require Import ZArith List Bool Lia.
From Stdlib Require Import Floats.SpecFloat.
From Stdlib Require Import Reals Lra.
Import ListNotations.
Local Open Scope Z_scope.

(** ** Strings *)

(** A string is its list of UTF-16 code units (each in [0, 0xFFFF]). *)
Abbreviation jsstring := (list Z) (only parsing).

(** An ASCII literal as a JavaScript string. *)
Definition str (s : string) : jsstring :=
  map (fun a => Z.of_N (N_of_ascii a)) (list_ascii_of_string s).

(** [===] on strings. *)
Fixpoint str_eqb (a b : jsstring) : bool :=
  match a, b with
  | [], [] => true
  | x :: a', y :: b' => (x =? y) && str_eqb a' b'
  | _, _ => false
  end.

(** Truthiness of a string: the empty string is the only falsy one. *)
Definition truthy_str (s : jsstring) : bool :=
  match s with [] => false | _ :: _ => true end.

Module Unicode.

Definition isHighSurrogate (c : Z) : bool := (0xD800 <=? c) && (c <=? 0xDBFF).
Definition isLowSurrogate (c : Z) : bool := (0xDC00 <=? c) && (c <=? 0xDFFF).

(** The code point encoded by a surrogate pair. *)
Definition codePoint (hi lo : Z) : Z :=
  0x10000 + (hi - 0xD800) * 0x400 + (lo - 0xDC00).

(** No unpaired surrogate: [String.prototype.isWellFormed]. *)
Fixpoint isWellFormed (s : jsstring) : bool :=
  match s with
  | [] => true
  | c :: rest =>
      if isHighSurrogate c then
        match rest with
        | lo :: rest' => isLowSurrogate lo && isWellFormed rest'
        | [] => false
        end
      else negb (isLowSurrogate c) && isWellFormed rest
  end.

(** ECMAScript [WhiteSpace] and [LineTerminator] code points: what
    [String.prototype.trim] strips and what [\s] matches. *)
Definition isWhiteSpace (c : Z) : bool :=
  ((0x09 <=? c) && (c <=? 0x0D)) || (c =? 0x20) || (c =? 0xA0) ||
  (c =? 0x1680) || ((0x2000 <=? c) && (c <=? 0x200A)) ||
  (c =? 0x2028) || (c =? 0x2029) || (c =? 0x202F) || (c =? 0x205F) ||
  (c =? 0x3000) || (c =? 0xFEFF).

Definition isAscii (c : Z) : bool := (0 <=? c) && (c <=? 0x7F).

(** Lower-casing inside Basic Latin. *)
Definition asciiLower (c : Z) : Z :=
  if (0x41 <=? c) && (c <=? 0x5A) then c + 0x20 else c.

End Unicode.

(** The two pieces of the JavaScript engine that rest on the Unicode
    character database: the property escape [[\p{P}\p{S}]] on code points
    and [String.prototype.toLowerCase]. *)
Class Engine : Type := {
  isPunctOrSymbol : Z -> bool;
  toLowerCase : jsstring -> jsstring
}.

(** ** Utility functions *)

(** The character class of the code units U+200B to U+200D and U+FEFF. *)
Definition isZeroWidth (c : Z) : bool :=
  ((0x200B <=? c) && (c <=? 0x200D)) || (c =? 0xFEFF).

(** [text.replace(/[\u200B-\u200D\uFEFF]/g, ...)]: no [u] flag, so the
    match runs over code units. *)
Definition sanitize (text : jsstring) : jsstring :=
  filter (fun c => negb (isZeroWidth c)) text.

(** [s.replace(/[\p{P}\p{S}]/gu, "")]: with the [u] flag the scan advances
    by code point, a surrogate pair is one character and an unpaired
    surrogate is a character of its own. *)
Fixpoint stripPunctuation `{Engine} (s : jsstring) : jsstring :=
  match s with
  | [] => []
  | c :: rest =>
      match rest with
      | lo :: rest' =>
          if Unicode.isHighSurrogate c && Unicode.isLowSurrogate lo then
            if isPunctOrSymbol (Unicode.codePoint c lo)
            then stripPunctuation rest'
            else c :: lo :: stripPunctuation rest'
          else if isPunctOrSymbol c then stripPunctuation rest
          else c :: stripPunctuation rest
      | [] => if isPunctOrSymbol c then [] else [c]
      end
  end.

Record Options : Type := { ignoreCase : bool; ignorePunc : bool }.

Definition normalize `{Engine} (s : jsstring) (o : Options) : jsstring :=
  let out := sanitize s in
  let out := if ignorePunc o then stripPunctuation out else out in
  let out := if ignoreCase o then toLowerCase out else out in
  out.

(** [String.prototype.trim]. *)
Fixpoint trimStart (s : jsstring) : jsstring :=
  match s with
  | c :: rest => if Unicode.isWhiteSpace c then trimStart rest else s
  | [] => []
  end.

Definition trim (s : jsstring) : jsstring :=
  rev (trimStart (rev (trimStart s))).

(** [s.split(/\s+/)]: [cur] is the substring since the end of the last
    separator, [inSep] tells that the scan is inside a run of white space.
    The remainder after the last separator is always pushed, so the empty
    string splits into one empty piece. *)
Fixpoint splitFrom (inSep : bool) (cur : jsstring) (s : jsstring) : list jsstring :=
  match s with
  | [] => [cur]
  | c :: rest =>
      if Unicode.isWhiteSpace c then
        if inSep then splitFrom true [] rest
        else cur :: splitFrom true [] rest
      else splitFrom false (cur ++ [c]) rest
  end.

Definition split_ws (s : jsstring) : list jsstring := splitFrom false [] s.

(** [s.trim().split(/\s+/).filter(Boolean)]. *)
Definition splitWords (s : jsstring) : list jsstring :=
  filter truthy_str (split_ws (trim s)).

(** ** Numbers *)

(** JavaScript numbers: IEEE 754 binary64 with round-to-nearest-even,
    through the Standard Library's specification of the format. *)
Module Number.

Definition prec : Z := 53.
Definition emax : Z := 1024.

Definition t : Type := spec_float.

(** The number nearest to an integer (the integer itself below [2^53]). *)
Definition of_Z (z : Z) : t := binary_normalize prec emax z 0 false.
Definition of_nat (n : nat) : t := of_Z (Z.of_nat n).

Definition div : t -> t -> t := SFdiv prec emax.
Definition mul : t -> t -> t := SFmul prec emax.

(** [Math.round]: the nearest integral number, a tie going towards
    positive infinity; the sign of a zero result is the argument's. *)
Definition round (x : t) : t :=
  match x with
  | S754_finite s m e =>
      if 0 <=? e then x
      else
        let n := if s then Z.neg m else Z.pos m in
        let k := (2 * n + 2 ^ (- e)) / 2 ^ (- e + 1) in
        if k =? 0 then S754_zero s else of_Z k
  | _ => x
  end.

(** [Math.max] and [Math.min] of two numbers: [NaN] if either is, and
    [-0] below [+0]. *)
Definition max (x y : t) : t :=
  match SFcompare x y with
  | None => S754_nan
  | Some Lt => y
  | Some Gt => x
  | Some Eq => match x with S754_zero true => y | _ => x end
  end.

Definition min (x y : t) : t :=
  match SFcompare x y with
  | None => S754_nan
  | Some Lt => x
  | Some Gt => y
  | Some Eq => match x with S754_zero false => y | _ => x end
  end.

(** [x <= y]. *)
Definition leb : t -> t -> bool := SFleb.

(** [ToBoolean] of a number: the zeros and [NaN] are falsy. *)
Definition truthy (x : t) : bool :=
  match x with
  | S754_zero _ | S754_nan => false
  | _ => true
  end.

(** [x || y]. *)
Definition or_else (x y : t) : t := if truthy x then x else y.

End Number.

(** ** Scoring *)

Record Stats : Type := {
  accuracy : Number.t;
  wordsTyped : nat;
  totalWords : nat
}.

(** [a[i] === b[i]] for two arrays of strings; [undefined] equals only
    itself. *)
Definition word_eqb (a b : option jsstring) : bool :=
  match a, b with
  | Some x, Some y => str_eqb x y
  | None, None => true
  | _, _ => false
  end.

(** The [for] loop of [calcStats]: [todo] iterations remain, the index is
    [i], the counter is [correct]. *)
Fixpoint countLoop (refWords attWords : list jsstring)
    (todo i correct : nat) : nat :=
  match todo with
  | O => correct
  | S todo' =>
      countLoop refWords attWords todo' (S i)
        (if word_eqb (nth_error refWords i) (nth_error attWords i)
         then S correct else correct)
  end.

Definition calcStats `{Engine} (reference attempt : jsstring) (opts : Options) : Stats :=
  let refN := normalize reference opts in
  let attN := normalize attempt opts in
  let refWords := splitWords refN in
  let attWords := splitWords attN in
  let total := if Nat.eqb (length refWords) 0 then 1%nat else length refWords in
  let correct :=
    countLoop refWords attWords
      (Nat.min (length refWords) (length attWords)) 0 0 in
  let accuracy :=
    Number.max (Number.of_Z 0)
      (Number.min (Number.of_Z 100)
         (Number.round
            (Number.mul
               (Number.div (Number.of_nat correct) (Number.of_nat total))
               (Number.of_Z 100)))) in
  {| accuracy := accuracy;
     wordsTyped := length attWords;
     totalWords := length refWords |}.

(** The memoised [wpm] of the component, from the typed-word count and the
    timer's seconds. *)
Definition wpm (wordsTyped seconds : nat) : Number.t :=
  let minutes :=
    Number.max (Number.div (Number.of_Z 1) (Number.of_Z 60))
               (Number.div (Number.of_nat seconds) (Number.of_Z 60)) in
  Number.round
    (Number.or_else (Number.div (Number.of_nat wordsTyped) minutes)
                    (Number.of_Z 0)).

(** ** Highlighter *)

Inductive WordState : Type := missing | ok | no.

(** One rendered [span]: its key, the state that selects its colours and
    its text. *)
Record Node : Type := {
  key : nat;
  state : WordState;
  text : jsstring
}.

(** [a[i] ?? ""]. *)
Definition at_or_empty (a : list jsstring) (i : nat) : jsstring :=
  match nth_error a i with Some w => w | None => [] end.

(** [Array.prototype.map] with the index. *)
Fixpoint mapi_from {A B : Type} (f : A -> nat -> B) (i : nat) (l : list A) : list B :=
  match l with
  | [] => []
  | x :: l' => f x i :: mapi_from f (S i) l'
  end.

(** The list of nodes that [Highlighter] renders.  The class names of a
    node are a function of its state and are left out.  With [hideWords]
    the text is a run of no-break spaces as long as the raw word (a later
    revision of the file takes [Math.max(1, rawWord.length)], the same
    number since no word is empty). *)
Definition Highlighter `{Engine} (reference attempt : jsstring) (opts : Options)
    (hideWords : bool) : list Node :=
  let refRawWords := splitWords reference in
  let refNWords := splitWords (normalize reference opts) in
  let attNWords := splitWords (normalize attempt opts) in
  mapi_from
    (fun rawWord i =>
       let refN := at_or_empty refNWords i in
       let attN := at_or_empty attNWords i in
       let matched := truthy_str refN && str_eqb refN attN in
       let state :=
         if negb (truthy_str attN) then missing
         else if matched then ok else no in
       {| key := i;
          state := state;
          text := if hideWords then repeat 0xA0 (length rawWord) else rawWord |})
    0 refRawWords.

(** ** Session *)

(** The component state the handlers touch: the two texts, the two flags
    and the timer's counter. *)
Record Session : Type := {
  reference : jsstring;
  attempt : jsstring;
  hidden : bool;
  started : bool;
  seconds : nat
}.

Definition handleStart (s : Session) : Session :=
  {| reference := reference s;
     attempt := [];
     hidden := true;
     started := true;
     seconds := 0 |}.

Definition handleReveal (s : Session) : Session :=
  {| reference := reference s;
     attempt := attempt s;
     hidden := false;
     started := false;
     seconds := seconds s |}.

Definition handleResetAll (s : Session) : Session :=
  {| reference := [];
     attempt := [];
     hidden := false;
     started := false;
     seconds := 0 |}.

(** One firing of the interval of [useTimer]: the interval exists only
    while [active] (here [started]) holds. *)
Definition tick (s : Session) : Session :=
  if started s then
    {| reference := reference s;
       attempt := attempt s;
       hidden := hidden s;
       started := started s;
       seconds := S (seconds s) |}
  else s.

(** ** A concrete engine *)

(** An excerpt of the Unicode tables, enough to run the definitions on
    concrete inputs: general categories P and S in Basic Latin and in
    Miscellaneous Symbols and Pictographs (U+1F300 to U+1F5FF), and the
    case mapping of Basic Latin. *)
Definition excerpt_isPunctOrSymbol (cp : Z) : bool :=
  ((0x21 <=? cp) && (cp <=? 0x2F)) || ((0x3A <=? cp) && (cp <=? 0x40)) ||
  ((0x5B <=? cp) && (cp <=? 0x60)) || ((0x7B <=? cp) && (cp <=? 0x7E)) ||
  ((0x1F300 <=? cp) && (cp <=? 0x1F5FF)).

Definition excerpt_engine : Engine :=
  {| isPunctOrSymbol := excerpt_isPunctOrSymbol;
     toLowerCase := map Unicode.asciiLower |}.

(** ** The specification's wording, for comparison with the code *)

(** The number of indices below both lengths at which the two word lists
    agree. *)
Definition positional_matches (refWords attWords : list jsstring) : nat :=
  length
    (filter (fun i => word_eqb (nth_error refWords i) (nth_error attWords i))
       (seq 0 (Nat.min (length refWords) (length attWords)))).

(** [round(correct / max(1, total) * 100)], before the clamp. *)
Definition spec_percentage (correct total : nat) : Number.t :=
  Number.round
    (Number.mul
       (Number.div (Number.of_nat correct) (Number.of_nat (Nat.max 1 total)))
       (Number.of_Z 100)).

(** A number clamped to a closed range. *)
Definition clamp (lo hi x : Number.t) : Number.t :=
  Number.max lo (Number.min hi x).

Definition spec_accuracy (correct total : nat) : Number.t :=
  clamp (Number.of_Z 0) (Number.of_Z 100) (spec_percentage correct total).

(** The characters the specification lists for the first normalisation
    step: zero-width space, non-joiner and joiner, the left-to-right mark
    and the byte-order mark. *)
Definition spec_invisible (c : Z) : bool :=
  existsb (Z.eqb c) [0x200B; 0x200C; 0x200D; 0x200E; 0xFEFF].

(** The characters the code removes. *)
Definition code_invisible (c : Z) : bool :=
  existsb (Z.eqb c) [0x200B; 0x200C; 0x200D; 0xFEFF].

(** The classification rule of the specification at position [i]:
    pending ([missing]) when the attempt word is absent or empty, matched
    ([ok]) when the two normalised words are equal, mismatched ([no])
    otherwise. *)
Definition spec_state (refNWords attNWords : list jsstring) (i : nat) : WordState :=
  match nth_error attNWords i with
  | None | Some [] => missing
  | Some w => if word_eqb (nth_error refNWords i) (Some w) then ok else no
  end.

(** The two session states of the specification. *)
Definition editing (s : Session) : Prop := hidden s = false /\ started s = false.
Definition practicing (s : Session) : Prop := hidden s = true /\ started s = true.

(** ** Facts about the engine that individual theorems rest on *)

(** On a string of Basic Latin characters [toLowerCase] maps [A-Z] to
    [a-z] and nothing else. *)
Definition lowercase_ascii (E : Engine) : Prop :=
  forall s, forallb Unicode.isAscii s = true ->
            toLowerCase s = map Unicode.asciiLower s.

(** Lower-casing a lower-cased string changes nothing. *)
Definition lowercase_idempotent (E : Engine) : Prop :=
  forall s, toLowerCase (toLowerCase s) = toLowerCase s.

(** No case mapping produces a zero-width character or a byte-order
    mark. *)
Definition lowercase_keeps_sanitized (E : Engine) : Prop :=
  forall s, sanitize s = s -> sanitize (toLowerCase s) = toLowerCase s.

(** No case mapping turns a character outside P and S into one inside. *)
Definition lowercase_keeps_stripped (E : Engine) : Prop :=
  forall s, stripPunctuation s = s ->
            stripPunctuation (toLowerCase s) = toLowerCase s.

(** ** Words as maximal runs, for comparison with [splitWords] *)

(** A finished run is a word unless it is empty. *)
Definition push_word (cur : jsstring) (l : list jsstring) : list jsstring :=
  match cur with [] => l | _ :: _ => cur :: l end.

(** The maximal runs of code units that are not white space, [cur] being
    the run in progress. *)
Fixpoint words_from (cur : jsstring) (s : jsstring) : list jsstring :=
  match s with
  | [] => push_word cur []
  | c :: rest =>
      if Unicode.isWhiteSpace c then push_word cur (words_from [] rest)
      else words_from (cur ++ [c]) rest
  end.

Definition notWhiteSpace (c : Z) : bool := negb (Unicode.isWhiteSpace c).

(** A word: not empty, no white space in it. *)
Definition is_word (w : jsstring) : Prop :=
  w <> [] /\ forallb notWhiteSpace w = true.

Definition isSurrogate (c : Z) : bool :=
  Unicode.isHighSurrogate c || Unicode.isLowSurrogate c.

(** The number of nodes in a given state. *)
Definition count_state (st : WordState) (nodes : list Node) : nat :=
  length (filter (fun n => match state n, st with
                           | missing, missing | ok, ok | no, no => true
                           | _, _ => false
                           end) nodes).

(** ** The component: storage, state and events *)

(** [localStorage]: an association from keys to strings; the keys the
    component uses are ASCII literals. *)
Definition Storage : Type := list (string * jsstring).

(** [localStorage.getItem(k)], [None] standing for [null]. *)
Fixpoint getItem (k : string) (st : Storage) : option jsstring :=
  match st with
  | [] => None
  | (k', v) :: st' => if String.eqb k k' then Some v else getItem k st'
  end.

(** [localStorage.setItem(k, v)]: the value of an existing key is
    replaced, a new key is added. *)
Fixpoint setItem (k : string) (v : jsstring) (st : Storage) : Storage :=
  match st with
  | [] => [(k, v)]
  | (k', v') :: st' =>
      if String.eqb k k' then (k, v) :: st' else (k', v') :: setItem k v st'
  end.

(** [x || d] for a string or [null]: [null] and the empty string are
    falsy. *)
Definition or_default (x : option jsstring) (d : jsstring) : jsstring :=
  match x with
  | Some (c :: s) => c :: s
  | _ => d
  end.

Definition defaultReference : jsstring :=
  str "The quick brown fox jumps over the lazy dog. Try to memorize this text, then hide it and type it from memory below.".

(** The state of [MemoryTypingTrainer] that its handlers and effects read
    or write, with the storage it persists to. *)
Record App : Type := {
  session : Session;
  opts : Options;
  showFeedback : bool;
  hideWords : bool;
  lang : jsstring;
  localStorage : Storage
}.

(** The initialisers of [useState]. *)
Definition initialState (st : Storage) : App :=
  {| session :=
       {| reference := or_default (getItem "memref" st) defaultReference;
          attempt := or_default (getItem "memattempt" st) [];
          hidden := false;
          started := false;
          seconds := 0 |};
     opts := {| ignoreCase := true; ignorePunc := false |};
     showFeedback := true;
     hideWords := false;
     lang := or_default (getItem "memlang" st) (str "en");
     localStorage := st |}.

Definition withStorage (a : App) (st : Storage) : App :=
  {| session := session a; opts := opts a; showFeedback := showFeedback a;
     hideWords := hideWords a; lang := lang a; localStorage := st |}.

Definition withSession (a : App) (s : Session) : App :=
  {| session := s; opts := opts a; showFeedback := showFeedback a;
     hideWords := hideWords a; lang := lang a; localStorage := localStorage a |}.

(** The three persisting effects after the first render: each runs. *)
Definition mount (st : Storage) : App :=
  let a := initialState st in
  withStorage a
    (setItem "memlang" (lang a)
       (setItem "memattempt" (attempt (session a))
          (setItem "memref" (reference (session a)) st))).

(** The three persisting effects after a later render: each runs when its
    dependency has changed. *)
Definition runEffects (old new : App) : App :=
  let st := localStorage new in
  let st := if str_eqb (reference (session old)) (reference (session new)) then st
            else setItem "memref" (reference (session new)) st in
  let st := if str_eqb (attempt (session old)) (attempt (session new)) then st
            else setItem "memattempt" (attempt (session new)) st in
  let st := if str_eqb (lang old) (lang new) then st
            else setItem "memlang" (lang new) st in
  withStorage new st.

(** What the user and the timer can do. *)
Inductive Event : Type :=
  | ClickLanguage
  | ClickStart
  | ClickReveal
  | ChangeReference (value : jsstring)
  | ChangeIgnoreCase (checked : bool)
  | ChangeIgnorePunc (checked : bool)
  | ClickReset
  | ChangeAttempt (value : jsstring)
  | ClickShowFeedback
  | ClickHideWords
  | TimerTick.

(** Whether the control of an event is rendered (for the timer: whether
    its interval is set). *)
Definition rendered (a : App) (e : Event) : bool :=
  match e with
  | ClickStart => negb (hidden (session a))
  | ClickReveal => hidden (session a)
  | ChangeReference _ => negb (hidden (session a))
  | ClickHideWords => showFeedback a
  | TimerTick => started (session a)
  | _ => true
  end.

(** The state after the handler of an event, before the effects. *)
Definition handle (a : App) (e : Event) : App :=
  match e with
  | ClickLanguage =>
      {| session := session a; opts := opts a; showFeedback := showFeedback a;
         hideWords := hideWords a;
         lang := if str_eqb (lang a) (str "en") then str "vi" else str "en";
         localStorage := localStorage a |}
  | ClickStart => withSession a (handleStart (session a))
  | ClickReveal => withSession a (handleReveal (session a))
  | ChangeReference v =>
      withSession a
        {| reference := v; attempt := attempt (session a);
           hidden := hidden (session a); started := started (session a);
           seconds := seconds (session a) |}
  | ChangeIgnoreCase b =>
      {| session := session a;
         opts := {| ignoreCase := b; ignorePunc := ignorePunc (opts a) |};
         showFeedback := showFeedback a; hideWords := hideWords a;
         lang := lang a; localStorage := localStorage a |}
  | ChangeIgnorePunc b =>
      {| session := session a;
         opts := {| ignoreCase := ignoreCase (opts a); ignorePunc := b |};
         showFeedback := showFeedback a; hideWords := hideWords a;
         lang := lang a; localStorage := localStorage a |}
  | ClickReset => withSession a (handleResetAll (session a))
  | ChangeAttempt v =>
      withSession a
        {| reference := reference (session a); attempt := v;
           hidden := hidden (session a); started := started (session a);
           seconds := seconds (session a) |}
  | ClickShowFeedback =>
      {| session := session a; opts := opts a;
         showFeedback := negb (showFeedback a); hideWords := hideWords a;
         lang := lang a; localStorage := localStorage a |}
  | ClickHideWords =>
      {| session := session a; opts := opts a;
         showFeedback := showFeedback a; hideWords := negb (hideWords a);
         lang := lang a; localStorage := localStorage a |}
  | TimerTick => withSession a (tick (session a))
  end.

Definition step (a : App) (e : Event) : App := runEffects a (handle a e).

Definition run (a : App) (es : list Event) : App := fold_left step es a.

(** The states the component can be in: after mounting on some storage,
    and after any event whose control is rendered. *)
Inductive reachable : App -> Prop :=
  | reachable_mount (st : Storage) : reachable (mount st)
  | reachable_step (a : App) (e : Event) :
      reachable a -> rendered a e = true -> reachable (step a e).

(** Events that leave a running practice running. *)
Definition keeps_practicing (e : Event) : bool :=
  match e with
  | ClickStart | ClickReveal | ClickReset => false
  | _ => true
  end.

Definition isTick (e : Event) : bool :=
  match e with TimerTick => true | _ => false end.

(** What holds in a state that the storage mirrors. *)
Definition mirrored (a : App) : Prop :=
  getItem "memref" (localStorage a) = Some (reference (session a)) /\
  getItem "memattempt" (localStorage a) = Some (attempt (session a)) /\
  getItem "memlang" (localStorage a) = Some (lang a).

(** ** The clock *)

Module Math.

(** [Math.floor]: the largest integral number not above the argument;
    integral numbers, the zeros, the infinities and [NaN] are returned as
    they are. *)
Definition floor (x : Number.t) : Number.t :=
  match x with
  | S754_finite s m e =>
      if 0 <=? e then x
      else
        let n := if s then Z.neg m else Z.pos m in
        let k := n / 2 ^ (- e) in
        if k =? 0 then S754_zero s else Number.of_Z k
  | _ => x
  end.

End Math.

(** [n % d] on numbers: the exact remainder of the truncating division,
    with the sign of [n]. *)
Definition remainder (n d : Number.t) : Number.t :=
  match n, d with
  | S754_nan, _ | _, S754_nan => S754_nan
  | S754_infinity _, _ => S754_nan
  | _, S754_infinity _ => n
  | _, S754_zero _ => S754_nan
  | S754_zero _, _ => n
  | S754_finite sn mn en, S754_finite _ md ed =>
      let e := Z.min en ed in
      let r := (Z.pos mn * 2 ^ (en - e)) mod (Z.pos md * 2 ^ (ed - e)) in
      if r =? 0 then S754_zero sn
      else binary_normalize Number.prec Number.emax (if sn then - r else r) e false
  end.

(** The decimal digits of a natural number, most significant first. *)
Fixpoint digits (fuel : nat) (z : Z) : jsstring :=
  match fuel with
  | O => []
  | S fuel => (if z <? 10 then [] else digits fuel (z / 10)) ++ [0x30 + z mod 10]
  end.

Definition decimal (z : Z) : jsstring := digits (S (Z.to_nat (Z.log2 z))) z.

(** The integer a number stands for, when it is one of the integers of
    magnitude below [2^53], which numbers count exactly. *)
Definition safeInteger (x : Number.t) : option Z :=
  match x with
  | S754_zero _ => Some 0
  | S754_finite s m e =>
      let n := if s then Z.neg m else Z.pos m in
      if 0 <=? e then
        if Z.pos m * 2 ^ e <? 2 ^ 53 then Some (n * 2 ^ e) else None
      else
        if (Z.pos m mod 2 ^ (- e) =? 0) && (Z.pos m / 2 ^ (- e) <? 2 ^ 53)
        then Some (n / 2 ^ (- e)) else None
  | _ => None
  end.

(** [Number.prototype.toString]: a safe integer prints as its decimal
    digits; the text of any other number ([NaN], the infinities,
    fractions, larger magnitudes) is the engine's. *)
Class NumberToString : Type := {
  toStringOther : Number.t -> jsstring
}.

Definition toString `{NumberToString} (x : Number.t) : jsstring :=
  match safeInteger x with
  | Some z => if z <? 0 then str "-" ++ decimal (- z) else decimal z
  | None => toStringOther x
  end.

(** [String.prototype.padStart]. *)
Definition padStart (s : jsstring) (maxLength : nat) (fillString : jsstring) : jsstring :=
  if (maxLength <=? length s)%nat then s
  else
    match fillString with
    | [] => s
    | _ =>
        let fillLen := (maxLength - length s)%nat in
        firstn fillLen (concat (repeat fillString fillLen)) ++ s
    end.

Definition formatTime `{NumberToString} (s : nat) : jsstring :=
  let m :=
    padStart (toString (Math.floor (Number.div (Number.of_nat s) (Number.of_Z 60))))
             2 (str "0") in
  let sec :=
    padStart (toString (remainder (Number.of_nat s) (Number.of_Z 60))) 2 (str "0") in
  m ++ str ":" ++ sec.

(** An engine that prints nothing for the numbers outside the safe
    integers, to run the clock on. *)
Definition plain_printer : NumberToString := {| toStringOther := fun _ => [] |}.

(** The number a string of decimal digits reads as. *)
Definition digits_value (l : jsstring) : Z :=
  fold_left (fun acc c => 10 * acc + (c - 0x30)) l 0.

(** Two decimal places, as the clock shows them. *)
Definition pad2 (z : Z) : jsstring := padStart (decimal z) 2 (str "0").

(** ** The statistics row *)

(** What the row above the attempt shows: the clock, the accuracy, the
    words-per-minute figure and the typed and total word counts. *)
Record Panel : Type := {
  timeShown : jsstring;
  accuracyShown : Number.t;
  wpmShown : Number.t;
  wordsShown : nat * nat
}.

Definition panel `{Engine} `{NumberToString} (a : App) : Panel :=
  let stats := calcStats (reference (session a)) (attempt (session a)) (opts a) in
  {| timeShown := formatTime (seconds (session a));
     accuracyShown := accuracy stats;
     wpmShown := wpm (wordsTyped stats) (seconds (session a));
     wordsShown := (wordsTyped stats, totalWords stats) |}.

(** The two languages the language button switches between. *)
Definition supported (l : jsstring) : Prop := l = str "en" \/ l = str "vi".

(** ** The later revision of [Highlighter] *)

(** As [Highlighter], but a hidden word is [Math.max(1, rawWord.length)]
    no-break spaces. *)
Definition Highlighter_revised `{Engine} (reference attempt : jsstring) (opts : Options)
    (hideWords : bool) : list Node :=
  let refRawWords := splitWords reference in
  let refNWords := splitWords (normalize reference opts) in
  let attNWords := splitWords (normalize attempt opts) in
  mapi_from
    (fun rawWord i =>
       let refN := at_or_empty refNWords i in
       let attN := at_or_empty attNWords i in
       let matched := truthy_str refN && str_eqb refN attN in
       let state :=
         if negb (truthy_str attN) then missing
         else if matched then ok else no in
       {| key := i;
          state := state;
          text := if hideWords then repeat 0xA0 (Nat.max 1 (length rawWord))
                  else rawWord |})
    0 refRawWords.

(** ** Real-number reading of binary64 *)

Module B64.

Definition bpow (e : Z) : R := powerRZ 2 e.

(** The integer part of a real, rounding down. *)
Definition Zfloor (x : R) : Z := up x - 1.

(** Rounding a real to the nearest integer, a tie going to the even one. *)
Definition rne (x : R) : Z :=
  let f := Zfloor x in
  if Rlt_dec (x - IZR f) (/ 2) then f
  else if Rlt_dec (/ 2) (x - IZR f) then f + 1
  else if Z.even f then f else f + 1.

(** The real a number stands for (zero for the non-finite ones). *)
Definition B2R (x : spec_float) : R :=
  match x with
  | S754_finite s m e => (IZR (if s then Z.neg m else Z.pos m) * bpow e)%R
  | _ => 0%R
  end.

(** Where a real [x] lies with respect to the integer [m]: on it, or
    strictly between [m] and [m + 1], below, on or above the middle. *)
Definition loc_int (x : R) (m : Z) (l : location) : Prop :=
  match l with
  | loc_Exact => x = IZR m
  | loc_Inexact c =>
      (IZR m < x < IZR m + 1)%R /\
      match c with
      | Lt => (x < IZR m + / 2)%R
      | Eq => x = (IZR m + / 2)%R
      | Gt => (IZR m + / 2 < x)%R
      end
  end.

(** A positive number with a full 53-bit mantissa. *)
Definition normal (x : spec_float) : Prop :=
  match x with
  | S754_finite false m e => 2 ^ 52 <= Z.pos m < 2 ^ 53
  | _ => False
  end.

(** The rounding of the real [v], which lies in the binade of exponent
    [E], to 53 bits. *)
Definition RN (v : R) (E : Z) : R := (IZR (rne (v * bpow (- E))) * bpow E)%R.

Definition binade (v : R) (E : Z) : Prop :=
  (bpow (E + 52) <= v < bpow (E + 53))%R.

(** The same for the mantissa and the two bits that a right shift keeps. *)
Definition loc_rec (x : R) (mrs : shr_record) : Prop :=
  loc_int x (shr_m mrs) (loc_of_shr_record mrs).

End B64.

(** * Proofs *)

(** ** Strings and lists *)

Lemma str_eqb_eq (a b : jsstring) : str_eqb a b = true <-> a = b.
Proof.
  revert b; induction a as [|x a IH]; intros [|y b]; simpl;
    try (split; [discriminate | discriminate]); try tauto.
  rewrite andb_true_iff, Z.eqb_eq, IH.
  split; [intros [-> ->]; reflexivity | intros [= -> ->]; auto].
Qed.

Lemma str_eqb_refl (a : jsstring) : str_eqb a a = true.
Proof. apply str_eqb_eq; reflexivity. Qed.

Lemma word_eqb_eq (a b : option jsstring) : word_eqb a b = true <-> a = b.
Proof.
  destruct a as [x|], b as [y|]; simpl; try (split; discriminate); try tauto.
  rewrite str_eqb_eq; split; [intros ->; reflexivity | intros [= ->]; reflexivity].
Qed.

Lemma mapi_from_length {A B} (f : A -> nat -> B) (l : list A) (k : nat) :
  length (mapi_from f k l) = length l.
Proof. revert k; induction l; intros; simpl; auto. Qed.

Lemma mapi_from_nth_error {A B} (f : A -> nat -> B) (l : list A) (k i : nat) :
  nth_error (mapi_from f k l) i =
  option_map (fun x => f x (k + i)%nat) (nth_error l i).
Proof.
  revert k i; induction l as [|x l IH]; intros k [|i]; simpl; auto.
  - rewrite Nat.add_0_r; reflexivity.
  - rewrite IH. replace (S k + i)%nat with (k + S i)%nat by lia. reflexivity.
Qed.

Lemma mapi_from_ext {A B} (f g : A -> nat -> B) (l : list A) (k : nat) :
  (forall x i, nth_error l i = Some x -> f x (k + i)%nat = g x (k + i)%nat) ->
  mapi_from f k l = mapi_from g k l.
Proof.
  revert k; induction l as [|x l IH]; intros k Hfg; simpl; auto.
  f_equal.
  - specialize (Hfg x 0%nat eq_refl). rewrite Nat.add_0_r in Hfg. exact Hfg.
  - apply IH. intros y i Hy.
    replace (S k + i)%nat with (k + S i)%nat by lia. apply Hfg. exact Hy.
Qed.

Lemma mapi_from_map {A B C} (f : A -> nat -> B) (g : B -> C) (l : list A) (k : nat) :
  map g (mapi_from f k l) = mapi_from (fun x i => g (f x i)) k l.
Proof. revert k; induction l; intros; simpl; f_equal; auto. Qed.

Lemma mapi_from_seq {A B} (g : nat -> B) (l : list A) (k : nat) :
  mapi_from (fun _ i => g i) k l = map g (seq k (length l)).
Proof. revert k; induction l; intros; simpl; f_equal; auto. Qed.

Lemma mapi_from_id {A} (l : list A) (k : nat) :
  mapi_from (fun x _ => x) k l = l.
Proof. revert k; induction l; intros; simpl; f_equal; auto. Qed.

(** The loop counts the agreeing indices of the range it runs over. *)
Lemma countLoop_filter (refWords attWords : list jsstring) (todo i correct : nat) :
  countLoop refWords attWords todo i correct =
  (correct +
   length (filter (fun j => word_eqb (nth_error refWords j) (nth_error attWords j))
             (seq i todo)))%nat.
Proof.
  revert i correct; induction todo as [|todo IH]; intros i correct; simpl.
  - lia.
  - rewrite IH.
    destruct (word_eqb (nth_error refWords i) (nth_error attWords i)); simpl; lia.
Qed.

Lemma countLoop_positional (refWords attWords : list jsstring) :
  countLoop refWords attWords (Nat.min (length refWords) (length attWords)) 0 0 =
  positional_matches refWords attWords.
Proof. rewrite countLoop_filter. reflexivity. Qed.

Lemma positional_matches_le (refWords attWords : list jsstring) :
  (positional_matches refWords attWords <= Nat.min (length refWords) (length attWords))%nat.
Proof.
  unfold positional_matches.
  etransitivity; [apply filter_length_le | rewrite length_seq; lia].
Qed.

Lemma splitWords_truthy (s w : jsstring) : In w (splitWords s) -> w <> [].
Proof.
  unfold splitWords. rewrite filter_In. intros [_ H] ->. discriminate.
Qed.

Lemma splitWords_nth_nonempty (s : jsstring) (i : nat) :
  nth_error (splitWords s) i <> Some [].
Proof.
  intros H. apply nth_error_In in H. apply splitWords_truthy in H. congruence.
Qed.

Lemma total_or_one (n : nat) : (if Nat.eqb n 0 then 1%nat else n) = Nat.max 1 n.
Proof. destruct n; simpl; auto. Qed.

(** ** Normalisation *)

Lemma isZeroWidth_code_invisible (c : Z) : isZeroWidth c = code_invisible c.
Proof.
  unfold isZeroWidth, code_invisible; simpl.
  destruct (Z.eqb_spec c 0x200B), (Z.eqb_spec c 0x200C), (Z.eqb_spec c 0x200D),
    (Z.eqb_spec c 0xFEFF), (Z.leb_spec 0x200B c), (Z.leb_spec c 0x200D);
    simpl; try reflexivity; lia.
Qed.

Lemma sanitize_idempotent (s : jsstring) : sanitize (sanitize s) = sanitize s.
Proof.
  unfold sanitize. induction s as [|c s IH]; simpl; auto.
  destruct (isZeroWidth c) eqn:Hc; simpl; auto. rewrite Hc; simpl. f_equal; auto.
Qed.

Lemma sanitize_fixed_iff (s : jsstring) :
  sanitize s = s <-> Forall (fun c => isZeroWidth c = false) s.
Proof.
  unfold sanitize. split.
  - intros H. rewrite <- H. apply Forall_forall. intros c Hc.
    apply filter_In in Hc. destruct Hc as [_ Hc]. now apply negb_true_iff.
  - intros H. induction H as [|c s Hc _ IH]; simpl; auto.
    rewrite Hc; simpl. f_equal; auto.
Qed.

Lemma normalize_nil (E : Engine) (o : Options) :
  lowercase_ascii E -> normalize [] o = [].
Proof.
  intros Hlow. unfold normalize; simpl.
  destruct (ignorePunc o), (ignoreCase o); simpl; auto; apply (Hlow []); reflexivity.
Qed.

Lemma excerpt_lowercase_ascii : lowercase_ascii excerpt_engine.
Proof. intros s _. reflexivity. Qed.

(** ** The self tests of the source, and two roundings *)

Example sanitize_removes_zero_width :
  trim (sanitize [0x41; 0x200B; 0x20; 0x42]) = str "A B".
Proof. reflexivity. Qed.

Example stripPunctuation_removes_common_symbols :
  trim (@stripPunctuation excerpt_engine (str "Hi, there! #2025")) = str "Hi there 2025".
Proof. reflexivity. Qed.

Example normalize_ignoreCase :
  @normalize excerpt_engine (str "AbC") {| ignoreCase := true; ignorePunc := false |}
  = str "abc".
Proof. reflexivity. Qed.

Example normalize_keeps_punctuation :
  @normalize excerpt_engine (str "Hi, there!") {| ignoreCase := true; ignorePunc := false |}
  = str "hi, there!".
Proof. reflexivity. Qed.

Example splitWords_trims_and_splits :
  splitWords (str "  one   two  ") = [str "one"; str "two"].
Proof. reflexivity. Qed.

Example calcStats_case_insensitive :
  accuracy (@calcStats excerpt_engine (str "Hello world") (str "hello WORLD")
              {| ignoreCase := true; ignorePunc := false |}) = Number.of_Z 100.
Proof. reflexivity. Qed.

(** The arithmetic is binary64: [23 / 40 * 100] is [57.49999999999999],
    which rounds to 57, and 23 words in 184 seconds make
    [7.499999999999999] words per minute, which rounds to 7. *)
Example percentage_23_of_40 : spec_percentage 23 40 = Number.of_Z 57.
Proof. reflexivity. Qed.

Example wpm_23_words_184_seconds : wpm 23 184 = Number.of_Z 7.
Proof. reflexivity. Qed.

(** ** C1 *)

(** C1: [calcStats] returns the three fields the specification lists:
    [totalWords] and [wordsTyped] are the lengths of the two normalised word
    lists, [accuracy] is [round(correct / max(1, totalWords) * 100)] clamped
    to [0, 100] with [correct] the number of agreeing positions; the example
    of the specification yields 67, 2 and 3; an empty reference yields
    [totalWords = 0] and [accuracy = 0] whatever the attempt. *)
Theorem calcStats_spec (E : Engine) (Hlow : lowercase_ascii E) :
  (forall r a o,
      calcStats r a o =
      {| accuracy :=
           spec_accuracy
             (positional_matches (splitWords (normalize r o))
                                 (splitWords (normalize a o)))
             (length (splitWords (normalize r o)));
         wordsTyped := length (splitWords (normalize a o));
         totalWords := length (splitWords (normalize r o)) |}) /\
  calcStats (str "one two three") (str "one two")
            {| ignoreCase := true; ignorePunc := false |} =
  {| accuracy := Number.of_Z 67; wordsTyped := 2; totalWords := 3 |} /\
  (forall a o,
      totalWords (calcStats [] a o) = 0%nat /\
      accuracy (calcStats [] a o) = Number.of_Z 0).
Proof.
  split; [|split].
  - intros r a o. unfold calcStats, spec_accuracy, spec_percentage, clamp.
    rewrite countLoop_positional, total_or_one. reflexivity.
  - unfold calcStats, normalize; cbn [ignoreCase ignorePunc].
    rewrite !Hlow by reflexivity. vm_compute. reflexivity.
  - intros a o. unfold calcStats. rewrite (normalize_nil E o Hlow).
    split; reflexivity.
Qed.

Lemma calcStats_spec_witness :
  lowercase_ascii excerpt_engine /\
  @calcStats excerpt_engine (str "one two three") (str "one two")
            {| ignoreCase := true; ignorePunc := false |} =
  {| accuracy := Number.of_Z 67; wordsTyped := 2; totalWords := 3 |}.
Proof.
  split.
  - exact excerpt_lowercase_ascii.
  - exact (proj1 (proj2 (calcStats_spec excerpt_engine excerpt_lowercase_ascii))).
Defined.

(** ** C2 *)

(** C2, as the specification states it, fails on the left-to-right mark:
    the code keeps U+200E. *)
Lemma normalize_keeps_left_to_right_mark :
  @normalize excerpt_engine [0x200E] {| ignoreCase := false; ignorePunc := false |}
  <> filter (fun c => negb (spec_invisible c)) [0x200E].
Proof. vm_compute. discriminate. Qed.

(** C2 (amended): the first step of [normalize] removes, whatever the
    options, every code unit U+200B, U+200C, U+200D and U+FEFF, so that
    normalising a string and normalising it with those code units removed
    give the same result and none of them survives [sanitize]; with both
    options off [normalize] removes exactly those code units and is
    otherwise the identity. *)
Theorem normalize_removes_zero_width (E : Engine) (s : jsstring) :
  sanitize s = filter (fun c => negb (code_invisible c)) s /\
  (forall o, normalize s o = normalize (filter (fun c => negb (code_invisible c)) s) o) /\
  normalize s {| ignoreCase := false; ignorePunc := false |} =
  filter (fun c => negb (code_invisible c)) s.
Proof.
  assert (Hs : sanitize s = filter (fun c => negb (code_invisible c)) s).
  { unfold sanitize. apply filter_ext. intros c. now rewrite isZeroWidth_code_invisible. }
  split; [exact Hs|]. split.
  - intros o. rewrite <- Hs. unfold normalize. now rewrite sanitize_idempotent.
  - unfold normalize; simpl. exact Hs.
Qed.

(** ** C3 *)

Lemma truthy_str_at_or_empty (l : list jsstring) (i : nat) :
  truthy_str (at_or_empty l i) = false <->
  (nth_error l i = None \/ nth_error l i = Some []).
Proof.
  unfold at_or_empty. destruct (nth_error l i) as [[|c w]|]; simpl; split; auto;
    try discriminate; intros [H|H]; discriminate.
Qed.

(** The state the code computes at position [i] is the state the
    specification describes. *)
Lemma code_state_spec (refNWords attNWords : list jsstring) (i : nat) :
  (if negb (truthy_str (at_or_empty attNWords i)) then missing
   else if truthy_str (at_or_empty refNWords i) &&
           str_eqb (at_or_empty refNWords i) (at_or_empty attNWords i)
        then ok else no) =
  spec_state refNWords attNWords i.
Proof.
  unfold spec_state, at_or_empty.
  destruct (nth_error attNWords i) as [[|c w]|]; simpl; auto.
  destruct (nth_error refNWords i) as [[|d v]|]; simpl; auto.
Qed.

(** The states [Highlighter] computes, position by position. *)
Lemma Highlighter_states (E : Engine) (r a : jsstring) (o : Options) (h : bool) :
  map state (Highlighter r a o h) =
  map (spec_state (splitWords (normalize r o)) (splitWords (normalize a o)))
      (seq 0 (length (splitWords r))).
Proof.
  unfold Highlighter. rewrite mapi_from_map; simpl. rewrite <- mapi_from_seq.
  apply mapi_from_ext. intros x i _. apply code_state_spec.
Qed.

Lemma Highlighter_nth_state (E : Engine) (r a : jsstring) (o : Options) (h : bool)
    (i : nat) (n : Node) :
  nth_error (Highlighter r a o h) i = Some n ->
  state n = spec_state (splitWords (normalize r o)) (splitWords (normalize a o)) i.
Proof.
  unfold Highlighter. rewrite mapi_from_nth_error.
  destruct (nth_error (splitWords r) i); simpl; [|discriminate].
  intros [= <-]; simpl. apply code_state_spec.
Qed.

(** C3: [Highlighter] yields one entry per raw reference word, in order;
    without the placeholder option the entry shows the raw word; and at each
    position the state is pending when the normalised attempt word is absent
    or empty, matched when the normalised reference word equals it, and
    mismatched otherwise. *)
Theorem Highlighter_classification (E : Engine) (r a : jsstring) (o : Options) (h : bool) :
  length (Highlighter r a o h) = length (splitWords r) /\
  map text (Highlighter r a o false) = splitWords r /\
  map state (Highlighter r a o h) =
  map (spec_state (splitWords (normalize r o)) (splitWords (normalize a o)))
      (seq 0 (length (splitWords r))).
Proof.
  split; [|split].
  - apply mapi_from_length.
  - unfold Highlighter. rewrite mapi_from_map; simpl. apply mapi_from_id.
  - apply Highlighter_states.
Qed.

(** ** C4 *)

Lemma spec_state_same (s : jsstring) (i : nat) :
  spec_state (splitWords s) (splitWords s) i =
  if (i <? length (splitWords s))%nat then ok else missing.
Proof.
  unfold spec_state.
  destruct (nth_error (splitWords s) i) as [w|] eqn:Hw.
  - assert (Hlt : (i < length (splitWords s))%nat)
      by (apply nth_error_Some; congruence).
    apply Nat.ltb_lt in Hlt. rewrite Hlt.
    destruct w as [|c w]; [exfalso; now apply (splitWords_nth_nonempty s i)|].
    simpl. now rewrite Z.eqb_refl, str_eqb_refl.
  - apply nth_error_None in Hw. apply Nat.ltb_ge in Hw. now rewrite Hw.
Qed.

(** C4, as the specification states it, fails when normalisation leaves
    fewer words than the raw reference has: with punctuation ignored, the
    reference [a - b] typed back exactly leaves its last entry pending. *)
Lemma Highlighter_same_text_not_all_matched :
  @normalize excerpt_engine (str "a - b") {| ignoreCase := false; ignorePunc := true |} =
  @normalize excerpt_engine (str "a - b") {| ignoreCase := false; ignorePunc := true |} /\
  ~ Forall (fun n => state n = ok)
      (@Highlighter excerpt_engine (str "a - b") (str "a - b")
         {| ignoreCase := false; ignorePunc := true |} false).
Proof.
  split; [reflexivity|]. vm_compute. intros H.
  inversion H as [|? ? _ H1]; subst. inversion H1 as [|? ? _ H2]; subst.
  inversion H2 as [|? ? H3 _]; subst. discriminate H3.
Qed.

(** C4 (amended): when the attempt normalises to the same text as the
    reference, the entries at the positions of the normalised reference
    words are matched and any entry after them is pending, so that all
    entries are matched when normalisation keeps the number of reference
    words; an empty attempt leaves every entry pending. *)
Theorem Highlighter_same_or_empty_attempt (E : Engine) (Hlow : lowercase_ascii E)
    (r : jsstring) (o : Options) (h : bool) :
  (forall a, normalize a o = normalize r o ->
     map state (Highlighter r a o h) =
     map (fun i => if (i <? length (splitWords (normalize r o)))%nat then ok else missing)
         (seq 0 (length (splitWords r)))) /\
  (forall a, normalize a o = normalize r o ->
     (length (splitWords r) <= length (splitWords (normalize r o)))%nat ->
     Forall (fun n => state n = ok) (Highlighter r a o h)) /\
  Forall (fun n => state n = missing) (Highlighter r [] o h).
Proof.
  assert (Hsame : forall a, normalize a o = normalize r o ->
     map state (Highlighter r a o h) =
     map (fun i => if (i <? length (splitWords (normalize r o)))%nat then ok else missing)
         (seq 0 (length (splitWords r)))).
  { intros a Ha. rewrite Highlighter_states, Ha.
    apply map_ext. intros i. apply spec_state_same. }
  split; [exact Hsame|]. split.
  - intros a Ha Hlen. apply Forall_forall. intros n Hn.
    apply In_nth_error in Hn. destruct Hn as [i Hi].
    rewrite (Highlighter_nth_state E r a o h i n Hi), Ha, spec_state_same.
    assert (Hlt : (i < length (Highlighter r a o h))%nat)
      by (apply nth_error_Some; congruence).
    unfold Highlighter in Hlt. rewrite mapi_from_length in Hlt.
    assert (Hlt' : (i < length (splitWords (normalize r o)))%nat) by lia.
    apply Nat.ltb_lt in Hlt'. now rewrite Hlt'.
  - apply Forall_forall. intros n Hn.
    apply In_nth_error in Hn. destruct Hn as [i Hi].
    rewrite (Highlighter_nth_state E r [] o h i n Hi), (normalize_nil E o Hlow).
    unfold spec_state. change (splitWords []) with (@nil jsstring).
    now destruct i.
Qed.

Lemma Highlighter_same_or_empty_attempt_witness :
  lowercase_ascii excerpt_engine /\
  Forall (fun n => state n = missing)
    (@Highlighter excerpt_engine (str "a - b") []
       {| ignoreCase := true; ignorePunc := true |} false).
Proof.
  split.
  - exact excerpt_lowercase_ascii.
  - exact (proj2 (proj2 (Highlighter_same_or_empty_attempt excerpt_engine
             excerpt_lowercase_ascii (str "a - b")
             {| ignoreCase := true; ignorePunc := true |} false))).
Defined.

(** ** C10 *)

(** C10: a position whose normalised reference word is absent or empty is
    never matched; it is pending when the attempt word there is absent or
    empty and mismatched otherwise. *)
Theorem Highlighter_no_reference_word (E : Engine) (r a : jsstring) (o : Options)
    (h : bool) (i : nat) (n : Node) :
  nth_error (Highlighter r a o h) i = Some n ->
  nth_error (splitWords (normalize r o)) i = None \/
  nth_error (splitWords (normalize r o)) i = Some [] ->
  state n <> ok /\
  (nth_error (splitWords (normalize a o)) i = None \/
   nth_error (splitWords (normalize a o)) i = Some [] -> state n = missing) /\
  (~ (nth_error (splitWords (normalize a o)) i = None \/
      nth_error (splitWords (normalize a o)) i = Some []) -> state n = no).
Proof.
  intros Hn Href. rewrite (Highlighter_nth_state E r a o h i n Hn).
  unfold spec_state.
  destruct (nth_error (splitWords (normalize a o)) i) as [[|c w]|].
  - repeat split; try discriminate; auto. intros H; exfalso; apply H; auto.
  - assert (Hne : word_eqb (nth_error (splitWords (normalize r o)) i) (Some (c :: w)) = false).
    { destruct Href as [-> | ->]; reflexivity. }
    rewrite Hne. repeat split; try discriminate; auto.
    intros [H|H]; discriminate.
  - repeat split; try discriminate; auto. intros H; exfalso; apply H; auto.
Qed.

Lemma Highlighter_no_reference_word_witness :
  state {| key := 2; state := no; text := str "b" |} <> ok /\
  (~ (nth_error (splitWords (@normalize excerpt_engine (str "a b c")
                   {| ignoreCase := false; ignorePunc := true |})) 2 = None \/
      nth_error (splitWords (@normalize excerpt_engine (str "a b c")
                   {| ignoreCase := false; ignorePunc := true |})) 2 = Some []) ->
   state {| key := 2; state := no; text := str "b" |} = no).
Proof.
  pose proof (Highlighter_no_reference_word excerpt_engine (str "a - b") (str "a b c")
                {| ignoreCase := false; ignorePunc := true |} false 2
                {| key := 2; state := no; text := str "b" |}
                eq_refl (or_introl eq_refl)) as H.
  exact (conj (proj1 H) (proj2 (proj2 H))).
Defined.

(** ** C7 *)

(** C7: from any state [handleStart] zeroes the seconds, empties the
    attempt and enters [practicing] with the timer running; [handleReveal]
    stops the timer and keeps attempt, reference and seconds;
    [handleResetAll] empties reference and attempt, zeroes the seconds and
    enters [editing]; [handleReveal] in [editing] changes nothing. *)
Theorem session_transitions (s : Session) :
  (seconds (handleStart s) = 0%nat /\ attempt (handleStart s) = [] /\
   practicing (handleStart s) /\
   seconds (tick (handleStart s)) = 1%nat) /\
  (started (handleReveal s) = false /\
   tick (handleReveal s) = handleReveal s /\
   attempt (handleReveal s) = attempt s /\
   reference (handleReveal s) = reference s /\
   seconds (handleReveal s) = seconds s) /\
  (reference (handleResetAll s) = [] /\ attempt (handleResetAll s) = [] /\
   seconds (handleResetAll s) = 0%nat /\ editing (handleResetAll s)) /\
  (editing s -> handleReveal s = s).
Proof.
  unfold practicing, editing. repeat split.
  intros [Hh Hs]. destruct s as [r a hd st sec]; simpl in *. subst. reflexivity.
Qed.

Lemma session_transitions_witness :
  handleReveal {| reference := str "abc"; attempt := str "ab";
                  hidden := false; started := false; seconds := 7 |} =
  {| reference := str "abc"; attempt := str "ab";
     hidden := false; started := false; seconds := 7 |}.
Proof.
  exact (proj2 (proj2 (proj2 (session_transitions
           {| reference := str "abc"; attempt := str "ab";
              hidden := false; started := false; seconds := 7 |})))
         (conj eq_refl eq_refl)).
Defined.

(** ** C5 *)

(** Induction that follows the code-point scan: one or two code units at a
    time. *)
Lemma scan_ind (P : jsstring -> Prop) :
  P [] ->
  (forall c, P [c]) ->
  (forall c lo rest, P rest -> P (lo :: rest) -> P (c :: lo :: rest)) ->
  forall s, P s.
Proof.
  intros Hnil Hone Hstep.
  assert (H : forall s, P s /\ forall c, P (c :: s)).
  { induction s as [|x s [IH1 IH2]]; split; auto. }
  intros s. apply H.
Qed.

Lemma stripPunctuation_not_high (E : Engine) (c : Z) (t : jsstring) :
  Unicode.isHighSurrogate c = false ->
  stripPunctuation (c :: t) =
  if isPunctOrSymbol c then stripPunctuation t else c :: stripPunctuation t.
Proof.
  intros Hc. destruct t as [|lo t]; simpl.
  - destruct (isPunctOrSymbol c); reflexivity.
  - rewrite Hc; simpl. reflexivity.
Qed.

Lemma stripPunctuation_cons2 (E : Engine) (c lo : Z) (rest : jsstring) :
  stripPunctuation (c :: lo :: rest) =
  if Unicode.isHighSurrogate c && Unicode.isLowSurrogate lo then
    if isPunctOrSymbol (Unicode.codePoint c lo)
    then stripPunctuation rest
    else c :: lo :: stripPunctuation rest
  else if isPunctOrSymbol c then stripPunctuation (lo :: rest)
  else c :: stripPunctuation (lo :: rest).
Proof. reflexivity. Qed.

(** What [stripPunctuation] keeps was there before. *)
Lemma stripPunctuation_Forall (E : Engine) (P : Z -> Prop) (s : jsstring) :
  Forall P s -> Forall P (stripPunctuation s).
Proof.
  induction s as [| c | c lo rest IH1 IH2] using scan_ind; intros H.
  - constructor.
  - simpl. destruct (isPunctOrSymbol c); auto.
  - inversion H as [|? ? Hc Hrest]; subst.
    inversion Hrest as [|? ? Hlo Hrest']; subst.
    cbn [stripPunctuation].
    destruct (Unicode.isHighSurrogate c && Unicode.isLowSurrogate lo).
    + destruct (isPunctOrSymbol (Unicode.codePoint c lo)); auto.
    + destruct (isPunctOrSymbol c); auto.
Qed.

(** On a string without unpaired surrogates a second pass of
    [stripPunctuation] finds nothing to remove. *)
Lemma stripPunctuation_idempotent (E : Engine) (s : jsstring) :
  Unicode.isWellFormed s = true ->
  stripPunctuation (stripPunctuation s) = stripPunctuation s.
Proof.
  induction s as [| c | c lo rest IH1 IH2] using scan_ind; intros Hwf.
  - reflexivity.
  - simpl. destruct (isPunctOrSymbol c) eqn:Hc; simpl; [|rewrite Hc]; reflexivity.
  - rewrite stripPunctuation_cons2. cbn [Unicode.isWellFormed] in Hwf.
    destruct (Unicode.isHighSurrogate c) eqn:Hhi.
    + apply andb_true_iff in Hwf. destruct Hwf as [Hlo Hwf].
      rewrite Hlo; cbn [andb].
      destruct (isPunctOrSymbol (Unicode.codePoint c lo)) eqn:Hcp; auto.
      rewrite stripPunctuation_cons2, Hhi, Hlo; cbn [andb]. rewrite Hcp.
      now rewrite IH1.
    + apply andb_true_iff in Hwf. destruct Hwf as [_ Hwf]. cbn [andb].
      destruct (isPunctOrSymbol c) eqn:Hc; auto.
      rewrite (stripPunctuation_not_high E c _ Hhi), Hc. now rewrite IH2.
Qed.

Lemma sanitize_wellFormed (s : jsstring) :
  Unicode.isWellFormed s = true -> Unicode.isWellFormed (sanitize s) = true.
Proof.
  assert (Hsur : forall c, Unicode.isHighSurrogate c = true \/
                           Unicode.isLowSurrogate c = true ->
                           isZeroWidth c = false).
  { intros c. unfold Unicode.isHighSurrogate, Unicode.isLowSurrogate, isZeroWidth.
    intros [H|H]; apply andb_true_iff in H; destruct H as [H1 H2];
      apply Z.leb_le in H1, H2;
      apply orb_false_iff; split;
      [apply andb_false_iff; right; apply Z.leb_gt; lia | apply Z.eqb_neq; lia
      |apply andb_false_iff; right; apply Z.leb_gt; lia | apply Z.eqb_neq; lia]. }
  induction s as [| c | c lo rest IH1 IH2] using scan_ind; intros Hwf.
  - reflexivity.
  - simpl in *. destruct (Unicode.isHighSurrogate c) eqn:Hhi; [discriminate|].
    unfold sanitize; simpl. destruct (isZeroWidth c); simpl; auto.
    now rewrite Hhi.
  - cbn [Unicode.isWellFormed] in Hwf.
    destruct (Unicode.isHighSurrogate c) eqn:Hhi.
    + apply andb_true_iff in Hwf. destruct Hwf as [Hlo Hwf].
      unfold sanitize; cbn [filter].
      rewrite (Hsur c (or_introl Hhi)), (Hsur lo (or_intror Hlo)); simpl.
      rewrite Hhi, Hlo; simpl. apply IH1, Hwf.
    + apply andb_true_iff in Hwf. destruct Hwf as [Hnlo Hwf].
      change (sanitize (c :: lo :: rest))
        with (if negb (isZeroWidth c) then c :: sanitize (lo :: rest)
              else sanitize (lo :: rest)).
      destruct (isZeroWidth c); simpl; [apply IH2, Hwf|].
      rewrite Hhi, Hnlo; simpl. apply IH2, Hwf.
Qed.

Lemma stripPunctuation_sanitized (E : Engine) (s : jsstring) :
  sanitize s = s -> sanitize (stripPunctuation s) = stripPunctuation s.
Proof.
  rewrite !sanitize_fixed_iff. apply stripPunctuation_Forall.
Qed.

(** With any table that has the exclamation mark and U+1F4A9 in P or S and
    the two surrogates of U+1F4A9 outside, a second normalisation removes
    the pair that the first one joined. *)
Lemma normalize_joins_surrogates (E : Engine) :
  isPunctOrSymbol 0x21 = true ->
  isPunctOrSymbol 0xD83D = false ->
  isPunctOrSymbol 0xDCA9 = false ->
  isPunctOrSymbol 0x1F4A9 = true ->
  normalize [0xD83D; 0x21; 0xDCA9] {| ignoreCase := false; ignorePunc := true |}
    = [0xD83D; 0xDCA9] /\
  normalize [0xD83D; 0xDCA9] {| ignoreCase := false; ignorePunc := true |} = [].
Proof.
  intros H1 H2 H3 H4. unfold normalize; simpl.
  change (Unicode.codePoint 55357 56489) with 0x1F4A9.
  now rewrite H1, H2, H3, H4.
Qed.

(** C5, as the specification states it, fails on a string with unpaired
    surrogates: removing the punctuation between them makes them one
    character, a symbol, which a second normalisation removes. *)
Lemma normalize_not_idempotent :
  @normalize excerpt_engine
     (@normalize excerpt_engine [0xD83D; 0x21; 0xDCA9]
        {| ignoreCase := false; ignorePunc := true |})
     {| ignoreCase := false; ignorePunc := true |}
  <> @normalize excerpt_engine [0xD83D; 0x21; 0xDCA9]
       {| ignoreCase := false; ignorePunc := true |}.
Proof.
  destruct (normalize_joins_surrogates excerpt_engine eq_refl eq_refl eq_refl eq_refl)
    as [-> ->].
  discriminate.
Qed.

(** C5 (amended): [normalize] is idempotent when punctuation is kept, and,
    when punctuation is ignored, on every string without unpaired
    surrogates. *)
Theorem normalize_idempotent (E : Engine)
    (Hidem : lowercase_idempotent E)
    (Hsan : lowercase_keeps_sanitized E)
    (Hstrip : lowercase_keeps_stripped E)
    (s : jsstring) (o : Options) :
  ignorePunc o = false \/ Unicode.isWellFormed s = true ->
  normalize (normalize s o) o = normalize s o.
Proof.
  intros Hcase. unfold normalize.
  pose proof (sanitize_idempotent s) as Hss.
  destruct (ignorePunc o) eqn:Hp, (ignoreCase o) eqn:Hc.
  - destruct Hcase as [Hcase|Hwf]; [discriminate|].
    pose proof (stripPunctuation_idempotent E _ (sanitize_wellFormed s Hwf)) as Hpp.
    pose proof (stripPunctuation_sanitized E _ Hss) as Hsp.
    rewrite (Hsan _ Hsp), (Hstrip _ Hpp). apply Hidem.
  - destruct Hcase as [Hcase|Hwf]; [discriminate|].
    rewrite (stripPunctuation_sanitized E _ Hss).
    apply (stripPunctuation_idempotent E _ (sanitize_wellFormed s Hwf)).
  - rewrite (Hsan _ Hss). apply Hidem.
  - exact Hss.
Qed.

(** *** The concrete engine satisfies the three facts *)

(** Decides a comparison-built boolean identity by cases on every
    comparison in it, dropping the impossible cases as they appear. *)
Ltac split_comparisons :=
  repeat match goal with
    | |- context [?a <=? ?b] => destruct (Z.leb_spec a b); try lia
    | |- context [?a =? ?b] => destruct (Z.eqb_spec a b); try lia
    end;
  cbn [andb orb negb]; try reflexivity; try lia.

Lemma asciiLower_cases (c : Z) :
  Unicode.asciiLower c = c \/ (0x41 <= c <= 0x5A /\ Unicode.asciiLower c = c + 0x20).
Proof.
  unfold Unicode.asciiLower.
  destruct (Z.leb_spec 0x41 c), (Z.leb_spec c 0x5A); cbn [andb]; auto.
Qed.

Lemma asciiLower_idempotent (c : Z) :
  Unicode.asciiLower (Unicode.asciiLower c) = Unicode.asciiLower c.
Proof.
  destruct (asciiLower_cases c) as [Hl | [Hc Hl]]; rewrite ?Hl; auto.
  unfold Unicode.asciiLower. split_comparisons.
Qed.

Lemma asciiLower_isZeroWidth (c : Z) :
  isZeroWidth (Unicode.asciiLower c) = isZeroWidth c.
Proof.
  destruct (asciiLower_cases c) as [Hl | [Hc Hl]]; rewrite ?Hl; auto.
  unfold isZeroWidth. split_comparisons.
Qed.

Lemma asciiLower_isHighSurrogate (c : Z) :
  Unicode.isHighSurrogate (Unicode.asciiLower c) = Unicode.isHighSurrogate c.
Proof.
  destruct (asciiLower_cases c) as [Hl | [Hc Hl]]; rewrite ?Hl; auto.
  unfold Unicode.isHighSurrogate. split_comparisons.
Qed.

Lemma asciiLower_isLowSurrogate (c : Z) :
  Unicode.isLowSurrogate (Unicode.asciiLower c) = Unicode.isLowSurrogate c.
Proof.
  destruct (asciiLower_cases c) as [Hl | [Hc Hl]]; rewrite ?Hl; auto.
  unfold Unicode.isLowSurrogate. split_comparisons.
Qed.

Lemma asciiLower_surrogate (c : Z) :
  Unicode.isHighSurrogate c = true \/ Unicode.isLowSurrogate c = true ->
  Unicode.asciiLower c = c.
Proof.
  destruct (asciiLower_cases c) as [Hl | [Hc Hl]]; rewrite ?Hl; auto.
  unfold Unicode.isHighSurrogate, Unicode.isLowSurrogate.
  intros [H|H]; apply andb_true_iff in H; destruct H as [H1 H2];
    apply Z.leb_le in H1, H2; lia.
Qed.

Lemma asciiLower_excerpt_isPunctOrSymbol (c : Z) :
  excerpt_isPunctOrSymbol (Unicode.asciiLower c) = excerpt_isPunctOrSymbol c.
Proof.
  destruct (asciiLower_cases c) as [Hl | [Hc Hl]]; rewrite ?Hl; auto.
  unfold excerpt_isPunctOrSymbol. split_comparisons.
Qed.

Lemma excerpt_lowercase_idempotent : lowercase_idempotent excerpt_engine.
Proof.
  intros s. simpl. rewrite map_map. apply map_ext. exact asciiLower_idempotent.
Qed.

Lemma excerpt_lowercase_keeps_sanitized : lowercase_keeps_sanitized excerpt_engine.
Proof.
  intros s. rewrite !sanitize_fixed_iff. simpl. rewrite Forall_map.
  apply Forall_impl. intros c. now rewrite asciiLower_isZeroWidth.
Qed.

Lemma excerpt_stripPunctuation_lower (s : jsstring) :
  @stripPunctuation excerpt_engine (map Unicode.asciiLower s) =
  map Unicode.asciiLower (@stripPunctuation excerpt_engine s).
Proof.
  induction s as [| c | c lo rest IH1 IH2] using scan_ind.
  - reflexivity.
  - simpl. rewrite asciiLower_excerpt_isPunctOrSymbol.
    destruct (excerpt_isPunctOrSymbol c); reflexivity.
  - cbn [map] in *. rewrite !stripPunctuation_cons2.
    rewrite asciiLower_isHighSurrogate, asciiLower_isLowSurrogate.
    destruct (Unicode.isHighSurrogate c) eqn:Hhi,
             (Unicode.isLowSurrogate lo) eqn:Hlo; cbn [andb].
    + rewrite (asciiLower_surrogate c (or_introl Hhi)),
              (asciiLower_surrogate lo (or_intror Hlo)).
      destruct (isPunctOrSymbol (Unicode.codePoint c lo)); cbn [map];
        rewrite ?IH1; rewrite ?(asciiLower_surrogate c (or_introl Hhi)),
                              ?(asciiLower_surrogate lo (or_intror Hlo));
        reflexivity.
    + cbn [isPunctOrSymbol excerpt_engine].
      rewrite asciiLower_excerpt_isPunctOrSymbol.
      destruct (excerpt_isPunctOrSymbol c); cbn [map]; now rewrite IH2.
    + cbn [isPunctOrSymbol excerpt_engine].
      rewrite asciiLower_excerpt_isPunctOrSymbol.
      destruct (excerpt_isPunctOrSymbol c); cbn [map]; now rewrite IH2.
    + cbn [isPunctOrSymbol excerpt_engine].
      rewrite asciiLower_excerpt_isPunctOrSymbol.
      destruct (excerpt_isPunctOrSymbol c); cbn [map]; now rewrite IH2.
Qed.

Lemma excerpt_lowercase_keeps_stripped : lowercase_keeps_stripped excerpt_engine.
Proof.
  intros s Hs. change (toLowerCase s) with (map Unicode.asciiLower s).
  rewrite excerpt_stripPunctuation_lower. now rewrite Hs.
Qed.

Lemma normalize_idempotent_witness :
  lowercase_idempotent excerpt_engine /\
  lowercase_keeps_sanitized excerpt_engine /\
  lowercase_keeps_stripped excerpt_engine /\
  (ignorePunc {| ignoreCase := true; ignorePunc := true |} = false \/
   Unicode.isWellFormed (str "Hi, there!") = true) /\
  @normalize excerpt_engine
     (@normalize excerpt_engine (str "Hi, there!")
        {| ignoreCase := true; ignorePunc := true |})
     {| ignoreCase := true; ignorePunc := true |} =
  @normalize excerpt_engine (str "Hi, there!")
     {| ignoreCase := true; ignorePunc := true |}.
Proof.
  split; [exact excerpt_lowercase_idempotent|].
  split; [exact excerpt_lowercase_keeps_sanitized|].
  split; [exact excerpt_lowercase_keeps_stripped|].
  split; [right; reflexivity|].
  exact (normalize_idempotent excerpt_engine excerpt_lowercase_idempotent
           excerpt_lowercase_keeps_sanitized excerpt_lowercase_keeps_stripped
           (str "Hi, there!") {| ignoreCase := true; ignorePunc := true |}
           (or_intror eq_refl)).
Defined.

(** ** Binary64 arithmetic in the normal range *)

(** *** Powers of two, floor and nearest integer *)

Section RoundingReals.
Import B64.
Local Open Scope R_scope.

Lemma bpow_gt_0 (e : Z) : 0 < bpow e.
Proof. apply powerRZ_lt; lra. Qed.

Lemma bpow_add (a b : Z) : bpow (a + b) = bpow a * bpow b.
Proof. apply powerRZ_add; lra. Qed.

Lemma bpow_IZR (n : Z) : (0 <= n)%Z -> bpow n = IZR (2 ^ n).
Proof.
  intros Hn. unfold bpow. destruct n as [|p|p]; try lia.
  - reflexivity.
  - change (powerRZ 2 (Z.pos p)) with (pow 2 (Pos.to_nat p)).
    rewrite pow_IZR, positive_nat_Z. reflexivity.
Qed.

Lemma bpow_opp (e : Z) : bpow (- e) = / bpow e.
Proof. apply powerRZ_neg'. Qed.

Lemma bpow_cancel (e : Z) : bpow e * bpow (- e) = 1.
Proof. rewrite <- bpow_add. replace (e + - e)%Z with 0%Z by lia. reflexivity. Qed.

Lemma bpow_le (a b : Z) : (a <= b)%Z -> bpow a <= bpow b.
Proof.
  intros H. replace b with (a + (b - a))%Z by lia. rewrite bpow_add.
  rewrite (bpow_IZR (b - a)) by lia.
  assert (1 <= IZR (2 ^ (b - a))) by (apply IZR_le; apply (Z.pow_le_mono_r 2 0); lia).
  pose proof (bpow_gt_0 a). nra.
Qed.

Lemma bpow_lt (a b : Z) : (a < b)%Z -> bpow a < bpow b.
Proof.
  intros H. replace b with (a + (b - a))%Z by lia. rewrite bpow_add.
  rewrite (bpow_IZR (b - a)) by lia.
  assert (2 <= IZR (2 ^ (b - a))).
  { apply IZR_le. apply (Z.pow_le_mono_r 2 1); lia. }
  pose proof (bpow_gt_0 a). nra.
Qed.

Lemma bpow_lt_inv (a b : Z) : bpow a < bpow b -> (a < b)%Z.
Proof.
  intros H. destruct (Z_lt_le_dec a b) as [|Hle]; auto.
  apply bpow_le in Hle. lra.
Qed.

Lemma Zfloor_spec (x : R) : IZR (Zfloor x) <= x < IZR (Zfloor x) + 1.
Proof.
  unfold Zfloor. rewrite minus_IZR. destruct (archimed x). lra.
Qed.

Lemma Zfloor_unique (x : R) (n : Z) : IZR n <= x < IZR n + 1 -> Zfloor x = n.
Proof.
  intros [H1 H2]. destruct (Zfloor_spec x) as [H3 H4].
  assert (Ha : (Zfloor x < n + 1)%Z) by (apply lt_IZR; rewrite plus_IZR; lra).
  assert (Hb : (n < Zfloor x + 1)%Z) by (apply lt_IZR; rewrite plus_IZR; lra).
  lia.
Qed.

Lemma Zfloor_IZR (n : Z) : Zfloor (IZR n) = n.
Proof. apply Zfloor_unique. lra. Qed.

Lemma Zfloor_le (x y : R) : x <= y -> (Zfloor x <= Zfloor y)%Z.
Proof.
  intros H. destruct (Zfloor_spec x), (Zfloor_spec y).
  assert (Ha : (Zfloor x < Zfloor y + 1)%Z) by (apply lt_IZR; rewrite plus_IZR; lra).
  lia.
Qed.

Lemma rne_IZR (n : Z) : rne (IZR n) = n.
Proof.
  unfold rne. rewrite Zfloor_IZR.
  destruct (Rlt_dec (IZR n - IZR n) (/ 2)); auto. lra.
Qed.

Lemma rne_range (x : R) : (Zfloor x <= rne x <= Zfloor x + 1)%Z.
Proof.
  unfold rne. destruct (Rlt_dec _ _); [lia|].
  destruct (Rlt_dec _ _); [lia|]. destruct (Z.even _); lia.
Qed.

Lemma rne_le (x y : R) : x <= y -> (rne x <= rne y)%Z.
Proof.
  intros H. pose proof (Zfloor_le x y H) as Hf.
  destruct (Z.eq_dec (Zfloor x) (Zfloor y)) as [Heq|Hne].
  - unfold rne. rewrite Heq.
    destruct (Rlt_dec (x - IZR (Zfloor y)) (/ 2)) as [Hx|Hx].
    + destruct (Rlt_dec (y - IZR (Zfloor y)) (/ 2)); [lia|].
      destruct (Rlt_dec (/ 2) (y - IZR (Zfloor y))); [lia|]. destruct (Z.even _); lia.
    + destruct (Rlt_dec (/ 2) (x - IZR (Zfloor y))) as [Hx'|Hx'].
      * destruct (Rlt_dec (y - IZR (Zfloor y)) (/ 2)); [lra|].
        destruct (Rlt_dec (/ 2) (y - IZR (Zfloor y))); [lia|lra].
      * destruct (Rlt_dec (y - IZR (Zfloor y)) (/ 2)); [lra|].
        destruct (Rlt_dec (/ 2) (y - IZR (Zfloor y))); [destruct (Z.even _); lia|].
        destruct (Z.even _); lia.
  - pose proof (rne_range x). pose proof (rne_range y). lia.
Qed.

(** Rounding what is an integer multiple of the binade's unit changes
    nothing. *)
Lemma RN_exact (n E : Z) : RN (IZR n * bpow E) E = IZR n * bpow E.
Proof.
  unfold RN. rewrite Rmult_assoc, bpow_cancel, Rmult_1_r, rne_IZR. reflexivity.
Qed.

Lemma RN_le_same (v w : R) (E : Z) : v <= w -> RN v E <= RN w E.
Proof.
  intros H. unfold RN. pose proof (bpow_gt_0 E). pose proof (bpow_gt_0 (- E)).
  apply Rmult_le_compat_r; [lra|]. apply IZR_le, rne_le. nra.
Qed.

Lemma binade_RN_bounds (v : R) (E : Z) :
  binade v E -> bpow (E + 52) <= RN v E <= bpow (E + 53).
Proof.
  intros [H1 H2].
  replace (bpow (E + 52)) with (RN (IZR (2 ^ 52) * bpow E) E).
  2: { rewrite RN_exact, <- bpow_IZR by lia. rewrite <- bpow_add. f_equal. lia. }
  replace (bpow (E + 53)) with (RN (IZR (2 ^ 53) * bpow E) E).
  2: { rewrite RN_exact, <- bpow_IZR by lia. rewrite <- bpow_add. f_equal. lia. }
  rewrite <- !bpow_IZR, <- !bpow_add by lia.
  replace (52 + E)%Z with (E + 52)%Z by lia. replace (53 + E)%Z with (E + 53)%Z by lia.
  split; apply RN_le_same; lra.
Qed.

(** Rounding is monotone, also across binades. *)
Lemma RN_le (v w : R) (E F : Z) :
  binade v E -> binade w F -> v <= w -> RN v E <= RN w F.
Proof.
  intros Hv Hw Hle.
  destruct (Z.compare_spec E F) as [Heq|Hlt|Hgt].
  - subst. now apply RN_le_same.
  - pose proof (binade_RN_bounds v E Hv). pose proof (binade_RN_bounds w F Hw).
    assert (bpow (E + 53) <= bpow (F + 52)) by (apply bpow_le; lia). lra.
  - destruct Hv as [Hv1 Hv2], Hw as [Hw1 Hw2].
    assert (bpow (F + 53) <= bpow (E + 52)) by (apply bpow_le; lia). lra.
Qed.

End RoundingReals.

(** *** The rounding step of the format *)

(** Names the powers in sight, so that linear arithmetic sees atoms. *)
Ltac name_powers :=
  repeat match goal with
    | |- context [Z.pow ?a ?b] =>
        let v := fresh "pw" in set (v := Z.pow a b) in *; clearbody v
    | H : context [Z.pow ?a ?b] |- _ =>
        let v := fresh "pw" in set (v := Z.pow a b) in *; clearbody v
    end.

Section ShiftAndRound.
Import B64.

Lemma digits2_pos_bounds (m : positive) :
  2 ^ (Z.pos (digits2_pos m) - 1) <= Z.pos m < 2 ^ Z.pos (digits2_pos m).
Proof.
  induction m as [m IH|m IH|]; cbn [digits2_pos].
  - rewrite Pos2Z.inj_succ, (Pos2Z.inj_xI m).
    replace (Z.succ (Z.pos (digits2_pos m)) - 1) with (Z.succ (Z.pos (digits2_pos m) - 1)) by lia.
    rewrite !Z.pow_succ_r by lia. name_powers. lia.
  - rewrite Pos2Z.inj_succ, (Pos2Z.inj_xO m).
    replace (Z.succ (Z.pos (digits2_pos m)) - 1) with (Z.succ (Z.pos (digits2_pos m) - 1)) by lia.
    rewrite !Z.pow_succ_r by lia. name_powers. lia.
  - simpl. lia.
Qed.

Lemma digits2_pos_unique (m : positive) (k : Z) :
  2 ^ (k - 1) <= Z.pos m < 2 ^ k -> Z.pos (digits2_pos m) = k.
Proof.
  intros [H1 H2]. pose proof (digits2_pos_bounds m) as [H3 H4].
  assert (0 < k).
  { destruct (Z_lt_le_dec 0 k); auto.
    assert (2 ^ k <= 2 ^ 0) by (destruct (Z_lt_le_dec k 0);
      [rewrite Z.pow_neg_r by lia; simpl; lia | apply Z.pow_le_mono_r; lia]).
    simpl in *. lia. }
  destruct (Z.compare_spec (Z.pos (digits2_pos m)) k) as [|Hlt|Hgt]; auto.
  - assert (2 ^ Z.pos (digits2_pos m) <= 2 ^ (k - 1)) by (apply Z.pow_le_mono_r; lia).
    name_powers. lia.
  - assert (2 ^ k <= 2 ^ (Z.pos (digits2_pos m) - 1)) by (apply Z.pow_le_mono_r; lia).
    name_powers. lia.
Qed.

Lemma bpow_m1 : bpow (-1) = (/ 2)%R.
Proof. unfold bpow; simpl. now rewrite Rmult_1_r. Qed.

Lemma shr_1_loc (x : R) (mrs : shr_record) :
  0 <= shr_m mrs -> loc_rec x mrs ->
  loc_rec (x / 2) (shr_1 mrs) /\ 0 <= shr_m (shr_1 mrs).
Proof.
  destruct mrs as [m r s]. unfold loc_rec. cbn [shr_m]. intros Hm.
  destruct m as [|p|p]; [| |lia].
  - destruct r, s; cbn; intros H; (split; [|lia]); repeat split; lra.
  - destruct p as [p|p|]; destruct r, s;
      cbn [shr_1 shr_m loc_of_shr_record orb loc_int];
      rewrite ?(Pos2Z.inj_xI p), ?(Pos2Z.inj_xO p), ?plus_IZR, ?mult_IZR;
      intros H; (split; [|lia]); repeat split; lra.
Qed.

Lemma iter_shr_1_loc (p : positive) (x : R) (mrs : shr_record) :
  0 <= shr_m mrs -> loc_rec x mrs ->
  loc_rec (x * bpow (- Z.pos p)) (SpecFloat.iter_pos shr_1 p mrs) /\
  0 <= shr_m (SpecFloat.iter_pos shr_1 p mrs).
Proof.
  revert x mrs. induction p as [p IH|p IH|]; intros x mrs Hm Hx; cbn [SpecFloat.iter_pos].
  - destruct (shr_1_loc x mrs Hm Hx) as [H1 H1'].
    destruct (IH _ _ H1' H1) as [H2 H2'].
    destruct (IH _ _ H2' H2) as [H3 H3'].
    split; auto.
    replace (x * bpow (- Z.pos p~1))%R
      with (x / 2 * bpow (- Z.pos p) * bpow (- Z.pos p))%R; auto.
    replace (- Z.pos p~1) with (Z.neg 1 + (- Z.pos p + - Z.pos p)) by lia.
    rewrite !bpow_add, bpow_m1. unfold Rdiv. ring.
  - destruct (IH _ _ Hm Hx) as [H2 H2'].
    destruct (IH _ _ H2' H2) as [H3 H3'].
    split; auto.
    replace (x * bpow (- Z.pos p~0))%R
      with (x * bpow (- Z.pos p) * bpow (- Z.pos p))%R; auto.
    replace (- Z.pos p~0) with (- Z.pos p + - Z.pos p) by lia.
    rewrite !bpow_add. ring.
  - destruct (shr_1_loc x mrs Hm Hx) as [H1 H1'].
    split; auto.
    cbn [Z.opp]. now rewrite bpow_m1.
Qed.

Lemma loc_of_shr_record_of_loc (m : Z) (l : location) :
  loc_of_shr_record (shr_record_of_loc m l) = l /\
  shr_m (shr_record_of_loc m l) = m.
Proof. destruct l as [|[]]; auto. Qed.

(** Shifting a located mantissa right keeps the location of the scaled
    real. *)
Lemma shr_loc (x : R) (m e n : Z) (l : location) (mrs' : shr_record) (e' : Z) :
  0 <= m -> 0 <= n -> loc_int x m l ->
  shr (shr_record_of_loc m l) e n = (mrs', e') ->
  e' = e + n /\ loc_rec (x * bpow (- n)) mrs' /\ 0 <= shr_m mrs'.
Proof.
  intros Hm Hn Hx.
  assert (H0 : loc_rec x (shr_record_of_loc m l)).
  { unfold loc_rec. destruct (loc_of_shr_record_of_loc m l) as [-> ->]. exact Hx. }
  assert (Hm0 : 0 <= shr_m (shr_record_of_loc m l)).
  { now destruct (loc_of_shr_record_of_loc m l) as [_ ->]. }
  destruct n as [|p|p]; [| |lia]; cbn [shr]; intros [= <- <-].
  - split; [lia|]. split; auto.
    change (bpow (- 0)) with 1%R. now rewrite Rmult_1_r.
  - split; [reflexivity|]. now apply iter_shr_1_loc.
Qed.

Lemma round_nearest_even_rne (x : R) (m : Z) (l : location) :
  loc_int x m l -> round_nearest_even m l = rne x.
Proof.
  unfold rne. destruct l as [|c]; cbn [loc_int round_nearest_even].
  - intros ->. rewrite Zfloor_IZR.
    destruct (Rlt_dec _ _); auto. lra.
  - intros [Hx Hc]. rewrite (Zfloor_unique x m) by lra.
    destruct c.
    + subst x. destruct (Rlt_dec _ _); [lra|]. destruct (Rlt_dec _ _); [lra|]. reflexivity.
    + destruct (Rlt_dec _ _); [reflexivity|lra].
    + destruct (Rlt_dec _ _); [lra|]. destruct (Rlt_dec _ _); [reflexivity|lra].
Qed.

Lemma fexp_normal (k : Z) : -1021 <= k -> fexp 53 1024 k = k - 53.
Proof. unfold fexp, emin. lia. Qed.

Lemma loc_int_bounds (x : R) (m : Z) (l : location) :
  loc_int x m l -> (IZR m <= x < IZR m + 1)%R.
Proof. destruct l; cbn; [intros ->; lra | intros [H _]; lra]. Qed.

(** The rounding step of every operation, in the normal range: a located
    mantissa of at least 53 bits yields the 53-bit number that [RN]
    describes. *)
Lemma binary_round_aux_normal (mx ex : Z) (lx : location) (x : R) :
  0 < mx ->
  53 <= Zdigits2 mx ->
  -1021 <= Zdigits2 mx + ex <= 1023 ->
  loc_int x mx lx ->
  binade (x * bpow ex) (Zdigits2 mx + ex - 53) /\
  exists m e,
    binary_round_aux 53 1024 false mx ex lx = S754_finite false m e /\
    2 ^ 52 <= Z.pos m < 2 ^ 53 /\
    (IZR (Z.pos m) * bpow e)%R = RN (x * bpow ex) (Zdigits2 mx + ex - 53).
Proof.
  intros Hmx Hd Hrange Hloc.
  destruct mx as [|p|p]; try lia. cbn [Zdigits2] in *.
  set (d := Z.pos (digits2_pos p)) in *.
  pose proof (digits2_pos_bounds p) as Hp. fold d in Hp.
  pose proof (loc_int_bounds _ _ _ Hloc) as Hx.
  assert (Hxd : (bpow (d - 1) <= x < bpow d)%R).
  { rewrite !bpow_IZR by lia. destruct Hp as [Hp1 Hp2].
    apply IZR_le in Hp1. apply Z.le_succ_l in Hp2. apply IZR_le in Hp2.
    rewrite succ_IZR in Hp2. lra. }
  set (E := d + ex - 53).
  assert (Hbin : binade (x * bpow ex) E).
  { unfold binade. replace (E + 52) with (d - 1 + ex) by (unfold E; lia).
    replace (E + 53) with (d + ex) by (unfold E; lia).
    rewrite !bpow_add. pose proof (bpow_gt_0 ex). split.
    - apply Rmult_le_compat_r; lra.
    - apply Rmult_lt_compat_r; lra. }
  split; [exact Hbin|].
  unfold binary_round_aux, shr_fexp. cbn [Zdigits2]. fold d.
  rewrite fexp_normal by lia.
  destruct (shr (shr_record_of_loc (Z.pos p) lx) ex (d + ex - 53 - ex))
    as [mrs' e'] eqn:Hshr.
  destruct (shr_loc x (Z.pos p) ex (d + ex - 53 - ex) lx mrs' e') as (He' & Hloc' & Hm');
    try lia; auto.
  replace (ex + (d + ex - 53 - ex)) with E in He' by (unfold E; lia). subst e'.
  set (y := (x * bpow (- (d + ex - 53 - ex)))%R) in *.
  assert (Hy : (IZR (2 ^ 52) <= y < IZR (2 ^ 53))%R).
  { rewrite <- !bpow_IZR by lia. unfold y.
    set (n := d + ex - 53 - ex).
    replace (bpow 52) with (bpow (d - 1) * bpow (- n))%R
      by (rewrite <- bpow_add; f_equal; unfold n; lia).
    replace (bpow 53) with (bpow d * bpow (- n))%R
      by (rewrite <- bpow_add; f_equal; unfold n; lia).
    pose proof (bpow_gt_0 (- n)). split.
    - apply Rmult_le_compat_r; lra.
    - apply Rmult_lt_compat_r; lra. }
  rewrite (round_nearest_even_rne y _ _ Hloc').
  assert (Hrne : 2 ^ 52 <= rne y <= 2 ^ 53).
  { split.
    - rewrite <- (rne_IZR (2 ^ 52)). apply rne_le, Hy.
    - rewrite <- (rne_IZR (2 ^ 53)). apply rne_le, Rlt_le, Hy. }
  assert (HRN : RN (x * bpow ex) E = (IZR (rne y) * bpow E)%R).
  { unfold RN, y. rewrite Rmult_assoc, <- bpow_add.
    replace (ex + - E) with (- (d + ex - 53 - ex)) by (unfold E; lia).
    reflexivity. }
  rewrite HRN.
  destruct (rne y) as [|n1|n1] eqn:Hn1; try lia.
  destruct (Z.eq_dec (Z.pos n1) (2 ^ 53)) as [Heq|Hne].
  - injection Heq as ->. cbn [Zdigits2 digits2_pos Pos.succ].
    rewrite fexp_normal by (unfold E; lia).
    replace (54 + E - 53 - E) with 1 by lia.
    cbn -[Z.leb bpow Z.pow].
    destruct (Z.leb_spec (E + 1) 971) as [_|Hov]; [|unfold E in Hov; lia].
    eexists _, _. split; [reflexivity|].
    split; [change (2 ^ 52) with 4503599627370496;
            change (2 ^ 53) with 9007199254740992; lia|].
    rewrite bpow_add, (bpow_IZR 1) by lia.
    change (IZR (2 ^ 1)) with 2%R. lra.
  - assert (Hdig : Zdigits2 (Z.pos n1) = 53).
    { cbn [Zdigits2]. apply digits2_pos_unique. lia. }
    rewrite Hdig, fexp_normal by (unfold E; lia).
    replace (53 + E - 53 - E) with 0 by lia.
    cbn -[Z.leb bpow Z.pow].
    destruct (Z.leb_spec E 971) as [_|Hov]; [|unfold E in Hov; lia].
    eexists _, _. split; [reflexivity|]. split; [lia|reflexivity].
Qed.

End ShiftAndRound.

(** *** Conversion, multiplication and division *)

Section Operations.
Import B64.

Lemma normal_inv (x : spec_float) :
  normal x -> exists m e, x = S754_finite false m e /\ 2 ^ 52 <= Z.pos m < 2 ^ 53.
Proof. destruct x as [| | |[] m e]; cbn; try tauto. eauto. Qed.

Lemma normal_binade (m : positive) (e : Z) :
  2 ^ 52 <= Z.pos m < 2 ^ 53 -> binade (IZR (Z.pos m) * bpow e) e.
Proof.
  intros [H1 H2]. unfold binade.
  rewrite (Z.add_comm e 52), (Z.add_comm e 53), !bpow_add.
  rewrite (bpow_IZR 52), (bpow_IZR 53) by lia.
  apply IZR_le in H1. apply IZR_lt in H2. pose proof (bpow_gt_0 e). split.
  - apply Rmult_le_compat_r; [lra|exact H1].
  - apply Rmult_lt_compat_r; [lra|exact H2].
Qed.

(** The exponent of a normal number from bounds on its value. *)
Lemma binade_exponent (v : R) (E lo hi : Z) :
  binade v E -> (bpow lo <= v < bpow hi)%R -> lo - 53 < E < hi - 52.
Proof.
  intros [H1 H2] [H3 H4]. split.
  - assert (H : (bpow lo < bpow (E + 53))%R) by lra. apply bpow_lt_inv in H. lia.
  - assert (H : (bpow (E + 52) < bpow hi)%R) by lra. apply bpow_lt_inv in H. lia.
Qed.

Lemma binade_unique (v : R) (E F : Z) : binade v E -> binade v F -> E = F.
Proof.
  intros [H1 H2] [H3 H4].
  assert (Ha : (bpow (E + 52) < bpow (F + 53))%R) by lra.
  assert (Hb : (bpow (F + 52) < bpow (E + 53))%R) by lra.
  apply bpow_lt_inv in Ha, Hb. lia.
Qed.

(** The rounding step again, with the result as a normal number. *)
Lemma binary_round_aux_normal' (mx ex : Z) (lx : location) (x : R) :
  0 < mx -> 53 <= Zdigits2 mx -> -1021 <= Zdigits2 mx + ex <= 1023 ->
  loc_int x mx lx ->
  normal (binary_round_aux 53 1024 false mx ex lx) /\
  exists E, binade (x * bpow ex) E /\
            B2R (binary_round_aux 53 1024 false mx ex lx) = RN (x * bpow ex) E.
Proof.
  intros H1 H2 H3 H4.
  destruct (binary_round_aux_normal mx ex lx x H1 H2 H3 H4) as (Hb & m & e & -> & Hm & Hv).
  split; [exact Hm|]. exists (Zdigits2 mx + ex - 53). split; [exact Hb|exact Hv].
Qed.

Lemma iter_xO (p k : positive) : Z.pos (Pos.iter xO p k) = Z.pos p * 2 ^ Z.pos k.
Proof.
  change (Pos.iter xO p k) with (shift_pos k p).
  rewrite shift_pos_correct. rewrite Zpower_pos_nat, Zpower_nat_Z, positive_nat_Z. lia.
Qed.

(** Integers below [2^53] are numbers. *)
Lemma of_Z_normal (z : Z) :
  0 < z < 2 ^ 53 ->
  normal (Number.of_Z z) /\ B2R (Number.of_Z z) = IZR z.
Proof.
  change (Number.of_Z z) with (binary_normalize 53 1024 z 0 false).
  intros [Hz1 Hz2]. destruct z as [|p|p]; try lia.
  cbn [binary_normalize]. unfold binary_round.
  pose proof (digits2_pos_bounds p) as Hp.
  set (d := Z.pos (digits2_pos p)) in *.
  assert (Hd : 1 <= d <= 53).
  { split; [unfold d; lia|].
    destruct (Z_lt_le_dec 53 d) as [Hlt|]; [|lia].
    assert (2 ^ 53 <= 2 ^ (d - 1)) by (apply Z.pow_le_mono_r; lia).
    name_powers. lia. }
  rewrite Z.add_0_r, fexp_normal by lia. unfold shl_align.
  destruct (d - 53 - 0) as [|k|k] eqn:Hk; try lia.
  - assert (d = 53) by lia.
    destruct (binary_round_aux_normal' (Z.pos p) 0 loc_Exact (IZR (Z.pos p)))
      as (Hn & E & Hb & Hv); cbn [Zdigits2]; fold d; try lia; [reflexivity|].
    split; [exact Hn|]. rewrite Hv.
    change (bpow 0) with 1%R in *. rewrite Rmult_1_r in *.
    assert (HE : E = 0).
    { apply (binade_unique (IZR (Z.pos p)) E 0 Hb).
      rewrite <- (Rmult_1_r (IZR (Z.pos p))). change 1%R with (bpow 0).
      apply normal_binade. replace 52 with (d - 1) by lia. replace 53 with d by lia. exact Hp. }
    subst E. rewrite <- (Rmult_1_r (IZR (Z.pos p))) at 1. change 1%R with (bpow 0) at 1.
    rewrite RN_exact. change (bpow 0) with 1%R. now rewrite Rmult_1_r.
  - assert (Hm : 2 ^ 52 <= Z.pos (Pos.iter xO p k) < 2 ^ 53).
    { assert (H52 : 2 ^ 52 = 2 ^ (d - 1) * 2 ^ (53 - d))
        by (rewrite <- Z.pow_add_r by lia; f_equal; lia).
      assert (H53 : 2 ^ 53 = 2 ^ d * 2 ^ (53 - d))
        by (rewrite <- Z.pow_add_r by lia; f_equal; lia).
      assert (0 < 2 ^ (53 - d)) by (apply Z.pow_pos_nonneg; lia).
      rewrite iter_xO, H52, H53. replace (Z.pos k) with (53 - d) by lia.
      clear H52 H53 Hz2. name_powers. nia. }
    assert (Hdig : Z.pos (digits2_pos (Pos.iter xO p k)) = 53)
      by (apply digits2_pos_unique; exact Hm).
    destruct (binary_round_aux_normal' (Z.pos (Pos.iter xO p k)) (d - 53) loc_Exact
                (IZR (Z.pos (Pos.iter xO p k))))
      as (Hn & E & Hb & Hv); cbn [Zdigits2]; rewrite ?Hdig; try lia; [reflexivity|].
    split; [exact Hn|]. rewrite Hv.
    assert (HE : E = d - 53).
    { apply (binade_unique _ E (d - 53) Hb). now apply normal_binade. }
    subst E. rewrite RN_exact, iter_xO, mult_IZR, Rmult_assoc.
    rewrite <- bpow_IZR by lia. rewrite <- bpow_add.
    replace (Z.pos k + (d - 53)) with 0 by lia. change (bpow 0) with 1%R. lra.
Qed.

Lemma normal_exponent (m : positive) (e lo hi : Z) :
  2 ^ 52 <= Z.pos m < 2 ^ 53 ->
  (bpow lo <= IZR (Z.pos m) * bpow e < bpow hi)%R ->
  lo - 53 < e < hi - 52.
Proof.
  intros Hm Hv. apply (binade_exponent _ _ _ _ (normal_binade m e Hm) Hv).
Qed.

Lemma digits2_product (mx my : positive) :
  2 ^ 52 <= Z.pos mx < 2 ^ 53 -> 2 ^ 52 <= Z.pos my < 2 ^ 53 ->
  105 <= Z.pos (digits2_pos (mx * my)) <= 106.
Proof.
  intros Hx Hy. pose proof (digits2_pos_bounds (mx * my)) as Hd.
  rewrite Pos2Z.inj_mul in Hd.
  assert (H104 : 2 ^ 104 <= Z.pos mx * Z.pos my).
  { change (2 ^ 104) with (2 ^ 52 * 2 ^ 52). apply Z.mul_le_mono_nonneg; lia. }
  assert (H106 : Z.pos mx * Z.pos my < 2 ^ 106).
  { change (2 ^ 106) with (2 ^ 53 * 2 ^ 53). apply Z.mul_lt_mono_nonneg; lia. }
  set (d := Z.pos (digits2_pos (mx * my))) in *.
  split.
  - destruct (Z_lt_le_dec d 105) as [Hlt|]; [|lia].
    assert (2 ^ d <= 2 ^ 104) by (apply Z.pow_le_mono_r; lia). lia.
  - destruct (Z_lt_le_dec 106 d) as [Hlt|]; [|lia].
    assert (2 ^ 106 <= 2 ^ (d - 1)) by (apply Z.pow_le_mono_r; lia). lia.
Qed.

(** Multiplication in the normal range is the rounded product. *)
Lemma SFmul_normal (x y : spec_float) :
  normal x -> normal y ->
  (bpow (-400) <= B2R x < bpow 400)%R ->
  (bpow (-400) <= B2R y < bpow 400)%R ->
  normal (Number.mul x y) /\
  exists E, binade (B2R x * B2R y) E /\
            B2R (Number.mul x y) = RN (B2R x * B2R y) E.
Proof.
  change (Number.mul x y) with (SFmul 53 1024 x y).
  intros Hx Hy Hvx Hvy.
  destruct (normal_inv x Hx) as (mx & ex & -> & Hmx).
  destruct (normal_inv y Hy) as (my & ey & -> & Hmy).
  cbn [B2R] in *. cbn [SFmul xorb].
  pose proof (normal_exponent mx ex _ _ Hmx Hvx) as Hex.
  pose proof (normal_exponent my ey _ _ Hmy Hvy) as Hey.
  pose proof (digits2_product mx my Hmx Hmy) as Hd.
  destruct (binary_round_aux_normal' (Z.pos (mx * my)) (ex + ey) loc_Exact
              (IZR (Z.pos (mx * my)))) as (Hn & E & Hb & Hv);
    cbn [Zdigits2]; try lia; [reflexivity|].
  assert (Heq : (IZR (Z.pos (mx * my)) * bpow (ex + ey) =
                 IZR (Z.pos mx) * bpow ex * (IZR (Z.pos my) * bpow ey))%R).
  { rewrite Pos2Z.inj_mul, mult_IZR, bpow_add. ring. }
  rewrite Heq in *. split; [exact Hn|]. exists E. split; assumption.
Qed.

Lemma div_eucl_div_mod (a b : Z) : Z.div_eucl a b = (a / b, a mod b).
Proof. unfold Z.div, Z.modulo. now destruct (Z.div_eucl a b). Qed.

Lemma SFdiv_core_normal (mx my : positive) (ex ey : Z) :
  2 ^ 52 <= Z.pos mx < 2 ^ 53 -> 2 ^ 52 <= Z.pos my < 2 ^ 53 ->
  -1021 <= ex - ey ->
  SFdiv_core_binary 53 1024 (Z.pos mx) ex (Z.pos my) ey =
  (Z.pos mx * 2 ^ 53 / Z.pos my, ex - ey - 53,
   new_location (Z.pos my) ((Z.pos mx * 2 ^ 53) mod Z.pos my)).
Proof.
  intros Hmx Hmy He. unfold SFdiv_core_binary. cbn [Zdigits2].
  rewrite (digits2_pos_unique mx 53), (digits2_pos_unique my 53) by assumption.
  rewrite fexp_normal by lia.
  rewrite Z.min_l by lia.
  replace (ex - ey - (53 + ex - (53 + ey) - 53)) with 53 by lia.
  cbv zeta. rewrite Z.shiftl_mul_pow2 by lia.
  rewrite div_eucl_div_mod.
  replace (53 + ex - (53 + ey) - 53) with (ex - ey - 53) by lia. reflexivity.
Qed.

(** The location that the division computes is that of the exact
    quotient. *)
Lemma new_location_loc (a b : Z) :
  0 < b -> 0 <= a ->
  loc_int (IZR a / IZR b) (a / b) (new_location b (a mod b)).
Proof.
  intros Hb Ha.
  pose proof (Z.div_mod a b ltac:(lia)) as Hdm.
  pose proof (Z.mod_pos_bound a b Hb) as Hr.
  set (q := a / b) in *. set (r := a mod b) in *.
  assert (HbR : (0 < IZR b)%R) by (apply IZR_lt; exact Hb).
  assert (Hx : (IZR a / IZR b = IZR q + IZR r / IZR b)%R).
  { rewrite Hdm, plus_IZR, mult_IZR. field. lra. }
  rewrite Hx.
  assert (Hhalf : forall c, Z.compare (2 * r) b = c ->
            match c with
            | Lt => (IZR r / IZR b < / 2)%R
            | Eq => (IZR r / IZR b = / 2)%R
            | Gt => (/ 2 < IZR r / IZR b)%R
            end).
  { intros c Hc. destruct c.
    - apply Z.compare_eq in Hc. apply (f_equal IZR) in Hc. rewrite mult_IZR in Hc.
      apply Rmult_eq_reg_r with (IZR b); [|lra]. unfold Rdiv.
      rewrite Rmult_assoc, Rinv_l by lra. lra.
    - apply Z.compare_lt_iff in Hc. apply IZR_lt in Hc. rewrite mult_IZR in Hc.
      apply Rmult_lt_reg_r with (IZR b); [lra|]. unfold Rdiv.
      rewrite Rmult_assoc, Rinv_l by lra. lra.
    - apply Z.compare_gt_iff in Hc. apply IZR_lt in Hc. rewrite mult_IZR in Hc.
      apply Rmult_lt_reg_r with (IZR b); [lra|]. unfold Rdiv.
      rewrite Rmult_assoc, Rinv_l by lra. lra. }
  assert (Hfrac : r <> 0 -> (0 < IZR r / IZR b < 1)%R).
  { intros Hr0. assert (H1 : (0 < IZR r)%R) by (apply IZR_lt; lia).
    assert (H2 : (IZR r < IZR b)%R) by (apply IZR_lt; lia).
    split.
    - apply Rdiv_lt_0_compat; lra.
    - apply Rmult_lt_reg_r with (IZR b); [lra|]. unfold Rdiv.
      rewrite Rmult_assoc, Rinv_l by lra. lra. }
  unfold new_location, new_location_even, new_location_odd.
  destruct (Z.even b) eqn:Heven.
  - destruct (Z.eqb_spec r 0) as [Hr0|Hr0]; cbn [loc_int].
    + rewrite Hr0. unfold Rdiv. rewrite Rmult_0_l. lra.
    + specialize (Hfrac Hr0). specialize (Hhalf _ eq_refl).
      split; [lra|]. destruct (2 * r ?= b); lra.
  - destruct (Z.eqb_spec r 0) as [Hr0|Hr0]; cbn [loc_int].
    + rewrite Hr0. unfold Rdiv. rewrite Rmult_0_l. lra.
    + specialize (Hfrac Hr0). split; [lra|].
      assert (Hodd : 2 * r <> b).
      { intros Hb2. rewrite <- Hb2, Z.even_mul in Heven. discriminate. }
      destruct (Z.compare_spec (2 * r + 1) b) as [Hc|Hc|Hc].
      * assert (Hlt : (2 * r ?= b) = Lt) by (apply Z.compare_lt_iff; lia).
        specialize (Hhalf _ Hlt). cbn in Hhalf. lra.
      * assert (Hlt : (2 * r ?= b) = Lt) by (apply Z.compare_lt_iff; lia).
        specialize (Hhalf _ Hlt). cbn in Hhalf. lra.
      * assert (Hgt : (2 * r ?= b) = Gt) by (apply Z.compare_gt_iff; lia).
        specialize (Hhalf _ Hgt). cbn in Hhalf. lra.
Qed.

(** Division in the normal range is the rounded quotient. *)
Lemma SFdiv_normal (x y : spec_float) :
  normal x -> normal y ->
  (bpow (-400) <= B2R x < bpow 400)%R ->
  (bpow (-400) <= B2R y < bpow 400)%R ->
  normal (Number.div x y) /\
  exists E, binade (B2R x / B2R y) E /\
            B2R (Number.div x y) = RN (B2R x / B2R y) E.
Proof.
  change (Number.div x y) with (SFdiv 53 1024 x y).
  intros Hx Hy Hvx Hvy.
  destruct (normal_inv x Hx) as (mx & ex & -> & Hmx).
  destruct (normal_inv y Hy) as (my & ey & -> & Hmy).
  cbn [B2R] in *. cbn [SFdiv xorb].
  pose proof (normal_exponent mx ex _ _ Hmx Hvx) as Hex.
  pose proof (normal_exponent my ey _ _ Hmy Hvy) as Hey.
  rewrite SFdiv_core_normal by (try assumption; lia).
  set (a := Z.pos mx * 2 ^ 53).
  assert (Hq : 2 ^ 52 <= a / Z.pos my < 2 ^ 54).
  { split.
    - apply Z.div_le_lower_bound; [lia|]. unfold a.
      change (2 ^ 53) with 9007199254740992 in *.
      change (2 ^ 52) with 4503599627370496 in *. nia.
    - apply Z.div_lt_upper_bound; [lia|]. unfold a.
      change (2 ^ 54) with 18014398509481984.
      change (2 ^ 53) with 9007199254740992 in *.
      change (2 ^ 52) with 4503599627370496 in *. nia. }
  assert (Hdq : 53 <= Zdigits2 (a / Z.pos my) <= 54).
  { destruct (a / Z.pos my) as [|q|q] eqn:Hqe; try lia. cbn [Zdigits2].
    pose proof (digits2_pos_bounds q) as Hd.
    set (d := Z.pos (digits2_pos q)) in *. split.
    - destruct (Z_lt_le_dec d 53) as [Hlt|]; [|lia].
      assert (2 ^ d <= 2 ^ 52) by (apply Z.pow_le_mono_r; lia). lia.
    - destruct (Z_lt_le_dec 54 d) as [Hlt|]; [|lia].
      assert (2 ^ 54 <= 2 ^ (d - 1)) by (apply Z.pow_le_mono_r; lia). lia. }
  destruct (binary_round_aux_normal' (a / Z.pos my) (ex - ey - 53)
              (new_location (Z.pos my) (a mod Z.pos my))
              (IZR a / IZR (Z.pos my))) as (Hn & E & Hb & Hv); try lia.
  { apply new_location_loc; unfold a; lia. }
  assert (Heq : (IZR a / IZR (Z.pos my) * bpow (ex - ey - 53) =
                 IZR (Z.pos mx) * bpow ex / (IZR (Z.pos my) * bpow ey))%R).
  { unfold a. rewrite mult_IZR, <- (bpow_IZR 53) by lia.
    replace (ex - ey - 53) with (ex + (- ey + - 53)) by lia.
    rewrite !bpow_add, (bpow_opp ey).
    replace (bpow (-53)) with (/ bpow 53)%R by (symmetry; apply (bpow_opp 53)).
    pose proof (bpow_gt_0 ey). pose proof (bpow_gt_0 53).
    assert (0 < IZR (Z.pos my))%R by (apply IZR_lt; lia).
    set (A := IZR (Z.pos mx)) in *. set (B := IZR (Z.pos my)) in *.
    set (p53 := bpow 53) in *. set (pey := bpow ey) in *. set (pex := bpow ex) in *.
    clearbody A B p53 pey pex.
    field. repeat split; lra. }
  rewrite Heq in *. split; [exact Hn|]. exists E. split; assumption.
Qed.

End Operations.

(** *** [Math.round] and the percentage *)

Section Percentage.
Import B64.

Lemma Zfloor_div (a b : Z) : 0 <= a -> 0 < b -> Zfloor (IZR a / IZR b) = a / b.
Proof.
  intros Ha Hb. apply Zfloor_unique.
  apply (loc_int_bounds _ _ _ (new_location_loc a b Hb Ha)).
Qed.

Lemma of_Z_0 : Number.of_Z 0 = S754_zero false.
Proof. reflexivity. Qed.

(** [Math.round] of a normal number below [2^52] is the number of the
    integer nearest to it, ties going up. *)
Lemma round_normal (p : spec_float) :
  normal p -> (B2R p < bpow 52)%R ->
  Number.round p = Number.of_Z (Zfloor (B2R p + / 2)).
Proof.
  intros Hn Hv. destruct (normal_inv p Hn) as (m & e & -> & Hm).
  cbn [B2R] in *. cbn [Number.round].
  assert (He : e < 0).
  { pose proof (normal_binade m e Hm) as [Hb _].
    assert (H : (bpow (e + 52) < bpow 52)%R) by lra.
    apply bpow_lt_inv in H. lia. }
  destruct (Z.leb_spec 0 e) as [|_]; [lia|].
  assert (Hk : Zfloor (IZR (Z.pos m) * bpow e + / 2) =
               (2 * Z.pos m + 2 ^ (- e)) / 2 ^ (- e + 1)).
  { assert (Hpos : 0 < 2 ^ (- e)) by (apply Z.pow_pos_nonneg; lia).
    rewrite <- Zfloor_div by (try apply Z.pow_pos_nonneg; lia).
    f_equal. rewrite plus_IZR, mult_IZR, Z.pow_add_r, mult_IZR by lia.
    rewrite <- !bpow_IZR by lia.
    replace e with (- (- e)) at 1 by lia. rewrite (bpow_opp (- e)).
    pose proof (bpow_gt_0 (- e)). change (bpow 1) with (2 * 1)%R.
    set (b := bpow (- e)) in *. set (A := IZR (Z.pos m)). clearbody b A.
    field. lra. }
  rewrite Hk.
  destruct (Z.eqb_spec ((2 * Z.pos m + 2 ^ (- e)) / 2 ^ (- e + 1)) 0) as [->|]; reflexivity.
Qed.

Lemma IZR_bounds_400 (z : Z) :
  0 < z < 2 ^ 53 -> (bpow (-400) <= IZR z < bpow 400)%R.
Proof.
  intros [H1 H2]. split.
  - apply Rle_trans with (bpow 0); [apply bpow_le; lia|].
    change (bpow 0) with (IZR 1). apply IZR_le. lia.
  - apply Rlt_le_trans with (bpow 53); [|apply bpow_le; lia].
    rewrite bpow_IZR by lia. apply IZR_lt. exact H2.
Qed.

(** A real that a 53-bit mantissa represents bounds the roundings of what
    it bounds. *)
Lemma RN_le_representable (v : R) (E n e : Z) :
  binade v E -> 2 ^ 52 <= n < 2 ^ 53 ->
  (v <= IZR n * bpow e)%R -> (RN v E <= IZR n * bpow e)%R.
Proof.
  intros Hv Hn Hle. destruct n as [|m|m]; try lia.
  rewrite <- (RN_exact (Z.pos m) e).
  apply RN_le; auto. now apply normal_binade.
Qed.

Lemma RN_ge_representable (v : R) (E n e : Z) :
  binade v E -> 2 ^ 52 <= n < 2 ^ 53 ->
  (IZR n * bpow e <= v)%R -> (IZR n * bpow e <= RN v E)%R.
Proof.
  intros Hv Hn Hle. destruct n as [|m|m]; try lia.
  rewrite <- (RN_exact (Z.pos m) e).
  apply RN_le; auto. now apply normal_binade.
Qed.

Lemma one_representable : (IZR (2 ^ 52) * bpow (-52) = 1)%R.
Proof.
  rewrite <- bpow_IZR by lia. rewrite <- bpow_add. reflexivity.
Qed.

Lemma hundred_representable : (IZR (100 * 2 ^ 46) * bpow (-46) = 100)%R.
Proof.
  rewrite mult_IZR, <- (bpow_IZR 46) by lia.
  rewrite Rmult_assoc, <- bpow_add. change (bpow (46 + -46)) with 1%R. lra.
Qed.

Lemma of_Z_100 : normal (Number.of_Z 100) /\ B2R (Number.of_Z 100) = 100%R.
Proof. apply (of_Z_normal 100). split; [lia|reflexivity]. Qed.

(** The two roundings behind the percentage of [c] words out of [t]. *)
Lemma percentage_real (c t : Z) :
  1 <= c <= t -> t < 2 ^ 53 ->
  normal (Number.mul (Number.div (Number.of_Z c) (Number.of_Z t)) (Number.of_Z 100)) /\
  exists E E',
    binade (IZR c / IZR t) E /\
    binade (RN (IZR c / IZR t) E * 100) E' /\
    B2R (Number.mul (Number.div (Number.of_Z c) (Number.of_Z t)) (Number.of_Z 100)) =
    RN (RN (IZR c / IZR t) E * 100) E'.
Proof.
  intros Hc Ht.
  destruct (of_Z_normal c ltac:(lia)) as [Hnc Hvc].
  destruct (of_Z_normal t ltac:(lia)) as [Hnt Hvt].
  destruct of_Z_100 as [Hn100 Hv100].
  destruct (SFdiv_normal (Number.of_Z c) (Number.of_Z t) Hnc Hnt) as (Hnq & E & HbE & Hvq).
  { rewrite Hvc. apply IZR_bounds_400. lia. }
  { rewrite Hvt. apply IZR_bounds_400. lia. }
  rewrite Hvc, Hvt in *.
  assert (Hct : (bpow (-53) <= IZR c / IZR t < bpow 1)%R).
  { assert (H1 : (1 <= IZR c)%R) by (apply IZR_le; lia).
    assert (H2 : (IZR c <= IZR t)%R) by (apply IZR_le; lia).
    assert (H3 : (IZR t < bpow 53)%R) by (rewrite bpow_IZR by lia; apply IZR_lt; lia).
    change (bpow 1) with (2 * 1)%R.
    replace (bpow (-53)) with (/ bpow 53)%R by (symmetry; apply (bpow_opp 53)).
    pose proof (bpow_gt_0 53). split.
    - apply Rmult_le_reg_r with (IZR t); [lra|]. unfold Rdiv.
      rewrite Rmult_assoc, Rinv_l by lra.
      apply Rmult_le_reg_l with (bpow 53); [lra|].
      rewrite <- Rmult_assoc, Rinv_r by lra. nra.
    - apply Rmult_lt_reg_r with (IZR t); [lra|]. unfold Rdiv.
      rewrite Rmult_assoc, Rinv_l by lra. lra. }
  pose proof (binade_exponent _ _ _ _ HbE Hct) as HE.
  pose proof (binade_RN_bounds _ _ HbE) as HRN.
  destruct (SFmul_normal _ (Number.of_Z 100) Hnq Hn100) as (Hnp & E' & HbE' & Hvp).
  { rewrite Hvq. split.
    - apply Rle_trans with (bpow (E + 52)); [apply bpow_le; lia|apply HRN].
    - apply Rle_lt_trans with (bpow (E + 53)); [apply HRN|apply bpow_lt; lia]. }
  { rewrite Hv100. change 100%R with (IZR 100). apply IZR_bounds_400.
    split; [lia|reflexivity]. }
  rewrite Hvq, Hv100 in *.
  split; [exact Hnp|]. exists E, E'. auto.
Qed.

Lemma RN_le_1 (v : R) (E : Z) : binade v E -> (v <= 1)%R -> (RN v E <= 1)%R.
Proof.
  intros Hb Hv. rewrite <- one_representable.
  apply RN_le_representable; auto.
  - cbv. split; [discriminate|reflexivity].
  - now rewrite one_representable.
Qed.

Lemma RN_le_100 (v : R) (E : Z) : binade v E -> (v <= 100)%R -> (RN v E <= 100)%R.
Proof.
  intros Hb Hv. rewrite <- hundred_representable.
  apply RN_le_representable; auto.
  - cbv. split; [discriminate|reflexivity].
  - now rewrite hundred_representable.
Qed.

Lemma percentage_le_100 (c t : Z) :
  1 <= c <= t -> t < 2 ^ 53 ->
  (0 < B2R (Number.mul (Number.div (Number.of_Z c) (Number.of_Z t)) (Number.of_Z 100))
     <= 100)%R.
Proof.
  intros Hc Ht.
  destruct (percentage_real c t Hc Ht) as (Hn & E & E' & HbE & HbE' & ->).
  split.
  - pose proof (binade_RN_bounds _ _ HbE') as [H _].
    pose proof (bpow_gt_0 (E' + 52)). lra.
  - apply RN_le_100; auto.
    assert (Hq : (RN (IZR c / IZR t) E <= 1)%R).
    { apply RN_le_1; auto.
      assert (H1 : (1 <= IZR c)%R) by (apply IZR_le; lia).
      assert (H2 : (IZR c <= IZR t)%R) by (apply IZR_le; lia).
      apply Rmult_le_reg_r with (IZR t); [lra|]. unfold Rdiv.
      rewrite Rmult_assoc, Rinv_l by lra. lra. }
    lra.
Qed.

Lemma percentage_mono (c1 c2 t : Z) :
  1 <= c1 <= c2 -> c2 <= t -> t < 2 ^ 53 ->
  (B2R (Number.mul (Number.div (Number.of_Z c1) (Number.of_Z t)) (Number.of_Z 100)) <=
   B2R (Number.mul (Number.div (Number.of_Z c2) (Number.of_Z t)) (Number.of_Z 100)))%R.
Proof.
  intros Hc1 Hc2 Ht.
  destruct (percentage_real c1 t ltac:(lia) Ht) as (_ & E1 & E1' & Hb1 & Hb1' & ->).
  destruct (percentage_real c2 t ltac:(lia) Ht) as (_ & E2 & E2' & Hb2 & Hb2' & ->).
  apply RN_le; auto.
  apply Rmult_le_compat_r; [lra|].
  apply RN_le; auto.
  assert (H1 : (1 <= IZR c1)%R) by (apply IZR_le; lia).
  assert (H2 : (IZR c1 <= IZR c2)%R) by (apply IZR_le; lia).
  assert (H3 : (IZR c2 <= IZR t)%R) by (apply IZR_le; lia).
  unfold Rdiv. apply Rmult_le_compat_r; [|lra].
  apply Rlt_le, Rinv_0_lt_compat. lra.
Qed.

Lemma Zfloor_half_range (x : R) (n : Z) :
  (0 <= x <= IZR n)%R -> 0 <= Zfloor (x + / 2) <= n.
Proof.
  intros [H1 H2]. destruct (Zfloor_spec (x + / 2)) as [H3 H4]. split.
  - assert (H : -1 < Zfloor (x + / 2)) by (apply lt_IZR; lra). lia.
  - assert (H : Zfloor (x + / 2) < n + 1) by (apply lt_IZR; rewrite plus_IZR; lra). lia.
Qed.

Lemma percentage_of_none (y z : spec_float) :
  normal y -> normal z ->
  Number.round (Number.mul (Number.div (Number.of_Z 0) y) z) = Number.of_Z 0.
Proof.
  intros Hy Hz.
  destruct (normal_inv y Hy) as (my & ey & -> & _).
  destruct (normal_inv z Hz) as (mz & ez & -> & _).
  reflexivity.
Qed.

(** The percentage is the number of an integer from 0 to 100, and grows
    with the count of matches. *)
Lemma spec_percentage_values (c1 c2 t : nat) :
  (c1 <= c2)%nat -> (c2 <= Nat.max 1 t)%nat -> Z.of_nat t < 2 ^ 53 ->
  exists k1 k2,
    spec_percentage c1 t = Number.of_Z k1 /\
    spec_percentage c2 t = Number.of_Z k2 /\
    0 <= k1 <= k2 /\ k2 <= 100.
Proof.
  intros H12 H2t Ht. unfold spec_percentage, Number.of_nat.
  set (T := Z.of_nat (Nat.max 1 t)).
  assert (HT : 1 <= T < 2 ^ 53).
  { unfold T. change (2 ^ 53) with 9007199254740992 in *. lia. }
  set (P := fun c : nat =>
              Number.mul (Number.div (Number.of_Z (Z.of_nat c)) (Number.of_Z T))
                         (Number.of_Z 100)).
  assert (Hround : forall c : nat, (1 <= c)%nat -> (c <= Nat.max 1 t)%nat ->
            Number.round (P c) = Number.of_Z (Zfloor (B2R (P c) + / 2)) /\
            0 <= Zfloor (B2R (P c) + / 2) <= 100).
  { intros c Hc1 Hc2. unfold P.
    destruct (percentage_real (Z.of_nat c) T ltac:(unfold T; lia) ltac:(lia)) as (Hn & _).
    pose proof (percentage_le_100 (Z.of_nat c) T ltac:(unfold T; lia) ltac:(lia)) as Hle.
    split.
    - apply round_normal; auto.
      apply Rle_lt_trans with 100%R; [lra|].
      rewrite bpow_IZR by lia. apply IZR_lt. reflexivity.
    - apply Zfloor_half_range. lra. }
  assert (Hzero : Number.round (P 0%nat) = Number.of_Z 0).
  { unfold P. apply percentage_of_none.
    - apply of_Z_normal. lia.
    - apply of_Z_100. }
  fold (P c1). fold (P c2).
  destruct (Nat.eq_dec c2 0) as [Hc2|Hc2].
  - assert (c1 = 0%nat) by lia. subst c1 c2.
    exists 0, 0. rewrite Hzero. repeat split; lia.
  - destruct (Hround c2 ltac:(lia) H2t) as [Hr2 Hk2].
    destruct (Nat.eq_dec c1 0) as [Hc1|Hc1].
    + subst c1. exists 0, (Zfloor (B2R (P c2) + / 2)).
      rewrite Hzero, Hr2. repeat split; lia.
    + destruct (Hround c1 ltac:(lia) ltac:(lia)) as [Hr1 Hk1].
      exists (Zfloor (B2R (P c1) + / 2)), (Zfloor (B2R (P c2) + / 2)).
      rewrite Hr1, Hr2. repeat split; try lia.
      apply Zfloor_le. apply Rplus_le_compat_r.
      apply percentage_mono; unfold T; lia.
Qed.

End Percentage.

(** *** Comparisons and words per minute *)

Section WordsPerMinute.
Import B64.

(** The clamp leaves the numbers of the integers 0 to 100 alone. *)
Lemma clamp_percent (k : Z) :
  0 <= k <= 100 ->
  clamp (Number.of_Z 0) (Number.of_Z 100) (Number.of_Z k) = Number.of_Z k.
Proof.
  intros Hk. rewrite <- (Z2Nat.id k) by lia.
  assert (Hn : (Z.to_nat k <= 100)%nat) by lia.
  revert Hn. generalize (Z.to_nat k). intros n Hn.
  do 101 (destruct n as [|n]; [reflexivity|]). lia.
Qed.

Lemma leb_percent (k1 k2 : Z) :
  0 <= k1 <= k2 -> k2 <= 100 ->
  Number.leb (Number.of_Z k1) (Number.of_Z k2) = true.
Proof.
  intros H1 H2.
  assert (Htable :
    forallb (fun a => forallb (fun b =>
       if a <=? b then Number.leb (Number.of_Z a) (Number.of_Z b) else true)
       (map Z.of_nat (seq 0 101))) (map Z.of_nat (seq 0 101)) = true)
    by (vm_compute; reflexivity).
  rewrite forallb_forall in Htable.
  assert (Hin : forall k, 0 <= k <= 100 -> In k (map Z.of_nat (seq 0 101))).
  { intros k Hk. apply in_map_iff. exists (Z.to_nat k). split; [lia|].
    apply in_seq. lia. }
  specialize (Htable k1 (Hin k1 ltac:(lia))).
  rewrite forallb_forall in Htable.
  specialize (Htable k2 (Hin k2 ltac:(lia))).
  destruct (Z.leb_spec k1 k2); [exact Htable|lia].
Qed.

Lemma SFcompare_refl (m : positive) (e : Z) :
  SFcompare (S754_finite false m e) (S754_finite false m e) = Some Eq.
Proof.
  cbn. rewrite Z.compare_refl. now rewrite Pos.compare_cont_refl.
Qed.

(** [Math.max] of two positive finite numbers is one of them and is not
    below the first. *)
Lemma max_normal (x y : spec_float) :
  normal x -> normal y ->
  (Number.max x y = x \/ Number.max x y = y) /\
  Number.leb x (Number.max x y) = true.
Proof.
  intros Hx Hy.
  destruct (normal_inv x Hx) as (mx & ex & -> & _).
  destruct (normal_inv y Hy) as (my & ey & -> & _).
  unfold Number.max, Number.leb, SFleb.
  destruct (SFcompare (S754_finite false mx ex) (S754_finite false my ey))
    as [[]|] eqn:Hc.
  - rewrite SFcompare_refl. auto.
  - rewrite Hc. auto.
  - rewrite SFcompare_refl. auto.
  - discriminate Hc.
Qed.

Lemma sixtieth :
  Number.div (Number.of_Z 1) (Number.of_Z 60) =
  S754_finite false 4803839602528529 (-58).
Proof. reflexivity. Qed.

Lemma sixtieth_normal : normal (S754_finite false 4803839602528529 (-58)).
Proof. cbv. split; [discriminate|reflexivity]. Qed.

Lemma of_Z_60 : normal (Number.of_Z 60) /\ B2R (Number.of_Z 60) = 60%R.
Proof. apply (of_Z_normal 60). split; [lia|reflexivity]. Qed.

(** Bounds on the value of a normal number from its exponent. *)
Lemma normal_value_bounds (m : positive) (e : Z) :
  2 ^ 52 <= Z.pos m < 2 ^ 53 ->
  (bpow (e + 52) <= B2R (S754_finite false m e) < bpow (e + 53))%R.
Proof. intros Hm. apply (normal_binade m e Hm). Qed.

(** The divisor of [wpm]: a positive finite number, not below a
    sixtieth. *)
Lemma minutes_normal (seconds : nat) :
  Z.of_nat seconds < 2 ^ 53 ->
  normal (Number.max (Number.div (Number.of_Z 1) (Number.of_Z 60))
                     (Number.div (Number.of_nat seconds) (Number.of_Z 60))) /\
  (bpow (-6) <= B2R (Number.max (Number.div (Number.of_Z 1) (Number.of_Z 60))
                     (Number.div (Number.of_nat seconds) (Number.of_Z 60)))
     < bpow 50)%R /\
  Number.leb (Number.div (Number.of_Z 1) (Number.of_Z 60))
    (Number.max (Number.div (Number.of_Z 1) (Number.of_Z 60))
                (Number.div (Number.of_nat seconds) (Number.of_Z 60))) = true.
Proof.
  intros Hs. rewrite sixtieth. unfold Number.of_nat.
  assert (Ha : (bpow (-6) <= B2R (S754_finite false 4803839602528529 (-58)) < bpow 50)%R).
  { destruct (normal_value_bounds 4803839602528529 (-58) sixtieth_normal) as [H1 H2].
    split; [exact H1|].
    apply Rlt_trans with (bpow (-58 + 53)); [exact H2|apply bpow_lt; lia]. }
  destruct (Nat.eq_dec seconds 0) as [->|Hne].
  - change (Number.max _ _) with (S754_finite false 4803839602528529 (-58)).
    split; [exact sixtieth_normal|]. split; [exact Ha|reflexivity].
  - destruct (of_Z_normal (Z.of_nat seconds) ltac:(lia)) as [Hns Hvs].
    destruct of_Z_60 as [Hn60 Hv60].
    destruct (SFdiv_normal _ _ Hns Hn60) as (Hnb & E & HbE & Hvb).
    { rewrite Hvs. apply IZR_bounds_400. lia. }
    { rewrite Hv60. change 60%R with (IZR 60). apply IZR_bounds_400.
      split; [lia|reflexivity]. }
    rewrite Hvs, Hv60 in *.
    assert (Hq : (bpow (-6) <= IZR (Z.of_nat seconds) / 60 < bpow 48)%R).
    { assert (H1 : (1 <= IZR (Z.of_nat seconds))%R) by (apply IZR_le; lia).
      assert (H2 : (IZR (Z.of_nat seconds) < bpow 53)%R)
        by (rewrite bpow_IZR by lia; apply IZR_lt; lia).
      replace (bpow (-6)) with (/ bpow 6)%R by (symmetry; apply (bpow_opp 6)).
      replace (bpow 53) with (bpow 48 * bpow 5)%R in H2 by (now rewrite <- bpow_add).
      rewrite (bpow_IZR 6), (bpow_IZR 5) in * by lia.
      change (IZR (2 ^ 6)) with 64%R. change (IZR (2 ^ 5)) with 32%R in H2.
      pose proof (bpow_gt_0 48). lra. }
    pose proof (binade_exponent _ _ _ _ HbE Hq) as HE.
    pose proof (binade_RN_bounds _ _ HbE) as HRN.
    assert (Hb : (bpow (-6) <= B2R (Number.div (Number.of_Z (Z.of_nat seconds))
                                               (Number.of_Z 60)) < bpow 50)%R).
    { rewrite Hvb. split.
      - replace (bpow (-6)) with (IZR (2 ^ 52) * bpow (-58))%R
          by (rewrite <- bpow_IZR by lia; now rewrite <- bpow_add).
        apply RN_ge_representable; auto.
        + cbv. split; [discriminate|reflexivity].
        + rewrite <- bpow_IZR by lia. rewrite <- bpow_add. apply Hq.
      - apply Rle_lt_trans with (bpow (E + 53)); [apply HRN|apply bpow_lt; lia]. }
    destruct (max_normal _ _ sixtieth_normal Hnb) as [[Hmax|Hmax] Hleb].
    + rewrite Hmax in *. split; [exact sixtieth_normal|]. split; [exact Ha|exact Hleb].
    + rewrite Hmax in *. split; [exact Hnb|]. split; [exact Hb|exact Hleb].
Qed.

(** The fallback [|| 0] never changes the rounded quotient. *)
Lemma round_or_else (wordsTyped : nat) (minutes : spec_float) :
  Z.of_nat wordsTyped < 2 ^ 53 ->
  normal minutes -> (bpow (-6) <= B2R minutes < bpow 50)%R ->
  Number.round (Number.or_else (Number.div (Number.of_nat wordsTyped) minutes)
                               (Number.of_Z 0)) =
  Number.round (Number.div (Number.of_nat wordsTyped) minutes).
Proof.
  intros Hw Hn Hv. unfold Number.of_nat.
  destruct (Nat.eq_dec wordsTyped 0) as [->|Hne].
  - destruct (normal_inv _ Hn) as (m & e & -> & _). reflexivity.
  - destruct (of_Z_normal (Z.of_nat wordsTyped) ltac:(lia)) as [Hnw Hvw].
    destruct (SFdiv_normal _ _ Hnw Hn) as (Hnq & _).
    { rewrite Hvw. apply IZR_bounds_400. lia. }
    { destruct Hv as [H1 H2]. split.
      - apply Rle_trans with (bpow (-6)); [apply bpow_le; lia|exact H1].
      - apply Rlt_trans with (bpow 50); [exact H2|apply bpow_lt; lia]. }
    destruct (normal_inv _ Hnq) as (m & e & -> & _). reflexivity.
Qed.

(** Every positive integer below [2^53], scaled by a power of two, has a
    53-bit mantissa. *)
Lemma representable_scaled (N e : Z) :
  0 < N < 2 ^ 53 ->
  exists n e', 2 ^ 52 <= n < 2 ^ 53 /\ (IZR N * bpow e = IZR n * bpow e')%R.
Proof.
  intros HN. destruct (of_Z_normal N HN) as [Hn Hv].
  destruct (normal_inv _ Hn) as (m & e0 & Heq & Hm). rewrite Heq in Hv. cbn [B2R] in Hv.
  exists (Z.pos m), (e0 + e). split; [exact Hm|].
  now rewrite bpow_add, <- Rmult_assoc, Hv.
Qed.

Lemma RN_le_scaled (v : R) (E N e : Z) :
  binade v E -> 0 < N < 2 ^ 53 ->
  (v <= IZR N * bpow e)%R -> (RN v E <= IZR N * bpow e)%R.
Proof.
  intros Hb HN. destruct (representable_scaled N e HN) as (n & e' & Hn & ->).
  now apply RN_le_representable.
Qed.

Lemma RN_ge_scaled (v : R) (E N e : Z) :
  binade v E -> 0 < N < 2 ^ 53 ->
  (IZR N * bpow e <= v)%R -> (IZR N * bpow e <= RN v E)%R.
Proof.
  intros Hb HN. destruct (representable_scaled N e HN) as (n & e' & Hn & ->).
  now apply RN_ge_representable.
Qed.

Lemma bpow_m2 : bpow (-2) = (/ 4)%R.
Proof. unfold bpow; simpl. f_equal. lra. Qed.

Lemma sixtieth_value :
  (B2R (S754_finite false 4803839602528529 (-58)) =
   4803839602528529 / 288230376151711744)%R.
Proof.
  cbn [B2R]. replace (bpow (-58)) with (/ bpow 58)%R by (symmetry; apply (bpow_opp 58)).
  rewrite (bpow_IZR 58) by lia. reflexivity.
Qed.

(** During the first second the quotient is sixty times the word count. *)
Lemma wpm_first_second (wordsTyped : nat) :
  Z.of_nat wordsTyped < 2 ^ 32 ->
  wpm wordsTyped 0 = Number.of_Z (60 * Z.of_nat wordsTyped).
Proof.
  intros Hw. unfold wpm.
  change (Number.max _ _) with (S754_finite false 4803839602528529 (-58)).
  pose proof sixtieth_value as HA.
  set (a := S754_finite false 4803839602528529 (-58)) in *.
  assert (Hna : normal a) by exact sixtieth_normal.
  assert (Hva : (bpow (-6) <= B2R a < bpow 50)%R).
  { destruct (normal_value_bounds 4803839602528529 (-58) sixtieth_normal) as [H1 H2].
    split; [exact H1|].
    apply Rlt_trans with (bpow (-58 + 53)); [exact H2|apply bpow_lt; lia]. }
  assert (Hw53 : Z.of_nat wordsTyped < 2 ^ 53).
  { apply Z.lt_trans with (2 ^ 32); [exact Hw|reflexivity]. }
  rewrite round_or_else by assumption.
  unfold Number.of_nat.
  destruct (Nat.eq_dec wordsTyped 0) as [->|Hne]; [reflexivity|].
  set (w := Z.of_nat wordsTyped) in *.
  assert (Hw1 : 1 <= w) by (unfold w; lia).
  destruct (of_Z_normal w ltac:(lia)) as [Hnw Hvw].
  destruct (SFdiv_normal _ _ Hnw Hna) as (Hnq & E & HbE & Hvq).
  { rewrite Hvw. apply IZR_bounds_400. lia. }
  { destruct Hva as [H1 H2]. split.
    - apply Rle_trans with (bpow (-6)); [apply bpow_le; lia|exact H1].
    - apply Rlt_trans with (bpow 50); [exact H2|apply bpow_lt; lia]. }
  rewrite Hvw, HA in *.
  assert (HW1 : (1 <= IZR w)%R) by (apply IZR_le; lia).
  assert (HW2 : (IZR w < 4294967296)%R) by (apply IZR_lt; exact Hw).
  assert (Hinv : (IZR w / (4803839602528529 / 288230376151711744) =
                  IZR w * (288230376151711744 / 4803839602528529))%R)
    by (field; lra).
  assert (Hlo : (IZR (60 * w) * bpow 0 <=
                 IZR w / (4803839602528529 / 288230376151711744))%R).
  { rewrite mult_IZR, Hinv. change (bpow 0) with 1%R. lra. }
  assert (Hhi : (IZR w / (4803839602528529 / 288230376151711744) <=
                 IZR (240 * w + 1) * bpow (-2))%R).
  { rewrite plus_IZR, mult_IZR.
    rewrite bpow_m2.
    rewrite Hinv. lra. }
  pose proof (RN_ge_scaled _ E (60 * w) 0 HbE
                ltac:(change (2 ^ 53) with 9007199254740992;
                      change (2 ^ 32) with 4294967296 in Hw; lia) Hlo) as Hge.
  pose proof (RN_le_scaled _ E (240 * w + 1) (-2) HbE
                ltac:(change (2 ^ 53) with 9007199254740992;
                      change (2 ^ 32) with 4294967296 in Hw; lia) Hhi) as Hle.
  rewrite <- Hvq in Hge, Hle.
  rewrite mult_IZR in Hge. change (bpow 0) with 1%R in Hge.
  rewrite plus_IZR, mult_IZR in Hle.
  rewrite bpow_m2 in Hle.
  rewrite round_normal; auto.
  - f_equal. apply Zfloor_unique. rewrite mult_IZR. lra.
  - rewrite (bpow_IZR 52) by lia.
    change (IZR (2 ^ 52)) with 4503599627370496%R. lra.
Qed.

Lemma round_times_60 (wordsTyped : nat) :
  Z.of_nat wordsTyped < 2 ^ 32 ->
  Number.round (Number.mul (Number.of_nat wordsTyped) (Number.of_Z 60)) =
  Number.of_Z (60 * Z.of_nat wordsTyped).
Proof.
  intros Hw. unfold Number.of_nat.
  destruct (Nat.eq_dec wordsTyped 0) as [->|Hne]; [reflexivity|].
  set (w := Z.of_nat wordsTyped) in *.
  assert (Hw1 : 1 <= w) by (unfold w; lia).
  assert (Hw53 : w < 2 ^ 53).
  { apply Z.lt_trans with (2 ^ 32); [exact Hw|reflexivity]. }
  destruct (of_Z_normal w ltac:(lia)) as [Hnw Hvw].
  destruct of_Z_60 as [Hn60 Hv60].
  destruct (SFmul_normal _ _ Hnw Hn60) as (Hnp & E & HbE & Hvp).
  { rewrite Hvw. apply IZR_bounds_400. lia. }
  { rewrite Hv60. change 60%R with (IZR 60). apply IZR_bounds_400.
    split; [lia|reflexivity]. }
  rewrite Hvw, Hv60 in *.
  assert (HW1 : (1 <= IZR w)%R) by (apply IZR_le; lia).
  assert (HW2 : (IZR w < 4294967296)%R) by (apply IZR_lt; exact Hw).
  assert (Hrange : 0 < 60 * w < 2 ^ 53).
  { change (2 ^ 53) with 9007199254740992. change (2 ^ 32) with 4294967296 in Hw. lia. }
  assert (Heq : (IZR w * 60 = IZR (60 * w) * bpow 0)%R).
  { rewrite mult_IZR. change (bpow 0) with 1%R. lra. }
  pose proof (RN_ge_scaled _ E (60 * w) 0 HbE Hrange (Req_le _ _ (eq_sym Heq))) as Hge.
  pose proof (RN_le_scaled _ E (60 * w) 0 HbE Hrange (Req_le _ _ Heq)) as Hle.
  rewrite <- Hvp in Hge, Hle.
  rewrite mult_IZR in Hge, Hle. change (bpow 0) with 1%R in Hge, Hle.
  rewrite round_normal; auto.
  - f_equal. apply Zfloor_unique. rewrite mult_IZR. lra.
  - rewrite (bpow_IZR 52) by lia.
    change (IZR (2 ^ 52)) with 4503599627370496%R. lra.
Qed.

End WordsPerMinute.

(** ** C9, C6 and C8 *)

Lemma calcStats_accuracy (E : Engine) (r a : jsstring) (o : Options) :
  accuracy (calcStats r a o) =
  spec_accuracy
    (positional_matches (splitWords (normalize r o)) (splitWords (normalize a o)))
    (length (splitWords (normalize r o))).
Proof.
  unfold calcStats, spec_accuracy, spec_percentage, clamp; cbn [accuracy].
  now rewrite countLoop_positional, total_or_one.
Qed.

Lemma positional_matches_le_total (refWords attWords : list jsstring) :
  (positional_matches refWords attWords <= Nat.max 1 (length refWords))%nat.
Proof. pose proof (positional_matches_le refWords attWords). lia. Qed.

Lemma array_length_bound (n : nat) : Z.of_nat n < 2 ^ 32 -> Z.of_nat n < 2 ^ 53.
Proof. intros H. apply Z.lt_trans with (2 ^ 32); [exact H|reflexivity]. Qed.

(** C9: the count of matches never exceeds [max(1, totalWords)]; the
    rounded percentage is already the number of an integer from 0 to 100,
    so the clamp returns it unchanged, and that number is the accuracy.
    The word list is a JavaScript array, of length below [2^32]. *)
Theorem accuracy_within_range (E : Engine) (r a : jsstring) (o : Options) :
  Z.of_nat (length (splitWords (normalize r o))) < 2 ^ 32 ->
  (positional_matches (splitWords (normalize r o)) (splitWords (normalize a o))
   <= Nat.max 1 (length (splitWords (normalize r o))))%nat /\
  exists k : Z,
    0 <= k <= 100 /\
    spec_percentage
      (positional_matches (splitWords (normalize r o)) (splitWords (normalize a o)))
      (length (splitWords (normalize r o))) = Number.of_Z k /\
    clamp (Number.of_Z 0) (Number.of_Z 100) (Number.of_Z k) = Number.of_Z k /\
    accuracy (calcStats r a o) = Number.of_Z k.
Proof.
  intros Hlen.
  pose proof (positional_matches_le_total (splitWords (normalize r o))
                (splitWords (normalize a o))) as Hle.
  split; [exact Hle|].
  destruct (spec_percentage_values _ _ _ (Nat.le_refl _) Hle (array_length_bound _ Hlen))
    as (k & k' & Hk & _ & Hrange & Hk100).
  exists k. split; [lia|]. split; [exact Hk|].
  split; [apply clamp_percent; lia|].
  rewrite calcStats_accuracy. unfold spec_accuracy. rewrite Hk.
  apply clamp_percent. lia.
Qed.

Lemma accuracy_within_range_witness :
  Z.of_nat (length (splitWords (@normalize excerpt_engine (str "one two three")
              {| ignoreCase := true; ignorePunc := false |}))) < 2 ^ 32 /\
  exists k : Z,
    0 <= k <= 100 /\
    accuracy (@calcStats excerpt_engine (str "one two three") (str "one two")
                {| ignoreCase := true; ignorePunc := false |}) = Number.of_Z k.
Proof.
  assert (H : Z.of_nat (length (splitWords (@normalize excerpt_engine (str "one two three")
              {| ignoreCase := true; ignorePunc := false |}))) < 2 ^ 32)
    by reflexivity.
  split; [exact H|].
  destruct (accuracy_within_range excerpt_engine (str "one two three") (str "one two")
              {| ignoreCase := true; ignorePunc := false |} H)
    as (_ & k & Hk & _ & _ & Hacc).
  exists k. split; [exact Hk|exact Hacc].
Defined.

(** C6: for a fixed reference and fixed options, an attempt with at least
    as many positional matches has at least the accuracy.  The word list
    is a JavaScript array, of length below [2^32]. *)
Theorem accuracy_monotone (E : Engine) (r a1 a2 : jsstring) (o : Options) :
  Z.of_nat (length (splitWords (normalize r o))) < 2 ^ 32 ->
  (positional_matches (splitWords (normalize r o)) (splitWords (normalize a1 o)) <=
   positional_matches (splitWords (normalize r o)) (splitWords (normalize a2 o)))%nat ->
  Number.leb (accuracy (calcStats r a1 o)) (accuracy (calcStats r a2 o)) = true.
Proof.
  intros Hlen Hle.
  pose proof (positional_matches_le_total (splitWords (normalize r o))
                (splitWords (normalize a2 o))) as Hle2.
  destruct (spec_percentage_values _ _ _ Hle Hle2 (array_length_bound _ Hlen))
    as (k1 & k2 & Hk1 & Hk2 & Hrange & Hk100).
  rewrite !calcStats_accuracy. unfold spec_accuracy. rewrite Hk1, Hk2.
  rewrite !clamp_percent by lia. apply leb_percent; lia.
Qed.

Lemma accuracy_monotone_witness :
  Z.of_nat (length (splitWords (@normalize excerpt_engine (str "one two three")
              {| ignoreCase := true; ignorePunc := false |}))) < 2 ^ 32 /\
  (positional_matches
     (splitWords (@normalize excerpt_engine (str "one two three")
                    {| ignoreCase := true; ignorePunc := false |}))
     (splitWords (@normalize excerpt_engine (str "one")
                    {| ignoreCase := true; ignorePunc := false |})) <=
   positional_matches
     (splitWords (@normalize excerpt_engine (str "one two three")
                    {| ignoreCase := true; ignorePunc := false |}))
     (splitWords (@normalize excerpt_engine (str "one two")
                    {| ignoreCase := true; ignorePunc := false |})))%nat /\
  Number.leb
    (accuracy (@calcStats excerpt_engine (str "one two three") (str "one")
                 {| ignoreCase := true; ignorePunc := false |}))
    (accuracy (@calcStats excerpt_engine (str "one two three") (str "one two")
                 {| ignoreCase := true; ignorePunc := false |})) = true.
Proof.
  assert (H1 : Z.of_nat (length (splitWords (@normalize excerpt_engine (str "one two three")
              {| ignoreCase := true; ignorePunc := false |}))) < 2 ^ 32)
    by reflexivity.
  assert (H2 : (positional_matches
     (splitWords (@normalize excerpt_engine (str "one two three")
                    {| ignoreCase := true; ignorePunc := false |}))
     (splitWords (@normalize excerpt_engine (str "one")
                    {| ignoreCase := true; ignorePunc := false |})) <=
   positional_matches
     (splitWords (@normalize excerpt_engine (str "one two three")
                    {| ignoreCase := true; ignorePunc := false |}))
     (splitWords (@normalize excerpt_engine (str "one two")
                    {| ignoreCase := true; ignorePunc := false |})))%nat)
    by (vm_compute; repeat constructor).
  split; [exact H1|]. split; [exact H2|].
  exact (accuracy_monotone excerpt_engine (str "one two three") (str "one") (str "one two")
           {| ignoreCase := true; ignorePunc := false |} H1 H2).
Defined.

(** C8: the words-per-minute figure is the rounded quotient of the word
    count by [max(1/60, seconds/60)]; that divisor is a positive finite
    number not below the number [1/60]; and while the timer shows zero the
    figure is [round(wordsTyped * 60)], the number of sixty times the
    count.  The word count is the length of a JavaScript array, below
    [2^32]; the seconds are an integer that numbers count exactly, below
    [2^53]. *)
Theorem wpm_spec (wordsTyped seconds : nat) :
  Z.of_nat wordsTyped < 2 ^ 32 ->
  Z.of_nat seconds < 2 ^ 53 ->
  wpm wordsTyped seconds =
  Number.round
    (Number.div (Number.of_nat wordsTyped)
       (Number.max (Number.div (Number.of_Z 1) (Number.of_Z 60))
                   (Number.div (Number.of_nat seconds) (Number.of_Z 60)))) /\
  Number.leb (Number.div (Number.of_Z 1) (Number.of_Z 60))
    (Number.max (Number.div (Number.of_Z 1) (Number.of_Z 60))
                (Number.div (Number.of_nat seconds) (Number.of_Z 60))) = true /\
  (exists m e,
      Number.max (Number.div (Number.of_Z 1) (Number.of_Z 60))
                 (Number.div (Number.of_nat seconds) (Number.of_Z 60)) =
      S754_finite false m e) /\
  wpm wordsTyped 0 =
  Number.round (Number.mul (Number.of_nat wordsTyped) (Number.of_Z 60)) /\
  wpm wordsTyped 0 = Number.of_Z (60 * Z.of_nat wordsTyped).
Proof.
  intros Hw Hs.
  destruct (minutes_normal seconds Hs) as (Hn & Hv & Hleb).
  split; [|split; [exact Hleb|split; [|split]]].
  - unfold wpm. apply round_or_else; auto. now apply array_length_bound.
  - destruct (normal_inv _ Hn) as (m & e & Hm & _). eauto.
  - now rewrite wpm_first_second, round_times_60.
  - now apply wpm_first_second.
Qed.

Lemma wpm_spec_witness :
  Z.of_nat 5 < 2 ^ 32 /\ Z.of_nat 0 < 2 ^ 53 /\
  wpm 5 0 = Number.of_Z 300.
Proof.
  split; [reflexivity|]. split; [reflexivity|].
  exact (proj2 (proj2 (proj2 (proj2 (wpm_spec 5 0 eq_refl eq_refl))))).
Defined.

(** * Further properties of the code *)

(** ** [splitWords] *)

Lemma push_word_app (cur : jsstring) (l : list jsstring) :
  push_word cur l = push_word cur [] ++ l.
Proof. now destruct cur. Qed.

Lemma filter_truthy_push (cur : jsstring) (l : list jsstring) :
  filter truthy_str (cur :: l) = push_word cur (filter truthy_str l).
Proof. now destruct cur. Qed.

(** Dropping the empty pieces of [split] leaves the maximal runs. *)
Lemma splitFrom_words (b : bool) (cur s : jsstring) :
  (b = true -> cur = []) ->
  filter truthy_str (splitFrom b cur s) = words_from cur s.
Proof.
  revert b cur. induction s as [|c rest IH]; intros b cur Hb.
  - cbn [splitFrom words_from]. now rewrite filter_truthy_push.
  - cbn [splitFrom words_from]. destruct (Unicode.isWhiteSpace c).
    + destruct b.
      * rewrite (Hb eq_refl). cbn [push_word]. now apply IH.
      * rewrite filter_truthy_push. f_equal. now apply IH.
    + apply IH. discriminate.
Qed.

Lemma words_from_trimStart (s : jsstring) :
  words_from [] (trimStart s) = words_from [] s.
Proof.
  induction s as [|c rest IH]; cbn [trimStart words_from]; auto.
  destruct (Unicode.isWhiteSpace c) eqn:Hc; auto.
  cbn [words_from]. now rewrite Hc.
Qed.

Lemma words_from_snoc_space (cur s : jsstring) (c : Z) :
  Unicode.isWhiteSpace c = true -> words_from cur (s ++ [c]) = words_from cur s.
Proof.
  intros Hc. revert cur. induction s as [|x s IH]; intros cur; cbn [app words_from].
  - now rewrite Hc.
  - destruct (Unicode.isWhiteSpace x); now rewrite IH.
Qed.

Lemma words_from_trimEnd (cur s : jsstring) :
  words_from cur (rev (trimStart (rev s))) = words_from cur s.
Proof.
  induction s as [|c s IH] using rev_ind; auto.
  rewrite rev_app_distr. cbn [rev app trimStart].
  destruct (Unicode.isWhiteSpace c) eqn:Hc.
  - now rewrite IH, words_from_snoc_space.
  - change (c :: rev s) with ([c] ++ rev s). rewrite rev_app_distr, rev_involutive.
    reflexivity.
Qed.

Lemma splitWords_words_from (s : jsstring) : splitWords s = words_from [] s.
Proof.
  unfold splitWords, split_ws, trim.
  rewrite splitFrom_words by discriminate.
  now rewrite words_from_trimEnd, words_from_trimStart.
Qed.

Lemma words_from_app_space (cur a b : jsstring) (c : Z) :
  Unicode.isWhiteSpace c = true ->
  words_from cur (a ++ c :: b) = words_from cur a ++ words_from [] b.
Proof.
  intros Hc. revert cur. induction a as [|x a IH]; intros cur; cbn [app words_from].
  - rewrite Hc. apply push_word_app.
  - destruct (Unicode.isWhiteSpace x).
    + rewrite IH. rewrite (push_word_app cur (words_from [] a)).
      rewrite (push_word_app cur (_ ++ _)). now rewrite app_assoc.
    + apply IH.
Qed.

Lemma words_from_is_word (cur s : jsstring) :
  forallb notWhiteSpace cur = true ->
  Forall is_word (words_from cur s) /\
  concat (words_from cur s) = cur ++ filter notWhiteSpace s.
Proof.
  revert cur. induction s as [|c rest IH]; intros cur Hcur; cbn [words_from filter].
  - destruct cur as [|x cur]; cbn [push_word concat].
    + split; [constructor|reflexivity].
    + split; [|now rewrite !app_nil_r].
      constructor; [|constructor]. split; [discriminate|exact Hcur].
  - assert (Hn : notWhiteSpace c = negb (Unicode.isWhiteSpace c)) by reflexivity.
    rewrite Hn. destruct (Unicode.isWhiteSpace c) eqn:Hc; cbn [negb].
    + destruct (IH [] eq_refl) as [IH1 IH2].
      destruct cur as [|x cur]; cbn [push_word concat].
      * split; [exact IH1|exact IH2].
      * split; [|now rewrite IH2].
        constructor; [|exact IH1]. split; [discriminate|exact Hcur].
    + destruct (IH (cur ++ [c])) as [IH1 IH2].
      { rewrite forallb_app, Hcur. cbn [forallb andb]. rewrite Hn. reflexivity. }
      split; [exact IH1|]. rewrite IH2, <- app_assoc. reflexivity.
Qed.

Lemma words_from_word (cur w : jsstring) :
  forallb notWhiteSpace w = true -> words_from cur w = push_word (cur ++ w) [].
Proof.
  revert cur. induction w as [|c w IH]; intros cur Hw; cbn [words_from].
  - now rewrite app_nil_r.
  - cbn [forallb] in Hw. apply andb_true_iff in Hw. destruct Hw as [Hc Hw].
    unfold notWhiteSpace in Hc. apply negb_true_iff in Hc. rewrite Hc.
    rewrite IH by exact Hw. now rewrite <- app_assoc.
Qed.

(** X1: the words are not empty, hold no white space, and together are the
    text without its white space, in order. *)
Theorem splitWords_words (s : jsstring) :
  Forall is_word (splitWords s) /\
  concat (splitWords s) = filter notWhiteSpace s.
Proof.
  rewrite splitWords_words_from. apply (words_from_is_word [] s eq_refl).
Qed.

(** X2: a white-space character between two texts separates their
    words. *)
Theorem splitWords_separator (a b : jsstring) (c : Z) :
  Unicode.isWhiteSpace c = true ->
  splitWords (a ++ c :: b) = splitWords a ++ splitWords b.
Proof.
  intros Hc. rewrite !splitWords_words_from. now apply words_from_app_space.
Qed.

Lemma splitWords_separator_witness :
  Unicode.isWhiteSpace 0x0A = true /\
  splitWords (str "one two" ++ 0x0A :: str " three") =
  splitWords (str "one two") ++ splitWords (str " three").
Proof.
  split; [reflexivity|]. exact (splitWords_separator _ _ 0x0A eq_refl).
Defined.

(** X3: trimming before the split and dropping the empty pieces after it
    do the same work: without the trim the words are the same, and white
    space around a text does not change its words. *)
Theorem splitWords_trim_redundant (s : jsstring) :
  filter truthy_str (split_ws s) = splitWords s /\
  splitWords (trim s) = splitWords s /\
  (forall pre post,
      forallb Unicode.isWhiteSpace pre = true ->
      forallb Unicode.isWhiteSpace post = true ->
      splitWords (pre ++ s ++ post) = splitWords s).
Proof.
  split; [|split].
  - rewrite splitWords_words_from. unfold split_ws. apply splitFrom_words. discriminate.
  - rewrite !splitWords_words_from. unfold trim.
    now rewrite words_from_trimEnd, words_from_trimStart.
  - intros pre post Hpre Hpost. rewrite !splitWords_words_from.
    assert (Hp : forall t, words_from [] (pre ++ t) = words_from [] t).
    { intros t. induction pre as [|x pre IH]; auto.
      cbn [forallb] in Hpre. apply andb_true_iff in Hpre. destruct Hpre as [Hx Hpre].
      cbn [app words_from]. rewrite Hx. cbn [push_word]. now apply IH. }
    rewrite Hp. clear Hp Hpre.
    induction post as [|x post IH] using rev_ind; [now rewrite app_nil_r|].
    rewrite forallb_app in Hpost. apply andb_true_iff in Hpost.
    destruct Hpost as [Hpost Hx]. cbn in Hx. rewrite andb_true_r in Hx.
    rewrite app_assoc, words_from_snoc_space by exact Hx. now apply IH.
Qed.

(** X4: a word splits into itself, and words written one after the other,
    each followed by a white-space character, split back into the same
    list. *)
Theorem splitWords_round_trip (l : list jsstring) (c : Z) :
  Forall is_word l -> Unicode.isWhiteSpace c = true ->
  splitWords (concat (map (fun w => w ++ [c]) l)) = l /\
  (forall w, In w l -> splitWords w = [w]).
Proof.
  intros Hl Hc. split.
  - induction Hl as [|w l [Hne Hw] _ IH]; [reflexivity|].
    cbn [map concat]. rewrite <- app_assoc. cbn [app].
    rewrite splitWords_words_from, words_from_app_space by exact Hc.
    rewrite <- !splitWords_words_from. rewrite IH.
    rewrite splitWords_words_from, words_from_word by exact Hw.
    destruct w; [contradiction|reflexivity].
  - intros w Hin. rewrite Forall_forall in Hl. destruct (Hl w Hin) as [Hne Hw].
    rewrite splitWords_words_from, words_from_word by exact Hw.
    destruct w; [contradiction|reflexivity].
Qed.

Lemma splitWords_round_trip_witness :
  Forall is_word [str "one"; str "two"] /\ Unicode.isWhiteSpace 0x20 = true /\
  splitWords (concat (map (fun w => w ++ [0x20]) [str "one"; str "two"])) =
  [str "one"; str "two"].
Proof.
  assert (H : Forall is_word [str "one"; str "two"]).
  { repeat constructor; discriminate. }
  split; [exact H|]. split; [reflexivity|].
  exact (proj1 (splitWords_round_trip [str "one"; str "two"] 0x20 H eq_refl)).
Defined.

(** ** [Highlighter] *)

(** X5: the pending nodes are exactly those at positions the attempt has
    not reached: a node is pending if and only if its position is at or
    beyond the number of normalised attempt words. *)
Theorem Highlighter_pending_suffix (E : Engine) (r a : jsstring) (o : Options)
    (h : bool) (i : nat) (n : Node) :
  nth_error (Highlighter r a o h) i = Some n ->
  (state n = missing <-> (length (splitWords (normalize a o)) <= i)%nat).
Proof.
  intros Hn. rewrite (Highlighter_nth_state E r a o h i n Hn). unfold spec_state.
  destruct (nth_error (splitWords (normalize a o)) i) as [[|c w]|] eqn:Hw.
  - exfalso. now apply (splitWords_nth_nonempty (normalize a o) i).
  - assert (Hlt : (i < length (splitWords (normalize a o)))%nat)
      by (apply nth_error_Some; congruence).
    split; [|lia].
    destruct (word_eqb _ _); discriminate.
  - apply nth_error_None in Hw. tauto.
Qed.

Lemma Highlighter_pending_suffix_witness :
  state {| key := 1; state := missing; text := str "two" |} = missing <->
  (length (splitWords (@normalize excerpt_engine (str "one")
             {| ignoreCase := true; ignorePunc := false |})) <= 1)%nat.
Proof.
  exact (Highlighter_pending_suffix excerpt_engine (str "one two") (str "one")
           {| ignoreCase := true; ignorePunc := false |} false 1
           {| key := 1; state := missing; text := str "two" |} eq_refl).
Defined.

(** X6: hiding the words changes no state; the keys are the positions; and
    each hidden text is a run of no-break spaces as long as the raw word. *)
Theorem Highlighter_hideWords (E : Engine) (r a : jsstring) (o : Options) :
  map state (Highlighter r a o true) = map state (Highlighter r a o false) /\
  (forall h, map key (Highlighter r a o h) = seq 0 (length (splitWords r))) /\
  map text (Highlighter r a o true) =
  map (fun raw => repeat 0xA0 (length raw)) (splitWords r).
Proof.
  split; [|split].
  - now rewrite !Highlighter_states.
  - intros h. unfold Highlighter. rewrite mapi_from_map. cbn [key].
    rewrite (mapi_from_seq (fun i => i)). apply map_id.
  - unfold Highlighter. rewrite mapi_from_map. cbn [text].
    generalize 0%nat. induction (splitWords r) as [|w l IH]; intros k; cbn; auto.
    now rewrite IH.
Qed.

Lemma filter_seq_below (t : nat -> bool) (m L k : nat) :
  filter (fun i => (i <? m)%nat && t i) (seq k L) =
  filter t (seq k (Nat.min L (m - k))).
Proof.
  revert k. induction L as [|L IH]; intros k; [reflexivity|].
  cbn [seq filter]. destruct (Nat.ltb_spec k m) as [Hlt|Hge]; cbn [andb].
  - replace (Nat.min (S L) (m - k)) with (S (Nat.min L (m - S k))) by lia.
    cbn [seq filter]. rewrite IH. reflexivity.
  - rewrite IH. replace (m - S k)%nat with 0%nat by lia.
    replace (m - k)%nat with 0%nat by lia. now rewrite !Nat.min_0_r.
Qed.

Lemma filter_length_seq_le (t : nat -> bool) (a b : nat) :
  (a <= b)%nat ->
  (length (filter t (seq 0 a)) <= length (filter t (seq 0 b)))%nat.
Proof.
  intros Hab. replace b with (a + (b - a))%nat by lia.
  rewrite seq_app, filter_app, length_app. lia.
Qed.

Lemma spec_state_ok (s t : jsstring) (i : nat) :
  match spec_state (splitWords s) (splitWords t) i with ok => true | _ => false end =
  ((i <? Nat.min (length (splitWords s)) (length (splitWords t)))%nat &&
   word_eqb (nth_error (splitWords s) i) (nth_error (splitWords t) i)).
Proof.
  unfold spec_state.
  destruct (nth_error (splitWords t) i) as [[|c w]|] eqn:Ht.
  - exfalso. now apply (splitWords_nth_nonempty t i).
  - assert (Hlt : (i < length (splitWords t))%nat) by (apply nth_error_Some; congruence).
    destruct (nth_error (splitWords s) i) as [v|] eqn:Hs.
    + assert (Hls : (i < length (splitWords s))%nat) by (apply nth_error_Some; congruence).
      destruct (Nat.ltb_spec i (Nat.min (length (splitWords s)) (length (splitWords t))));
        [|lia].
      cbn [andb]. now destruct (word_eqb (Some v) (Some (c :: w))).
    + cbn [word_eqb]. now rewrite andb_false_r.
  - apply nth_error_None in Ht.
    destruct (Nat.ltb_spec i (Nat.min (length (splitWords s)) (length (splitWords t))));
      [lia|reflexivity].
Qed.

Lemma count_state_ok_map (nodes : list Node) :
  count_state ok nodes =
  length (filter (fun st => match st with ok => true | _ => false end) (map state nodes)).
Proof.
  unfold count_state. induction nodes as [|n l IH]; [reflexivity|].
  cbn [map filter]. destruct (state n); cbn [length]; now rewrite ?IH.
Qed.

Lemma filter_map_length {A B} (p : B -> bool) (f : A -> B) (l : list A) :
  length (filter p (map f l)) = length (filter (fun x => p (f x)) l).
Proof.
  induction l as [|x l IH]; [reflexivity|]. cbn [map filter].
  destruct (p (f x)); cbn [length]; now rewrite IH.
Qed.

(** X7: the number of matched nodes never exceeds the count of matches
    behind the accuracy, and equals it when the raw reference has at least
    as many words as the shorter of the two normalised lists. *)
Theorem Highlighter_ok_count (E : Engine) (r a : jsstring) (o : Options) (h : bool) :
  (count_state ok (Highlighter r a o h) <=
   positional_matches (splitWords (normalize r o)) (splitWords (normalize a o)))%nat /\
  ((Nat.min (length (splitWords (normalize r o))) (length (splitWords (normalize a o)))
    <= length (splitWords r))%nat ->
   count_state ok (Highlighter r a o h) =
   positional_matches (splitWords (normalize r o)) (splitWords (normalize a o))).
Proof.
  assert (Hcount : count_state ok (Highlighter r a o h) =
    length (filter (fun i => word_eqb (nth_error (splitWords (normalize r o)) i)
                                      (nth_error (splitWords (normalize a o)) i))
              (seq 0 (Nat.min (length (splitWords r))
                        (Nat.min (length (splitWords (normalize r o)))
                                 (length (splitWords (normalize a o)))))))).
  { rewrite count_state_ok_map, Highlighter_states, filter_map_length.
    rewrite (filter_ext _ _ (spec_state_ok (normalize r o) (normalize a o))).
    rewrite filter_seq_below. now rewrite Nat.sub_0_r. }
  rewrite Hcount. unfold positional_matches. split.
  - apply filter_length_seq_le. lia.
  - intros Hle. now rewrite Nat.min_r by exact Hle.
Qed.

Lemma Highlighter_ok_count_witness :
  (Nat.min (length (splitWords (@normalize excerpt_engine (str "one two three")
                                  {| ignoreCase := true; ignorePunc := false |})))
           (length (splitWords (@normalize excerpt_engine (str "one two")
                                  {| ignoreCase := true; ignorePunc := false |})))
   <= length (splitWords (str "one two three")))%nat /\
  count_state ok (@Highlighter excerpt_engine (str "one two three") (str "one two")
                    {| ignoreCase := true; ignorePunc := false |} false) =
  positional_matches
    (splitWords (@normalize excerpt_engine (str "one two three")
                   {| ignoreCase := true; ignorePunc := false |}))
    (splitWords (@normalize excerpt_engine (str "one two")
                   {| ignoreCase := true; ignorePunc := false |})).
Proof.
  assert (H : (Nat.min (length (splitWords (@normalize excerpt_engine (str "one two three")
                                  {| ignoreCase := true; ignorePunc := false |})))
           (length (splitWords (@normalize excerpt_engine (str "one two")
                                  {| ignoreCase := true; ignorePunc := false |})))
   <= length (splitWords (str "one two three")))%nat)
    by (vm_compute; repeat constructor).
  split; [exact H|].
  exact (proj2 (Highlighter_ok_count excerpt_engine (str "one two three") (str "one two")
                  {| ignoreCase := true; ignorePunc := false |} false) H).
Defined.

(** ** [calcStats] and the attempt beyond the reference *)

Lemma positional_matches_firstn (refWords attWords : list jsstring) :
  positional_matches refWords attWords =
  positional_matches refWords (firstn (length refWords) attWords).
Proof.
  unfold positional_matches. rewrite length_firstn.
  replace (Nat.min (length refWords) (Nat.min (length refWords) (length attWords)))
    with (Nat.min (length refWords) (length attWords)) by lia.
  f_equal. apply filter_ext_in. intros i Hi. apply in_seq in Hi.
  rewrite nth_error_firstn.
  destruct (Nat.ltb_spec i (length refWords)); [reflexivity|lia].
Qed.

(** X8: the accuracy depends on the attempt only through its first
    [totalWords] normalised words; what is typed beyond the length of the
    reference changes [wordsTyped] at most. *)
Theorem calcStats_first_words (E : Engine) (r a1 a2 : jsstring) (o : Options) :
  firstn (length (splitWords (normalize r o))) (splitWords (normalize a1 o)) =
  firstn (length (splitWords (normalize r o))) (splitWords (normalize a2 o)) ->
  accuracy (calcStats r a1 o) = accuracy (calcStats r a2 o) /\
  totalWords (calcStats r a1 o) = totalWords (calcStats r a2 o).
Proof.
  intros Hfirst. split; [|reflexivity].
  rewrite !calcStats_accuracy.
  rewrite (positional_matches_firstn _ (splitWords (normalize a1 o))).
  rewrite (positional_matches_firstn _ (splitWords (normalize a2 o))).
  now rewrite Hfirst.
Qed.

Lemma calcStats_first_words_witness :
  accuracy (@calcStats excerpt_engine (str "one two") (str "one two three")
              {| ignoreCase := true; ignorePunc := false |}) =
  accuracy (@calcStats excerpt_engine (str "one two") (str "one two four five")
              {| ignoreCase := true; ignorePunc := false |}).
Proof.
  exact (proj1 (calcStats_first_words excerpt_engine (str "one two") (str "one two three")
                  (str "one two four five")
                  {| ignoreCase := true; ignorePunc := false |} eq_refl)).
Defined.

(** ** [normalize] and [stripPunctuation] *)

(** X9: no zero-width character and no byte-order mark is left in a
    normalised text, given that lower-casing produces none. *)
Theorem normalize_no_zero_width (E : Engine) (Hsan : lowercase_keeps_sanitized E)
    (s : jsstring) (o : Options) :
  Forall (fun c => isZeroWidth c = false) (normalize s o).
Proof.
  apply sanitize_fixed_iff. unfold normalize.
  pose proof (sanitize_idempotent s) as Hss.
  destruct (ignorePunc o), (ignoreCase o).
  - apply Hsan. now apply stripPunctuation_sanitized.
  - now apply stripPunctuation_sanitized.
  - now apply Hsan.
  - exact Hss.
Qed.

Lemma normalize_no_zero_width_witness :
  lowercase_keeps_sanitized excerpt_engine /\
  Forall (fun c => isZeroWidth c = false)
    (@normalize excerpt_engine [0x41; 0x200B; 0x21; 0xFEFF; 0x42]
       {| ignoreCase := true; ignorePunc := true |}).
Proof.
  split; [exact excerpt_lowercase_keeps_sanitized|].
  exact (normalize_no_zero_width excerpt_engine excerpt_lowercase_keeps_sanitized _ _).
Defined.

Lemma isSurrogate_false (c : Z) :
  isSurrogate c = false ->
  Unicode.isHighSurrogate c = false /\ Unicode.isLowSurrogate c = false.
Proof. unfold isSurrogate. apply orb_false_iff. Qed.

(** X10: on a text without surrogates [stripPunctuation] is the filter
    that drops the code units in P or S, and so works piecewise on a
    concatenation. *)
Theorem stripPunctuation_without_surrogates (E : Engine) (s : jsstring) :
  forallb (fun c => negb (isSurrogate c)) s = true ->
  stripPunctuation s = filter (fun c => negb (isPunctOrSymbol c)) s /\
  (forall t, forallb (fun c => negb (isSurrogate c)) t = true ->
             stripPunctuation (s ++ t) = stripPunctuation s ++ stripPunctuation t).
Proof.
  assert (Hfilter : forall u, forallb (fun c => negb (isSurrogate c)) u = true ->
            stripPunctuation u = filter (fun c => negb (isPunctOrSymbol c)) u).
  { induction u as [|c u IH]; intros Hu; [reflexivity|].
    cbn [forallb] in Hu. apply andb_true_iff in Hu. destruct Hu as [Hc Hu].
    apply negb_true_iff, isSurrogate_false in Hc. destruct Hc as [Hhi _].
    rewrite (stripPunctuation_not_high E c u Hhi). cbn [filter].
    rewrite (IH Hu). now destruct (isPunctOrSymbol c). }
  intros Hs. split; [now apply Hfilter|].
  intros t Ht. rewrite !Hfilter; auto.
  - apply filter_app.
  - rewrite forallb_app, Hs, Ht. reflexivity.
Qed.

Lemma stripPunctuation_without_surrogates_witness :
  forallb (fun c => negb (isSurrogate c)) (str "Hi, there!") = true /\
  @stripPunctuation excerpt_engine (str "Hi, there!") =
  filter (fun c => negb (@isPunctOrSymbol excerpt_engine c)) (str "Hi, there!").
Proof.
  split; [reflexivity|].
  exact (proj1 (stripPunctuation_without_surrogates excerpt_engine (str "Hi, there!") eq_refl)).
Defined.

Lemma stripPunctuation_wellFormed (E : Engine) (s : jsstring) :
  Unicode.isWellFormed s = true -> Unicode.isWellFormed (stripPunctuation s) = true.
Proof.
  induction s as [| c | c lo rest IH1 IH2] using scan_ind; intros Hwf.
  - reflexivity.
  - cbn in *. destruct (isPunctOrSymbol c); [reflexivity|exact Hwf].
  - rewrite stripPunctuation_cons2. cbn [Unicode.isWellFormed] in Hwf.
    destruct (Unicode.isHighSurrogate c) eqn:Hhi.
    + apply andb_true_iff in Hwf. destruct Hwf as [Hlo Hwf]. rewrite Hlo. cbn [andb].
      destruct (isPunctOrSymbol (Unicode.codePoint c lo)); [now apply IH1|].
      cbn [Unicode.isWellFormed]. rewrite Hhi, Hlo. now apply IH1.
    + apply andb_true_iff in Hwf. destruct Hwf as [Hnlo Hwf]. cbn [andb].
      destruct (isPunctOrSymbol c); [now apply IH2|].
      change (Unicode.isWellFormed (c :: stripPunctuation (lo :: rest)))
        with (if Unicode.isHighSurrogate c
              then match stripPunctuation (lo :: rest) with
                   | lo' :: rest' => Unicode.isLowSurrogate lo' && Unicode.isWellFormed rest'
                   | [] => false
                   end
              else negb (Unicode.isLowSurrogate c) &&
                   Unicode.isWellFormed (stripPunctuation (lo :: rest))).
      rewrite Hhi, Hnlo. now apply IH2.
Qed.

(** X11: on a text without unpaired surrogates [stripPunctuation] leaves a
    text without unpaired surrogates, in which a second pass finds nothing
    to strip. *)
Theorem stripPunctuation_complete (E : Engine) (s : jsstring) :
  Unicode.isWellFormed s = true ->
  Unicode.isWellFormed (stripPunctuation s) = true /\
  stripPunctuation (stripPunctuation s) = stripPunctuation s.
Proof.
  intros Hwf. split.
  - now apply stripPunctuation_wellFormed.
  - now apply stripPunctuation_idempotent.
Qed.

Lemma stripPunctuation_complete_witness :
  Unicode.isWellFormed [0x48; 0xD83D; 0xDCA9; 0x21] = true /\
  @stripPunctuation excerpt_engine
     (@stripPunctuation excerpt_engine [0x48; 0xD83D; 0xDCA9; 0x21]) =
  @stripPunctuation excerpt_engine [0x48; 0xD83D; 0xDCA9; 0x21].
Proof.
  split; [reflexivity|].
  exact (proj2 (stripPunctuation_complete excerpt_engine [0x48; 0xD83D; 0xDCA9; 0x21] eq_refl)).
Defined.

(** ** The component *)

Lemma getItem_setItem_same (k : string) (v : jsstring) (st : Storage) :
  getItem k (setItem k v st) = Some v.
Proof.
  induction st as [|[k' v'] st IH]; cbn [setItem getItem].
  - now rewrite String.eqb_refl.
  - destruct (String.eqb k k') eqn:Hk; cbn [getItem]; rewrite ?String.eqb_refl, ?Hk; auto.
Qed.

Lemma getItem_setItem_other (k k' : string) (v : jsstring) (st : Storage) :
  k <> k' -> getItem k (setItem k' v st) = getItem k st.
Proof.
  intros Hne. induction st as [|[k0 v0] st IH]; cbn [setItem getItem].
  - apply String.eqb_neq in Hne. now rewrite Hne.
  - destruct (String.eqb k' k0) eqn:Hk; cbn [getItem].
    + apply String.eqb_eq in Hk. subst k0.
      apply String.eqb_neq in Hne. now rewrite Hne.
    + now rewrite IH.
Qed.

Lemma runEffects_mirrored (old new : App) :
  localStorage new = localStorage old -> mirrored old -> mirrored (runEffects old new).
Proof.
  intros Hst (Hr & Ha & Hl). unfold mirrored, runEffects.
  cbn [localStorage session lang withStorage]. rewrite Hst.
  destruct (str_eqb (reference (session old)) (reference (session new))) eqn:Er;
  destruct (str_eqb (attempt (session old)) (attempt (session new))) eqn:Ea;
  destruct (str_eqb (lang old) (lang new)) eqn:El;
  try (apply str_eqb_eq in Er; rewrite <- Er);
  try (apply str_eqb_eq in Ea; rewrite <- Ea);
  try (apply str_eqb_eq in El; rewrite <- El);
  repeat split;
  repeat first
    [ rewrite getItem_setItem_same
    | rewrite getItem_setItem_other by discriminate ];
  auto.
Qed.

Lemma handle_localStorage (a : App) (e : Event) :
  localStorage (handle a e) = localStorage a.
Proof. now destruct e. Qed.

Lemma mount_mirrored (st : Storage) : mirrored (mount st).
Proof.
  unfold mirrored, mount. cbn [localStorage session lang withStorage].
  repeat split;
  repeat first
    [ rewrite getItem_setItem_same
    | rewrite getItem_setItem_other by discriminate ];
  auto.
Qed.

Lemma or_default_nonempty (x : option jsstring) (d : jsstring) :
  d <> [] -> or_default x d <> [].
Proof. destruct x as [[|c s]|]; cbn; auto; discriminate. Qed.

Lemma step_lang_nonempty (a : App) (e : Event) :
  lang a <> [] -> lang (step a e) <> [].
Proof.
  intros Hlang. unfold step, runEffects. cbn [lang withStorage].
  destruct e; cbn; auto.
  match goal with |- context [if ?b then _ else _] => destruct b end; discriminate.
Qed.

Lemma step_mirrored (a : App) (e : Event) : mirrored a -> mirrored (step a e).
Proof.
  intros Hm. unfold step. apply runEffects_mirrored; [apply handle_localStorage|exact Hm].
Qed.

Lemma reachable_stored (a : App) : reachable a -> lang a <> [] /\ mirrored a.
Proof.
  induction 1 as [st|a e Hreach (Hlang & Hmirror) Hrend].
  - split; [|exact (mount_mirrored st)].
    cbn. apply or_default_nonempty. discriminate.
  - split; [now apply step_lang_nonempty|now apply step_mirrored].
Qed.

(** X12: in every state the component can reach, the reference is hidden
    exactly while the timer runs, the language is not empty, and the
    storage holds the current reference, attempt and language. *)
Theorem reachable_invariant (a : App) :
  reachable a ->
  hidden (session a) = started (session a) /\
  lang a <> [] /\
  getItem "memref" (localStorage a) = Some (reference (session a)) /\
  getItem "memattempt" (localStorage a) = Some (attempt (session a)) /\
  getItem "memlang" (localStorage a) = Some (lang a).
Proof.
  intros Hreach. split; [|exact (reachable_stored a Hreach)].
  induction Hreach as [st|a e Hreach Hflags Hrend]; [reflexivity|].
  unfold step, runEffects. cbn [session withStorage].
  destruct e; cbn; auto.
  unfold tick. destruct (started (session a)) eqn:Hs; cbn; rewrite ?Hs; auto.
Qed.

Lemma reachable_invariant_witness :
  reachable (step (mount []) ClickStart) /\
  getItem "memattempt" (localStorage (step (mount []) ClickStart)) =
  Some (attempt (session (step (mount []) ClickStart))).
Proof.
  assert (H : reachable (step (mount []) ClickStart))
    by (apply reachable_step; [apply reachable_mount|reflexivity]).
  split; [exact H|].
  exact (proj1 (proj2 (proj2 (proj2 (reachable_invariant _ H))))).
Defined.

(** X13: while the reference is hidden no rendered control and no tick
    changes it, except the reset button, which empties it. *)
Theorem hidden_reference_frozen (a : App) (e : Event) :
  hidden (session a) = true -> rendered a e = true ->
  reference (session (step a e)) =
  match e with ClickReset => [] | _ => reference (session a) end.
Proof.
  intros Hh Hr. unfold step, runEffects. cbn [session withStorage].
  destruct e; cbn in *; auto.
  - rewrite Hh in Hr. discriminate.
  - unfold tick. now destruct (started (session a)).
Qed.

Lemma hidden_reference_frozen_witness :
  hidden (session (step (mount []) ClickStart)) = true /\
  rendered (step (mount []) ClickStart) (ChangeAttempt (str "The quick")) = true /\
  reference (session (step (step (mount []) ClickStart) (ChangeAttempt (str "The quick")))) =
  reference (session (step (mount []) ClickStart)).
Proof.
  split; [reflexivity|]. split; [reflexivity|].
  exact (hidden_reference_frozen (step (mount []) ClickStart)
           (ChangeAttempt (str "The quick")) eq_refl eq_refl).
Defined.

Lemma run_practicing (a : App) (es : list Event) :
  started (session a) = true ->
  forallb keeps_practicing es = true ->
  started (session (run a es)) = true /\
  seconds (session (run a es)) = (seconds (session a) + length (filter isTick es))%nat.
Proof.
  revert a. induction es as [|e es IH]; intros a Hs Hes.
  - cbn. split; [exact Hs|lia].
  - cbn [forallb] in Hes. apply andb_true_iff in Hes. destruct Hes as [He Hes].
    assert (Hstep : started (session (step a e)) = true /\
                    seconds (session (step a e)) =
                    (seconds (session a) + if isTick e then 1 else 0)%nat).
    { unfold step, runEffects. cbn [session withStorage].
      destruct e; cbn in *; try discriminate; try (split; [exact Hs|lia]).
      unfold tick. rewrite Hs. cbn. rewrite ?Hs. split; [reflexivity|lia]. }
    destruct Hstep as [Hs' Hsec].
    destruct (IH (step a e) Hs' Hes) as [IH1 IH2].
    change (run a (e :: es)) with (run (step a e) es).
    split; [exact IH1|]. rewrite IH2, Hsec. cbn [filter].
    destruct (isTick e); cbn [length]; lia.
Qed.

(** X14: after the start button, as long as neither it nor the reveal nor
    the reset button is used, the seconds are the number of ticks so far,
    whatever is typed or toggled in between, and the timer keeps running. *)
Theorem seconds_count_ticks (a : App) (es : list Event) :
  forallb keeps_practicing es = true ->
  seconds (session (run (step a ClickStart) es)) = length (filter isTick es) /\
  started (session (run (step a ClickStart) es)) = true /\
  attempt (session (step a ClickStart)) = [].
Proof.
  intros Hes.
  destruct (run_practicing (step a ClickStart) es eq_refl Hes) as [H1 H2].
  split; [|split; [exact H1|reflexivity]].
  rewrite H2. reflexivity.
Qed.

Lemma seconds_count_ticks_witness :
  forallb keeps_practicing [TimerTick; ChangeAttempt (str "The"); TimerTick] = true /\
  seconds (session (run (step (mount []) ClickStart)
                      [TimerTick; ChangeAttempt (str "The"); TimerTick])) = 2%nat.
Proof.
  split; [reflexivity|].
  exact (proj1 (seconds_count_ticks (mount [])
                  [TimerTick; ChangeAttempt (str "The"); TimerTick] eq_refl)).
Defined.

(** X15: mounting again on the storage a reachable state left behind
    restores the attempt and the language, restores the reference unless it
    was empty, in which case the default text comes back, and starts in
    editing with the timer at zero and the default options. *)
Theorem reload_restores (a : App) :
  reachable a ->
  attempt (session (mount (localStorage a))) = attempt (session a) /\
  lang (mount (localStorage a)) = lang a /\
  reference (session (mount (localStorage a))) =
    match reference (session a) with [] => defaultReference | c :: s => c :: s end /\
  hidden (session (mount (localStorage a))) = false /\
  started (session (mount (localStorage a))) = false /\
  seconds (session (mount (localStorage a))) = 0%nat /\
  opts (mount (localStorage a)) = {| ignoreCase := true; ignorePunc := false |}.
Proof.
  intros Hreach.
  destruct (reachable_stored a Hreach) as (Hlang & Hr & Ha & Hl).
  unfold mount, initialState. cbn [session withStorage attempt lang reference hidden
                                     started seconds opts].
  rewrite Hr, Ha, Hl. cbn [or_default].
  split; [now destruct (attempt (session a))|].
  split; [destruct (lang a); [contradiction|reflexivity]|].
  split; [now destruct (reference (session a))|].
  repeat split.
Qed.

Lemma reload_restores_witness :
  reachable (step (mount []) ClickReset) /\
  reference (session (mount (localStorage (step (mount []) ClickReset)))) =
  defaultReference.
Proof.
  assert (H : reachable (step (mount []) ClickReset))
    by (apply reachable_step; [apply reachable_mount|reflexivity]).
  split; [exact H|].
  exact (proj1 (proj2 (proj2 (reload_restores _ H)))).
Defined.

(** X16: the language button leaves the language [en] or [vi]; from
    either of the two, two clicks bring the language back. *)
Theorem language_toggle (a : App) :
  (lang (step a ClickLanguage) = str "en" \/ lang (step a ClickLanguage) = str "vi") /\
  (lang a = str "en" \/ lang a = str "vi" ->
   lang (step (step a ClickLanguage) ClickLanguage) = lang a).
Proof.
  split.
  - unfold step, runEffects. cbn [lang withStorage handle].
    destruct (str_eqb (lang a) (str "en")); auto.
  - unfold step, runEffects. cbn [lang withStorage handle].
    intros [-> | ->]; reflexivity.
Qed.

(** ** Scores at the two ends *)

Section ScoreEnds.
Import B64.

Lemma RN_one (E : Z) : binade 1 E -> RN 1 E = 1%R.
Proof.
  intros Hb. apply Rle_antisym.
  - apply RN_le_1; [exact Hb|lra].
  - rewrite <- one_representable at 1.
    apply RN_ge_representable; auto.
    + cbv. split; [discriminate|reflexivity].
    + rewrite one_representable. lra.
Qed.

Lemma RN_hundred (E : Z) : binade 100 E -> RN 100 E = 100%R.
Proof.
  intros Hb. apply Rle_antisym.
  - apply RN_le_100; [exact Hb|lra].
  - rewrite <- hundred_representable at 1.
    apply RN_ge_representable; auto.
    + cbv. split; [discriminate|reflexivity].
    + rewrite hundred_representable. lra.
Qed.

Lemma spec_percentage_full (t : nat) :
  (0 < t)%nat -> Z.of_nat t < 2 ^ 53 -> spec_percentage t t = Number.of_Z 100.
Proof.
  intros Ht0 Ht. unfold spec_percentage, Number.of_nat.
  replace (Nat.max 1 t) with t by lia.
  destruct (percentage_real (Z.of_nat t) (Z.of_nat t) ltac:(lia) Ht)
    as (Hn & E & E' & HbE & HbE' & Hv).
  assert (Hone : (IZR (Z.of_nat t) / IZR (Z.of_nat t) = 1)%R).
  { assert (1 <= IZR (Z.of_nat t))%R by (apply IZR_le; lia). field. lra. }
  rewrite Hone in *. rewrite (RN_one E HbE), Rmult_1_l in *.
  rewrite (RN_hundred E' HbE') in Hv.
  rewrite round_normal; auto.
  - f_equal. rewrite Hv. apply Zfloor_unique. lra.
  - rewrite Hv, bpow_IZR by lia. apply IZR_lt. reflexivity.
Qed.

Lemma spec_percentage_none (t : nat) :
  Z.of_nat t < 2 ^ 53 -> spec_percentage 0 t = Number.of_Z 0.
Proof.
  intros Ht. unfold spec_percentage, Number.of_nat.
  apply percentage_of_none.
  - apply of_Z_normal. change (2 ^ 53) with 9007199254740992 in *. lia.
  - apply of_Z_100.
Qed.

End ScoreEnds.

Lemma positional_matches_refl (l : list jsstring) :
  positional_matches l l = length l.
Proof.
  unfold positional_matches. rewrite Nat.min_id.
  transitivity (length (seq 0 (length l))); [|apply length_seq]. f_equal.
  apply forallb_filter_id. apply forallb_forall. intros i _.
  apply word_eqb_eq. reflexivity.
Qed.

(** X17: when the attempt begins with all the words of a non-empty
    reference, in particular when it normalises to the same text, the
    accuracy is 100. *)
Theorem calcStats_all_matched (E : Engine) (r a : jsstring) (o : Options) :
  (0 < length (splitWords (normalize r o)))%nat ->
  Z.of_nat (length (splitWords (normalize r o))) < 2 ^ 32 ->
  firstn (length (splitWords (normalize r o))) (splitWords (normalize a o)) =
  splitWords (normalize r o) ->
  accuracy (calcStats r a o) = Number.of_Z 100.
Proof.
  intros Hpos Hlen Hfirst.
  rewrite calcStats_accuracy, positional_matches_firstn, Hfirst, positional_matches_refl.
  unfold spec_accuracy.
  rewrite spec_percentage_full by (auto using array_length_bound).
  now apply clamp_percent.
Qed.

Lemma calcStats_all_matched_witness :
  accuracy (@calcStats excerpt_engine (str "Hello big world") (str "hello  BIG world again")
              {| ignoreCase := true; ignorePunc := false |}) = Number.of_Z 100.
Proof.
  refine (calcStats_all_matched excerpt_engine (str "Hello big world")
            (str "hello  BIG world again")
            {| ignoreCase := true; ignorePunc := false |} _ _ _).
  - vm_compute. repeat constructor.
  - reflexivity.
  - reflexivity.
Defined.

Lemma accuracy_none (E : Engine) (r a : jsstring) (o : Options) :
  Z.of_nat (length (splitWords (normalize r o))) < 2 ^ 32 ->
  positional_matches (splitWords (normalize r o)) (splitWords (normalize a o)) = 0%nat ->
  accuracy (calcStats r a o) = Number.of_Z 0.
Proof.
  intros Hlen Hpm. rewrite calcStats_accuracy, Hpm. unfold spec_accuracy.
  rewrite spec_percentage_none by (auto using array_length_bound).
  now apply clamp_percent.
Qed.

Lemma calcStats_empty_attempt (E : Engine) (r : jsstring) (o : Options) :
  Z.of_nat (length (splitWords (normalize r o))) < 2 ^ 32 ->
  lowercase_ascii E ->
  wordsTyped (calcStats r [] o) = 0%nat /\
  accuracy (calcStats r [] o) = Number.of_Z 0.
Proof.
  intros Hlen Hlow. split.
  - unfold calcStats; cbn [wordsTyped]. now rewrite (normalize_nil E o Hlow).
  - apply accuracy_none; [exact Hlen|]. rewrite (normalize_nil E o Hlow).
    pose proof (positional_matches_le (splitWords (normalize r o)) (splitWords [])) as H.
    change (splitWords []) with (@nil jsstring) in *. cbn [length] in H. lia.
Qed.

(** X18: when no position matches the accuracy is 0; an empty attempt
    counts no word and scores 0. *)
Theorem calcStats_no_match (E : Engine) (r : jsstring) (o : Options) :
  Z.of_nat (length (splitWords (normalize r o))) < 2 ^ 32 ->
  (forall a,
      positional_matches (splitWords (normalize r o)) (splitWords (normalize a o)) = 0%nat ->
      accuracy (calcStats r a o) = Number.of_Z 0) /\
  (lowercase_ascii E ->
   wordsTyped (calcStats r [] o) = 0%nat /\
   accuracy (calcStats r [] o) = Number.of_Z 0).
Proof.
  intros Hlen. split.
  - intros a. now apply accuracy_none.
  - now apply calcStats_empty_attempt.
Qed.

Lemma calcStats_no_match_witness :
  Z.of_nat (length (splitWords (@normalize excerpt_engine (str "one two")
              {| ignoreCase := true; ignorePunc := false |}))) < 2 ^ 32 /\
  accuracy (@calcStats excerpt_engine (str "one two") (str "two one")
              {| ignoreCase := true; ignorePunc := false |}) = Number.of_Z 0.
Proof.
  split; [reflexivity|].
  exact (proj1 (calcStats_no_match excerpt_engine (str "one two")
                  {| ignoreCase := true; ignorePunc := false |} eq_refl)
           (str "two one") eq_refl).
Defined.

(** ** Order of the words-per-minute figure *)

Section WpmOrder.
Import B64.

(** The comparison of two normal numbers decides the order of their
    values. *)
Lemma SFcompare_normal (x y : spec_float) :
  normal x -> normal y ->
  match SFcompare x y with
  | Some Lt => (B2R x < B2R y)%R
  | Some Eq => x = y
  | Some Gt => (B2R y < B2R x)%R
  | None => False
  end.
Proof.
  intros Hx Hy.
  destruct (normal_inv x Hx) as (mx & ex & -> & Hmx).
  destruct (normal_inv y Hy) as (my & ey & -> & Hmy).
  pose proof (normal_value_bounds mx ex Hmx) as Bx.
  pose proof (normal_value_bounds my ey Hmy) as By.
  cbn [SFcompare]. destruct (Z.compare_spec ex ey) as [Heq|Hlt|Hgt].
  - subst ey. change (Pos.compare_cont Eq mx my) with (Pos.compare mx my).
    pose proof (bpow_gt_0 ex) as Hp. cbn [B2R].
    destruct (Pos.compare_spec mx my) as [Hm|Hm|Hm].
    + now subst.
    + apply Rmult_lt_compat_r; [exact Hp|]. apply IZR_lt. lia.
    + apply Rmult_lt_compat_r; [exact Hp|]. apply IZR_lt. lia.
  - apply Rlt_le_trans with (bpow (ex + 53)); [apply Bx|].
    apply Rle_trans with (bpow (ey + 52)); [apply bpow_le; lia|apply By].
  - apply Rlt_le_trans with (bpow (ey + 53)); [apply By|].
    apply Rle_trans with (bpow (ex + 52)); [apply bpow_le; lia|apply Bx].
Qed.

Lemma max_value (x y : spec_float) :
  normal x -> normal y ->
  normal (Number.max x y) /\ B2R (Number.max x y) = Rmax (B2R x) (B2R y).
Proof.
  intros Hx Hy. pose proof (SFcompare_normal x y Hx Hy) as Hc.
  unfold Number.max. destruct (SFcompare x y) as [[| |]|].
  - subst y. destruct (normal_inv x Hx) as (m & e & -> & _).
    split; [exact Hx|]. now rewrite Rmax_left by lra.
  - split; [exact Hy|]. now rewrite Rmax_right by lra.
  - split; [exact Hx|]. now rewrite Rmax_left by lra.
  - contradiction.
Qed.

Lemma leb_of_Z (k1 k2 : Z) :
  0 <= k1 <= k2 -> k2 < 2 ^ 53 ->
  Number.leb (Number.of_Z k1) (Number.of_Z k2) = true.
Proof.
  intros Hk Hk2.
  destruct (Z.eq_dec k2 0) as [->|Hne2].
  { replace k1 with 0 by lia. reflexivity. }
  destruct (of_Z_normal k2 ltac:(lia)) as [Hn2 Hv2].
  destruct (Z.eq_dec k1 0) as [->|Hne1].
  { destruct (normal_inv _ Hn2) as (m & e & -> & _). reflexivity. }
  destruct (of_Z_normal k1 ltac:(lia)) as [Hn1 Hv1].
  pose proof (SFcompare_normal _ _ Hn1 Hn2) as Hc.
  unfold Number.leb, SFleb. destruct (SFcompare _ _) as [[| |]|]; auto.
  rewrite Hv1, Hv2 in Hc. apply lt_IZR in Hc. lia.
Qed.

(** The number of [seconds / 60], for at least one second. *)
Lemma seconds_quotient (s : Z) :
  1 <= s < 2 ^ 53 ->
  normal (Number.div (Number.of_Z s) (Number.of_Z 60)) /\
  exists E, binade (IZR s / 60) E /\
            B2R (Number.div (Number.of_Z s) (Number.of_Z 60)) = RN (IZR s / 60) E.
Proof.
  intros Hs.
  destruct (of_Z_normal s ltac:(lia)) as [Hns Hvs].
  destruct of_Z_60 as [Hn60 Hv60].
  destruct (SFdiv_normal _ _ Hns Hn60) as (Hnb & E & HbE & Hvb).
  { rewrite Hvs. apply IZR_bounds_400. lia. }
  { rewrite Hv60. change 60%R with (IZR 60). apply IZR_bounds_400.
    split; [lia|reflexivity]. }
  rewrite Hvs, Hv60 in *. eauto.
Qed.

(** The divisor of [wpm] as a real: the larger of the numbers [1/60] and
    [seconds/60]. *)
Lemma minutes_value (seconds : nat) :
  Z.of_nat seconds < 2 ^ 53 ->
  (B2R (S754_finite false 4803839602528529 (-58)) <=
   B2R (Number.max (Number.div (Number.of_Z 1) (Number.of_Z 60))
                   (Number.div (Number.of_nat seconds) (Number.of_Z 60))))%R.
Proof.
  intros Hs. rewrite sixtieth. unfold Number.of_nat.
  destruct (Nat.eq_dec seconds 0) as [->|Hne].
  - change (Number.max _ _) with (S754_finite false 4803839602528529 (-58)). lra.
  - destruct (seconds_quotient (Z.of_nat seconds) ltac:(lia)) as (Hnb & _).
    destruct (max_value _ _ sixtieth_normal Hnb) as [_ ->]. apply Rmax_l.
Qed.

Lemma minutes_mono (s1 s2 : nat) :
  (s1 <= s2)%nat -> Z.of_nat s2 < 2 ^ 53 ->
  (B2R (Number.max (Number.div (Number.of_Z 1) (Number.of_Z 60))
                   (Number.div (Number.of_nat s1) (Number.of_Z 60))) <=
   B2R (Number.max (Number.div (Number.of_Z 1) (Number.of_Z 60))
                   (Number.div (Number.of_nat s2) (Number.of_Z 60))))%R.
Proof.
  intros Hle Hs2.
  destruct (Nat.eq_dec s1 0) as [->|Hne].
  - pose proof (minutes_value s2 Hs2) as H.
    rewrite sixtieth.
    change (Number.max _ (Number.div (Number.of_nat 0) (Number.of_Z 60)))
      with (S754_finite false 4803839602528529 (-58)).
    rewrite sixtieth in H. exact H.
  - rewrite sixtieth. unfold Number.of_nat.
    destruct (seconds_quotient (Z.of_nat s1) ltac:(lia)) as (Hn1 & E1 & Hb1 & Hv1).
    destruct (seconds_quotient (Z.of_nat s2) ltac:(lia)) as (Hn2 & E2 & Hb2 & Hv2).
    destruct (max_value _ _ sixtieth_normal Hn1) as [_ ->].
    destruct (max_value _ _ sixtieth_normal Hn2) as [_ ->].
    apply Rle_max_compat_l. rewrite Hv1, Hv2. apply RN_le; auto.
    assert (IZR (Z.of_nat s1) <= IZR (Z.of_nat s2))%R by (apply IZR_le; lia). lra.
Qed.

(** The figure for at least one word: the rounding of the real quotient,
    then the nearest integer. *)
Lemma wpm_real (wordsTyped seconds : nat) (M : spec_float) :
  (0 < wordsTyped)%nat -> Z.of_nat wordsTyped < 2 ^ 32 ->
  normal M -> (bpow (-6) <= B2R M < bpow 50)%R ->
  (B2R (S754_finite false 4803839602528529 (-58)) <= B2R M)%R ->
  exists E,
    binade (IZR (Z.of_nat wordsTyped) / B2R M) E /\
    Number.round (Number.or_else (Number.div (Number.of_nat wordsTyped) M) (Number.of_Z 0)) =
    Number.of_Z (Zfloor (RN (IZR (Z.of_nat wordsTyped) / B2R M) E + / 2)) /\
    (0 < RN (IZR (Z.of_nat wordsTyped) / B2R M) E
       <= IZR (240 * Z.of_nat wordsTyped + 1) * / 4)%R.
Proof.
  intros Hw0 Hw Hn Hv Ha.
  assert (Hw53 : Z.of_nat wordsTyped < 2 ^ 53).
  { apply Z.lt_trans with (2 ^ 32); [exact Hw|reflexivity]. }
  rewrite round_or_else by assumption.
  unfold Number.of_nat. set (w := Z.of_nat wordsTyped) in *.
  assert (Hw1 : 1 <= w) by (unfold w; lia).
  destruct (of_Z_normal w ltac:(lia)) as [Hnw Hvw].
  destruct (SFdiv_normal _ _ Hnw Hn) as (Hnq & E & HbE & Hvq).
  { rewrite Hvw. apply IZR_bounds_400. lia. }
  { destruct Hv as [H1 H2]. split.
    - apply Rle_trans with (bpow (-6)); [apply bpow_le; lia|exact H1].
    - apply Rlt_trans with (bpow 50); [exact H2|apply bpow_lt; lia]. }
  rewrite Hvw in *. rewrite sixtieth_value in Ha.
  assert (HW1 : (1 <= IZR w)%R) by (apply IZR_le; lia).
  assert (HW2 : (IZR w < 4294967296)%R) by (apply IZR_lt; exact Hw).
  assert (HM : (0 < B2R M)%R).
  { apply Rlt_le_trans with (bpow (-6)); [apply bpow_gt_0|apply Hv]. }
  assert (Hhi : (IZR w / B2R M <= IZR (240 * w + 1) * bpow (-2))%R).
  { rewrite plus_IZR, mult_IZR, bpow_m2.
    apply Rle_trans with (IZR w / (4803839602528529 / 288230376151711744))%R.
    - unfold Rdiv. apply Rmult_le_compat_l; [lra|].
      apply Rinv_le_contravar; lra.
    - replace (IZR w / (4803839602528529 / 288230376151711744))%R
        with (IZR w * (288230376151711744 / 4803839602528529))%R by (field; lra).
      lra. }
  pose proof (RN_le_scaled _ E (240 * w + 1) (-2) HbE
                ltac:(change (2 ^ 53) with 9007199254740992;
                      change (2 ^ 32) with 4294967296 in Hw; lia) Hhi) as Hle.
  rewrite bpow_m2 in Hle.
  pose proof (binade_RN_bounds _ _ HbE) as [Hlo _].
  pose proof (bpow_gt_0 (E + 52)) as Hpos.
  exists E. split; [exact HbE|]. split.
  - rewrite round_normal; auto.
    + now rewrite Hvq.
    + rewrite Hvq. rewrite plus_IZR, mult_IZR in Hle.
      rewrite (bpow_IZR 52) by lia.
      change (IZR (2 ^ 52)) with 4503599627370496%R. lra.
  - split; [lra|exact Hle].
Qed.

End WpmOrder.

Section WpmFigures.
Import B64.

Lemma RN_integer (N E : Z) :
  0 < N < 2 ^ 53 -> binade (IZR N) E -> RN (IZR N) E = IZR N.
Proof.
  intros HN Hb.
  assert (Heq : (IZR N = IZR N * bpow 0)%R) by (change (bpow 0) with 1%R; lra).
  apply Rle_antisym.
  - rewrite Heq at 2. apply RN_le_scaled; auto. rewrite <- Heq. lra.
  - rewrite Heq at 1. apply RN_ge_scaled; auto. rewrite <- Heq. lra.
Qed.

Lemma wpm_no_words (seconds : nat) :
  Z.of_nat seconds < 2 ^ 53 -> wpm 0 seconds = Number.of_Z 0.
Proof.
  intros Hs. destruct (minutes_normal seconds Hs) as (Hn & _ & _).
  unfold wpm. destruct (normal_inv _ Hn) as (m & e & -> & _). reflexivity.
Qed.

Lemma wpm_integer (wordsTyped seconds : nat) :
  (0 < wordsTyped)%nat ->
  Z.of_nat wordsTyped < 2 ^ 32 -> Z.of_nat seconds < 2 ^ 53 ->
  exists E,
    wpm wordsTyped seconds =
    Number.of_Z (Zfloor (RN (IZR (Z.of_nat wordsTyped) / B2R
        (Number.max (Number.div (Number.of_Z 1) (Number.of_Z 60))
           (Number.div (Number.of_nat seconds) (Number.of_Z 60)))) E + / 2)) /\
    (0 < RN (IZR (Z.of_nat wordsTyped) / B2R
        (Number.max (Number.div (Number.of_Z 1) (Number.of_Z 60))
           (Number.div (Number.of_nat seconds) (Number.of_Z 60)))) E
       <= 60 * IZR (Z.of_nat wordsTyped) + / 4)%R.
Proof.
  intros Hpos Hw Hs.
  destruct (minutes_normal seconds Hs) as (Hn & Hv & _).
  destruct (wpm_real wordsTyped seconds _ Hpos Hw Hn Hv (minutes_value seconds Hs))
    as (E & _ & Heq & Hgt & Hle).
  exists E. split; [exact Heq|].
  rewrite plus_IZR, mult_IZR in Hle. lra.
Qed.

(** X19: the words-per-minute figure is always the number of an integer
    between 0 and sixty times the word count: never [NaN], infinite or
    negative. *)
Theorem wpm_bounds (wordsTyped seconds : nat) :
  Z.of_nat wordsTyped < 2 ^ 32 -> Z.of_nat seconds < 2 ^ 53 ->
  exists k, wpm wordsTyped seconds = Number.of_Z k /\
            0 <= k <= 60 * Z.of_nat wordsTyped.
Proof.
  intros Hw Hs.
  destruct (Nat.eq_dec wordsTyped 0) as [->|Hne].
  { exists 0. split; [now apply wpm_no_words|lia]. }
  destruct (wpm_integer wordsTyped seconds ltac:(lia) Hw Hs) as (E & Heq & Hgt & Hle).
  eexists. split; [exact Heq|].
  set (x := RN _ E) in *. split.
  - assert (H : -1 < Zfloor (x + / 2)).
    { apply lt_IZR. pose proof (Zfloor_spec (x + / 2)). lra. }
    lia.
  - rewrite <- (Zfloor_IZR (60 * Z.of_nat wordsTyped)).
    etransitivity; [apply Zfloor_le|apply Z.eq_le_incl; apply Zfloor_unique].
    + apply Rplus_le_compat_r. exact Hle.
    + rewrite Zfloor_IZR, mult_IZR. lra.
Qed.

Lemma wpm_bounds_witness :
  exists k, wpm 23 184 = Number.of_Z k /\ 0 <= k <= 60 * Z.of_nat 23.
Proof. exact (wpm_bounds 23 184 eq_refl eq_refl). Defined.

Lemma wpm_order (w1 w2 : nat) (M1 M2 : spec_float) (s1 s2 : nat) :
  (0 < w1 <= w2)%nat -> Z.of_nat w2 < 2 ^ 32 ->
  normal M1 -> (bpow (-6) <= B2R M1 < bpow 50)%R ->
  (B2R (S754_finite false 4803839602528529 (-58)) <= B2R M1)%R ->
  normal M2 -> (bpow (-6) <= B2R M2 < bpow 50)%R ->
  (B2R (S754_finite false 4803839602528529 (-58)) <= B2R M2)%R ->
  (B2R M2 <= B2R M1)%R ->
  Number.leb
    (Number.round (Number.or_else (Number.div (Number.of_nat w1) M1) (Number.of_Z 0)))
    (Number.round (Number.or_else (Number.div (Number.of_nat w2) M2) (Number.of_Z 0))) = true.
Proof.
  intros Hw Hw2 Hn1 Hv1 Ha1 Hn2 Hv2 Ha2 HM.
  destruct (wpm_real w1 s1 M1 ltac:(lia) ltac:(lia) Hn1 Hv1 Ha1)
    as (E1 & Hb1 & -> & Hpos1 & _).
  destruct (wpm_real w2 s2 M2 ltac:(lia) Hw2 Hn2 Hv2 Ha2)
    as (E2 & Hb2 & -> & Hpos2 & Hle2).
  assert (HM1 : (0 < B2R M1)%R).
  { apply Rlt_le_trans with (bpow (-6)); [apply bpow_gt_0|apply Hv1]. }
  assert (HM2 : (0 < B2R M2)%R).
  { apply Rlt_le_trans with (bpow (-6)); [apply bpow_gt_0|apply Hv2]. }
  assert (HW1 : (1 <= IZR (Z.of_nat w1))%R) by (apply IZR_le; lia).
  assert (HW : (IZR (Z.of_nat w1) <= IZR (Z.of_nat w2))%R) by (apply IZR_le; lia).
  assert (HW2 : (IZR (Z.of_nat w2) < 4294967296)%R) by (apply IZR_lt; exact Hw2).
  assert (Hq : (IZR (Z.of_nat w1) / B2R M1 <= IZR (Z.of_nat w2) / B2R M2)%R).
  { unfold Rdiv. apply Rmult_le_compat; try lra.
    - apply Rlt_le. now apply Rinv_0_lt_compat.
    - apply Rinv_le_contravar; lra. }
  pose proof (RN_le _ _ _ _ Hb1 Hb2 Hq) as HRN.
  rewrite plus_IZR, mult_IZR in Hle2.
  apply leb_of_Z.
  - split.
    + assert (H : -1 < Zfloor (RN (IZR (Z.of_nat w1) / B2R M1) E1 + / 2)).
      { apply lt_IZR.
        pose proof (Zfloor_spec (RN (IZR (Z.of_nat w1) / B2R M1) E1 + / 2)). lra. }
      lia.
    + apply Zfloor_le. lra.
  - apply Z.le_lt_trans with (60 * Z.of_nat w2).
    + rewrite <- (Zfloor_IZR (60 * Z.of_nat w2)).
      etransitivity; [apply Zfloor_le|apply Z.eq_le_incl; apply Zfloor_unique].
      * apply Rplus_le_compat_r. exact Hle2.
      * rewrite Zfloor_IZR, mult_IZR. lra.
    + change (2 ^ 53) with 9007199254740992.
      change (2 ^ 32) with 4294967296 in Hw2. lia.
Qed.

(** X20: at a given time, more typed words never lower the
    words-per-minute figure. *)
Theorem wpm_monotone_words (w1 w2 seconds : nat) :
  (w1 <= w2)%nat -> Z.of_nat w2 < 2 ^ 32 -> Z.of_nat seconds < 2 ^ 53 ->
  Number.leb (wpm w1 seconds) (wpm w2 seconds) = true.
Proof.
  intros Hle Hw2 Hs.
  destruct (Nat.eq_dec w1 0) as [->|Hne].
  - rewrite wpm_no_words by exact Hs.
    destruct (Nat.eq_dec w2 0) as [->|Hne2].
    { now rewrite wpm_no_words by exact Hs. }
    destruct (wpm_integer w2 seconds ltac:(lia) Hw2 Hs) as (E & -> & Hgt & Hup).
    set (x := RN _ E) in *.
    assert (HW2 : (IZR (Z.of_nat w2) < 4294967296)%R) by (apply IZR_lt; exact Hw2).
    apply leb_of_Z.
    + split; [lia|].
      assert (H : -1 < Zfloor (x + / 2)).
      { apply lt_IZR. pose proof (Zfloor_spec (x + / 2)). lra. }
      lia.
    + apply lt_IZR. pose proof (Zfloor_spec (x + / 2)).
      change (IZR (2 ^ 53)) with 9007199254740992%R. lra.
  - destruct (minutes_normal seconds Hs) as (Hn & Hv & _).
    pose proof (minutes_value seconds Hs) as Ha.
    unfold wpm. apply (wpm_order w1 w2 _ _ seconds seconds); auto; [lia|lra].
Qed.

Lemma wpm_monotone_words_witness :
  Number.leb (wpm 23 184) (wpm 40 184) = true.
Proof.
  refine (wpm_monotone_words 23 40 184 _ eq_refl eq_refl). lia.
Defined.

(** X21: for a given word count, a longer time never raises the
    words-per-minute figure. *)
Theorem wpm_antitone_seconds (wordsTyped s1 s2 : nat) :
  (s1 <= s2)%nat -> Z.of_nat wordsTyped < 2 ^ 32 -> Z.of_nat s2 < 2 ^ 53 ->
  Number.leb (wpm wordsTyped s2) (wpm wordsTyped s1) = true.
Proof.
  intros Hle Hw Hs2.
  assert (Hs1 : Z.of_nat s1 < 2 ^ 53) by lia.
  destruct (Nat.eq_dec wordsTyped 0) as [->|Hne].
  - rewrite !wpm_no_words by assumption. reflexivity.
  - destruct (minutes_normal s1 Hs1) as (Hn1 & Hv1 & _).
    destruct (minutes_normal s2 Hs2) as (Hn2 & Hv2 & _).
    unfold wpm.
    apply (wpm_order wordsTyped wordsTyped _ _ s2 s1); auto using minutes_value, minutes_mono.
    lia.
Qed.

Lemma wpm_antitone_seconds_witness :
  Number.leb (wpm 23 184) (wpm 23 90) = true.
Proof.
  refine (wpm_antitone_seconds 23 90 184 _ eq_refl eq_refl). lia.
Defined.

(** X22: [k] words a minute kept up for [m] whole minutes read exactly
    [k]. *)
Theorem wpm_whole_minutes (m k : nat) :
  (0 < m)%nat -> Z.of_nat (m * k) < 2 ^ 32 -> Z.of_nat (60 * m) < 2 ^ 53 ->
  wpm (m * k) (60 * m) = Number.of_Z (Z.of_nat k).
Proof.
  intros Hm Hw Hs.
  destruct (Nat.eq_dec k 0) as [->|Hk].
  { rewrite Nat.mul_0_r. now apply wpm_no_words. }
  destruct (minutes_normal (60 * m) Hs) as (Hn & Hv & _).
  pose proof (minutes_value (60 * m) Hs) as Ha.
  assert (HM : B2R (Number.max (Number.div (Number.of_Z 1) (Number.of_Z 60))
                      (Number.div (Number.of_nat (60 * m)) (Number.of_Z 60))) =
               IZR (Z.of_nat m)).
  { rewrite sixtieth. unfold Number.of_nat.
    destruct (seconds_quotient (Z.of_nat (60 * m)) ltac:(lia)) as (Hnb & E & Hb & Hvb).
    destruct (max_value _ _ sixtieth_normal Hnb) as [_ ->].
    assert (Hq : (IZR (Z.of_nat (60 * m)) / 60 = IZR (Z.of_nat m))%R).
    { rewrite Nat2Z.inj_mul, mult_IZR. change (IZR (Z.of_nat 60)) with 60%R. field. }
    rewrite Hvb. rewrite Hq in *. rewrite RN_integer by (auto; lia).
    rewrite sixtieth_value. apply Rmax_right.
    assert (1 <= IZR (Z.of_nat m))%R by (apply IZR_le; lia). lra. }
  assert (Hmk : (0 < m * k)%nat) by nia.
  destruct (wpm_real (m * k) (60 * m) _ Hmk Hw Hn Hv Ha) as (E & Hb & Heq & _).
  unfold wpm. rewrite Heq. f_equal. clear Heq.
  rewrite HM in *.
  assert (Hq : (IZR (Z.of_nat (m * k)) / IZR (Z.of_nat m) = IZR (Z.of_nat k))%R).
  { rewrite Nat2Z.inj_mul, mult_IZR.
    assert (1 <= IZR (Z.of_nat m))%R by (apply IZR_le; lia). field. lra. }
  rewrite Hq in *. rewrite RN_integer; auto.
  - apply Zfloor_unique. lra.
  - split; [lia|]. apply Z.le_lt_trans with (Z.of_nat (m * k)); [nia|].
    apply Z.lt_trans with (2 ^ 32); [exact Hw|reflexivity].
Qed.

Lemma wpm_whole_minutes_witness : wpm (3 * 40) (60 * 3) = Number.of_Z (Z.of_nat 40).
Proof.
  refine (wpm_whole_minutes 3 40 _ eq_refl eq_refl). lia.
Defined.

End WpmFigures.

(** ** The clock *)

Example formatTime_90 : @formatTime plain_printer 90 = str "01:30".
Proof. reflexivity. Qed.

Example formatTime_3599 : @formatTime plain_printer 3599 = str "59:59".
Proof. reflexivity. Qed.

Example formatTime_6000 : @formatTime plain_printer (100 * 60) = str "100:00".
Proof. reflexivity. Qed.

Section ClockNumbers.
Import B64.

Lemma normal_unique (x y : spec_float) :
  normal x -> normal y -> B2R x = B2R y -> x = y.
Proof.
  intros Hx Hy Heq. pose proof (SFcompare_normal x y Hx Hy) as Hc.
  destruct (SFcompare x y) as [[| |]|]; auto; try lra; contradiction.
Qed.

(** Normalising an integer mantissa whose value a 53-bit mantissa can
    carry loses nothing. *)
Lemma binary_normalize_exact (p : positive) (e N e' : Z) :
  -1021 <= Z.pos (digits2_pos p) + e <= 1023 ->
  0 < N < 2 ^ 53 ->
  (IZR (Z.pos p) * bpow e = IZR N * bpow e')%R ->
  normal (binary_normalize 53 1024 (Z.pos p) e false) /\
  B2R (binary_normalize 53 1024 (Z.pos p) e false) = (IZR (Z.pos p) * bpow e)%R.
Proof.
  intros Hrange HN Hval.
  cbn [binary_normalize]. unfold binary_round.
  pose proof (digits2_pos_bounds p) as Hp.
  set (d := Z.pos (digits2_pos p)) in *.
  assert (Hd : 1 <= d) by (unfold d; lia).
  rewrite fexp_normal by lia. unfold shl_align.
  destruct (d + e - 53 - e) as [|k|k] eqn:Hk.
  - destruct (binary_round_aux_normal' (Z.pos p) e loc_Exact (IZR (Z.pos p)))
      as (Hn & E & Hb & Hv); cbn [Zdigits2]; fold d; try lia; [reflexivity|].
    split; [exact Hn|]. rewrite Hv. rewrite Hval in *.
    apply Rle_antisym; [apply RN_le_scaled|apply RN_ge_scaled]; auto; lra.
  - destruct (binary_round_aux_normal' (Z.pos p) e loc_Exact (IZR (Z.pos p)))
      as (Hn & E & Hb & Hv); cbn [Zdigits2]; fold d; try lia; [reflexivity|].
    split; [exact Hn|]. rewrite Hv. rewrite Hval in *.
    apply Rle_antisym; [apply RN_le_scaled|apply RN_ge_scaled]; auto; lra.
  - assert (Hm : 2 ^ 52 <= Z.pos (Pos.iter xO p k) < 2 ^ 53).
    { assert (H52 : 2 ^ 52 = 2 ^ (d - 1) * 2 ^ (53 - d))
        by (rewrite <- Z.pow_add_r by lia; f_equal; lia).
      assert (H53 : 2 ^ 53 = 2 ^ d * 2 ^ (53 - d))
        by (rewrite <- Z.pow_add_r by lia; f_equal; lia).
      assert (0 < 2 ^ (53 - d)) by (apply Z.pow_pos_nonneg; lia).
      rewrite iter_xO, H52, H53. replace (Z.pos k) with (53 - d) by lia.
      clear H52 H53 HN. name_powers. nia. }
    assert (Hdig : Z.pos (digits2_pos (Pos.iter xO p k)) = 53)
      by (apply digits2_pos_unique; exact Hm).
    assert (Hsame : (IZR (Z.pos (Pos.iter xO p k)) * bpow (d + e - 53) =
                     IZR (Z.pos p) * bpow e)%R).
    { rewrite iter_xO, mult_IZR, Rmult_assoc.
      rewrite <- bpow_IZR by lia. rewrite <- bpow_add.
      f_equal. f_equal. lia. }
    destruct (binary_round_aux_normal' (Z.pos (Pos.iter xO p k)) (d + e - 53) loc_Exact
                (IZR (Z.pos (Pos.iter xO p k))))
      as (Hn & E & Hb & Hv); cbn [Zdigits2]; rewrite ?Hdig; try lia; [reflexivity|].
    split; [exact Hn|]. rewrite Hv. rewrite Hsame, Hval in *.
    apply Rle_antisym; [apply RN_le_scaled|apply RN_ge_scaled]; auto; lra.
Qed.

(** [Math.floor] of a normal number below [2^52]. *)
Lemma floor_normal (q : spec_float) :
  normal q -> (B2R q < bpow 52)%R ->
  Math.floor q = Number.of_Z (Zfloor (B2R q)).
Proof.
  intros Hn Hv. destruct (normal_inv q Hn) as (m & e & -> & Hm).
  cbn [B2R] in *. cbn [Math.floor].
  assert (He : e < 0).
  { destruct (normal_value_bounds m e Hm) as [H1 _]. cbn [B2R] in H1.
    assert (H : (bpow (e + 52) < bpow 52)%R) by lra.
    apply bpow_lt_inv in H. lia. }
  destruct (Z.leb_spec 0 e) as [|_]; [lia|].
  assert (Hfl : Zfloor (IZR (Z.pos m) * bpow e) = Z.pos m / 2 ^ (- e)).
  { replace e with (- (- e)) at 1 by lia. rewrite bpow_opp, bpow_IZR by lia.
    apply Zfloor_div; [lia|]. apply Z.pow_pos_nonneg; lia. }
  rewrite Hfl. destruct (Z.eqb_spec (Z.pos m / 2 ^ (- e)) 0) as [->|]; reflexivity.
Qed.

(** The whole minutes of the clock. *)
Lemma floor_minutes (s : nat) :
  Z.of_nat s < 2 ^ 52 ->
  Math.floor (Number.div (Number.of_nat s) (Number.of_Z 60)) =
  Number.of_Z (Z.of_nat s / 60).
Proof.
  intros Hs. unfold Number.of_nat.
  destruct (Nat.eq_dec s 0) as [->|Hne]; [reflexivity|].
  set (z := Z.of_nat s) in *.
  assert (Hz : 1 <= z) by (unfold z; lia).
  assert (Hz53 : z < 2 ^ 53).
  { apply Z.lt_trans with (2 ^ 52); [exact Hs|reflexivity]. }
  destruct (seconds_quotient z ltac:(lia)) as (Hn & E & Hb & Hv).
  pose proof (Z.div_mod z 60 ltac:(lia)) as Hdm.
  pose proof (Z.mod_pos_bound z 60 ltac:(lia)) as Hmod.
  set (Q := z / 60) in *. set (r := z mod 60) in *.
  assert (HQ0 : 0 <= Q) by (unfold Q; apply Z.div_pos; lia).
  assert (HQ : 64 * Q + 63 < 2 ^ 53).
  { change (2 ^ 53) with 9007199254740992. change (2 ^ 52) with 4503599627370496 in Hs. lia. }
  assert (Hzr : IZR z = (60 * IZR Q + IZR r)%R).
  { rewrite Hdm, plus_IZR, mult_IZR. reflexivity. }
  assert (Hr1 : (0 <= IZR r)%R) by (apply IZR_le; lia).
  assert (Hr2 : (IZR r <= 59)%R) by (apply IZR_le; lia).
  assert (HQr : (0 <= IZR Q)%R) by (apply IZR_le; lia).
  assert (Hhi : (IZR z / 60 <= IZR (64 * Q + 63) * bpow (-6))%R).
  { rewrite plus_IZR, mult_IZR.
    replace (bpow (-6)) with (/ 64)%R.
    - rewrite Hzr. lra.
    - replace (bpow (-6)) with (/ bpow 6)%R by (symmetry; apply (bpow_opp 6)).
      rewrite (bpow_IZR 6) by lia. reflexivity. }
  pose proof (RN_le_scaled _ E (64 * Q + 63) (-6) Hb ltac:(lia) Hhi) as Hle.
  rewrite <- Hv in Hle.
  replace (bpow (-6)) with (/ 64)%R in Hle.
  2:{ replace (bpow (-6)) with (/ bpow 6)%R by (symmetry; apply (bpow_opp 6)).
      rewrite (bpow_IZR 6) by lia. reflexivity. }
  rewrite plus_IZR, mult_IZR in Hle.
  assert (Hlo : (IZR Q <= B2R (Number.div (Number.of_Z z) (Number.of_Z 60)))%R).
  { destruct (Z.eq_dec Q 0) as [HQz|HQnz].
    - rewrite HQz, Hv. pose proof (binade_RN_bounds _ _ Hb) as [H1 _].
      pose proof (bpow_gt_0 (E + 52)). lra.
    - rewrite Hv.
      replace (IZR Q) with (IZR Q * bpow 0)%R by (change (bpow 0) with 1%R; lra).
      apply RN_ge_scaled; auto; [lia|].
      change (bpow 0) with 1%R. rewrite Hzr. lra. }
  rewrite floor_normal; auto.
  - f_equal. apply Zfloor_unique. lra.
  - rewrite (bpow_IZR 52) by lia.
    assert (IZR (64 * Q + 63) < IZR (2 ^ 53))%R by (apply IZR_lt; exact HQ).
    rewrite plus_IZR, mult_IZR in H.
    change (IZR (2 ^ 53)) with 9007199254740992%R in H.
    change (IZR (2 ^ 52)) with 4503599627370496%R. lra.
Qed.

End ClockNumbers.

Section ClockParts.
Import B64.

Lemma of_Z_60_bits : Number.of_Z 60 = S754_finite false 8444249301319680 (-47).
Proof. vm_compute. reflexivity. Qed.

(** The seconds of the clock. *)
Lemma remainder_seconds (s : nat) :
  Z.of_nat s < 2 ^ 53 ->
  remainder (Number.of_nat s) (Number.of_Z 60) = Number.of_Z (Z.of_nat s mod 60).
Proof.
  intros Hs. unfold Number.of_nat.
  destruct (Nat.eq_dec s 0) as [->|Hne]; [reflexivity|].
  set (z := Z.of_nat s) in *.
  assert (Hz : 1 <= z) by (unfold z; lia).
  destruct (of_Z_normal z ltac:(lia)) as [Hn Hv].
  destruct (normal_inv _ Hn) as (m & e & Heq & Hm).
  rewrite Heq in Hv |- *. cbn [B2R] in Hv. rewrite of_Z_60_bits.
  assert (He : -53 < e < 1).
  { pose proof (normal_exponent m e 0 53 Hm) as H. rewrite Hv in H.
    assert (lo : 0 - 53 < e < 53 - 52).
    { apply H. split.
      - change (bpow 0) with 1%R. apply IZR_le. lia.
      - rewrite bpow_IZR by lia. apply IZR_lt. lia. }
    lia. }
  cbn [remainder].
  set (k := - Z.min e (-47)).
  assert (Hk : 47 <= k <= 52) by lia.
  replace (Z.min e (-47)) with (- k) by lia.
  assert (HX : Z.pos m * 2 ^ (e - - k) = z * 2 ^ k).
  { apply eq_IZR. rewrite !mult_IZR, <- !bpow_IZR by lia.
    rewrite <- Hv, Rmult_assoc, <- bpow_add. f_equal. f_equal. lia. }
  assert (HY : 8444249301319680 * 2 ^ (-47 - - k) = 60 * 2 ^ k).
  { replace k with (47 + (k - 47)) at 2 by lia. rewrite Z.pow_add_r by lia.
    replace (-47 - - k) with (k - 47) by lia.
    change (2 ^ 47) with 140737488355328. lia. }
  assert (Hpow : 0 < 2 ^ k) by (apply Z.pow_pos_nonneg; lia).
  rewrite HX, HY, Z.mul_mod_distr_r by lia.
  pose proof (Z.mod_pos_bound z 60 ltac:(lia)) as Hr.
  set (r := z mod 60) in *.
  destruct (Z.eqb_spec (r * 2 ^ k) 0) as [H0|H0].
  - assert (r = 0) by nia. subst r. now rewrite H.
  - assert (Hr1 : 1 <= r) by nia.
    destruct (r * 2 ^ k) as [|p|p] eqn:Hp; try lia.
    destruct (of_Z_normal r ltac:(lia)) as [Hnr Hvr].
    assert (Hval : (IZR (Z.pos p) * bpow (- k) = IZR r * bpow 0)%R).
    { rewrite <- Hp, mult_IZR, <- bpow_IZR by lia.
      now rewrite Rmult_assoc, bpow_cancel. }
    destruct (binary_normalize_exact p (- k) r 0) as (Hnp & Hvp); [|lia|exact Hval|].
    + pose proof (digits2_pos_bounds p) as Hd. rewrite <- Hp in Hd.
      set (d := Z.pos (digits2_pos p)) in *.
      assert (Hd0 : 1 <= d) by (unfold d; lia).
      assert (H1 : k < d).
      { apply (Z.pow_lt_mono_r_iff 2); [lia|lia|]. nia. }
      assert (H2 : d - 1 < k + 6).
      { apply (Z.pow_lt_mono_r_iff 2); [lia|lia|].
        rewrite (Z.pow_add_r 2 k 6) by lia. change (2 ^ 6) with 64. nia. }
      lia.
    + apply normal_unique; auto.
      change Number.prec with 53. change Number.emax with 1024.
      rewrite Hvp, Hval, Hvr. change (bpow 0) with 1%R. lra.
Qed.

(** The text of a safe natural number is its decimal digits. *)
Lemma toString_of_Z {P : NumberToString} (k : Z) :
  0 <= k < 2 ^ 53 -> toString (Number.of_Z k) = decimal k.
Proof.
  intros Hk. destruct (Z.eq_dec k 0) as [->|Hne]; [reflexivity|].
  destruct (of_Z_normal k ltac:(lia)) as [Hn Hv].
  destruct (normal_inv _ Hn) as (m & e & Heq & Hm).
  rewrite Heq in Hv |- *. cbn [B2R] in Hv.
  unfold toString, safeInteger.
  destruct (Z.leb_spec 0 e) as [He|He].
  - assert (Hmk : Z.pos m * 2 ^ e = k).
    { apply eq_IZR. rewrite mult_IZR, <- bpow_IZR by lia. exact Hv. }
    rewrite Hmk. destruct (Z.ltb_spec k (2 ^ 53)) as [_|]; [|lia].
    destruct (Z.ltb_spec k 0); [lia|reflexivity].
  - assert (Hmk : Z.pos m = k * 2 ^ (- e)).
    { apply eq_IZR. rewrite mult_IZR, <- bpow_IZR by lia.
      rewrite <- Hv, Rmult_assoc, bpow_cancel. lra. }
    assert (Hpow : 0 < 2 ^ (- e)) by (apply Z.pow_pos_nonneg; lia).
    rewrite Hmk, Z.mod_mul, Z.div_mul by lia. cbn [Z.eqb andb].
    destruct (Z.ltb_spec k (2 ^ 53)) as [_|]; [|lia].
    destruct (Z.ltb_spec k 0); [lia|reflexivity].
Qed.

Lemma formatTime_parts {P : NumberToString} (s : nat) :
  Z.of_nat s < 2 ^ 52 ->
  toString (Math.floor (Number.div (Number.of_nat s) (Number.of_Z 60))) =
    decimal (Z.of_nat s / 60) /\
  toString (remainder (Number.of_nat s) (Number.of_Z 60)) =
    decimal (Z.of_nat s mod 60).
Proof.
  intros Hs.
  assert (Hs53 : Z.of_nat s < 2 ^ 53).
  { apply Z.lt_trans with (2 ^ 52); [exact Hs|reflexivity]. }
  pose proof (Z.mod_pos_bound (Z.of_nat s) 60 ltac:(lia)) as Hr.
  assert (HQ : 0 <= Z.of_nat s / 60 <= Z.of_nat s).
  { split; [apply Z.div_pos; lia|]. apply Z.div_le_upper_bound; lia. }
  rewrite floor_minutes, remainder_seconds by assumption.
  rewrite !toString_of_Z; [auto| |lia].
  split; [lia|]. change (2 ^ 53) with 9007199254740992. lia.
Qed.

End ClockParts.

Lemma log2_tenth (z : Z) : 10 <= z -> Z.log2 (z / 10) < Z.log2 z.
Proof.
  intros Hz.
  assert (Hq : 0 < z / 10) by (apply Z.div_str_pos; lia).
  apply Z.log2_lt_pow2; [exact Hq|].
  pose proof (Z.log2_spec z ltac:(lia)) as [_ Hhi].
  rewrite Z.pow_succ_r in Hhi by apply Z.log2_nonneg.
  apply Z.div_lt_upper_bound; [lia|].
  set (w := 2 ^ Z.log2 z) in *. clearbody w. lia.
Qed.

(** Enough fuel gives the same digits. *)
Lemma digits_fuel (f f' : nat) (z : Z) :
  0 <= z -> Z.log2 z < Z.of_nat f -> Z.log2 z < Z.of_nat f' ->
  digits f z = digits f' z.
Proof.
  revert f' z. induction f as [|f IH]; intros f' z Hz Hf Hf'.
  - pose proof (Z.log2_nonneg z). lia.
  - destruct f' as [|f']; [pose proof (Z.log2_nonneg z); lia|].
    cbn [digits]. destruct (Z.ltb_spec z 10) as [|H10]; [reflexivity|].
    f_equal.
    assert (Hq : 0 < z / 10) by (apply Z.div_str_pos; lia).
    pose proof (log2_tenth z H10) as Hlog.
    apply IH; lia.
Qed.

Lemma decimal_eq (z : Z) :
  0 <= z ->
  decimal z = (if z <? 10 then [] else decimal (z / 10)) ++ [0x30 + z mod 10].
Proof.
  intros Hz. unfold decimal at 1. cbn [digits].
  destruct (Z.ltb_spec z 10) as [|H10]; [reflexivity|].
  f_equal. unfold decimal.
  assert (Hq : 0 < z / 10) by (apply Z.div_str_pos; lia).
  pose proof (log2_tenth z H10).
  pose proof (Z.log2_nonneg z). pose proof (Z.log2_nonneg (z / 10)).
  apply digits_fuel; lia.
Qed.

Lemma decimal_length (z : Z) :
  0 <= z ->
  (1 <= length (decimal z))%nat /\
  (10 <= z -> (2 <= length (decimal z))%nat) /\
  (100 <= z -> (3 <= length (decimal z))%nat).
Proof.
  intros Hz.
  assert (H1 : forall y, 0 <= y -> (1 <= length (decimal y))%nat).
  { intros y Hy. rewrite decimal_eq, length_app by exact Hy. cbn [length]. lia. }
  assert (H2 : forall y, 10 <= y -> (2 <= length (decimal y))%nat).
  { intros y Hy. rewrite decimal_eq, length_app by lia. cbn [length].
    destruct (Z.ltb_spec y 10); [lia|].
    pose proof (H1 (y / 10) ltac:(apply Z.div_pos; lia)). lia. }
  split; [now apply H1|]. split; [apply H2|].
  intros Hy. rewrite decimal_eq, length_app by lia. cbn [length].
  destruct (Z.ltb_spec z 10); [lia|].
  pose proof (H2 (z / 10) ltac:(apply Z.div_le_lower_bound; lia)). lia.
Qed.

Lemma digits_value_snoc (l : jsstring) (c : Z) :
  digits_value (l ++ [c]) = 10 * digits_value l + (c - 0x30).
Proof. unfold digits_value. now rewrite fold_left_app. Qed.

Lemma digits_value_decimal (z : Z) : 0 <= z -> digits_value (decimal z) = z.
Proof.
  intros Hz. generalize Hz. pattern z. apply Z_lt_induction; [|exact Hz].
  clear z Hz. intros z IH Hz.
  rewrite decimal_eq, digits_value_snoc by exact Hz.
  destruct (Z.ltb_spec z 10) as [Hlt|Hge].
  - change (digits_value []) with 0. rewrite Z.mod_small by lia. lia.
  - rewrite IH.
    + pose proof (Z.div_mod z 10 ltac:(lia)). lia.
    + split; [apply Z.div_pos; lia|apply Z.div_lt_upper_bound; lia].
    + apply Z.div_pos; lia.
Qed.

Lemma pad2_cases (z : Z) :
  0 <= z ->
  pad2 z = if z <? 10 then [0x30; 0x30 + z] else decimal z.
Proof.
  intros Hz. unfold pad2, padStart.
  destruct (Z.ltb_spec z 10) as [Hlt|Hge].
  - rewrite decimal_eq by exact Hz.
    destruct (Z.ltb_spec z 10); [|lia]. rewrite Z.mod_small by lia. reflexivity.
  - destruct (decimal_length z Hz) as (_ & H2 & _). specialize (H2 Hge).
    destruct (Nat.leb_spec 2 (length (decimal z))); [reflexivity|lia].
Qed.

Lemma pad2_two_digits (z : Z) :
  0 <= z < 100 -> pad2 z = [0x30 + z / 10; 0x30 + z mod 10].
Proof.
  intros Hz. rewrite pad2_cases by lia.
  destruct (Z.ltb_spec z 10) as [Hlt|Hge].
  - rewrite Z.div_small, Z.mod_small by lia. reflexivity.
  - rewrite decimal_eq by lia. destruct (Z.ltb_spec z 10); [lia|].
    assert (Hq : 1 <= z / 10 < 10).
    { split; [apply Z.div_le_lower_bound; lia|apply Z.div_lt_upper_bound; lia]. }
    rewrite decimal_eq by lia. destruct (Z.ltb_spec (z / 10) 10); [|lia].
    rewrite (Z.mod_small (z / 10)) by lia. reflexivity.
Qed.

Lemma pad2_length (z : Z) :
  0 <= z -> (2 <= length (pad2 z))%nat /\ (100 <= z -> (3 <= length (pad2 z))%nat).
Proof.
  intros Hz. rewrite pad2_cases by exact Hz.
  destruct (decimal_length z Hz) as (_ & H2 & H3).
  destruct (Z.ltb_spec z 10); cbn [length]; split; try lia; auto.
Qed.

Lemma digits_value_pad2 (z : Z) : 0 <= z -> digits_value (pad2 z) = z.
Proof.
  intros Hz. rewrite pad2_cases by exact Hz.
  destruct (Z.ltb_spec z 10); [|now apply digits_value_decimal].
  unfold digits_value. cbn [fold_left]. lia.
Qed.

Lemma app_inv_length {A : Type} (l1 l2 t1 t2 : list A) :
  length t1 = length t2 -> l1 ++ t1 = l2 ++ t2 -> l1 = l2 /\ t1 = t2.
Proof.
  intros Hlen Heq.
  assert (Hl : length l1 = length l2).
  { apply (f_equal (@length A)) in Heq. rewrite !length_app in Heq. lia. }
  revert l2 Hl Heq. induction l1 as [|x l1 IH]; intros [|y l2] Hl Heq;
    try discriminate; cbn in *.
  - auto.
  - injection Heq as -> Heq. destruct (IH l2 ltac:(lia) Heq) as [-> ->]. auto.
Qed.

(** X23: for any number of seconds below [2^52] the clock shows the whole
    minutes and the remaining seconds, each in decimal digits padded to
    two places with a zero, with a colon between; no rounding of the
    division shows. *)
Theorem formatTime_minutes_seconds {P : NumberToString} (s : nat) :
  Z.of_nat s < 2 ^ 52 ->
  formatTime s = pad2 (Z.of_nat s / 60) ++ str ":" ++ pad2 (Z.of_nat s mod 60).
Proof.
  intros Hs. destruct (formatTime_parts s Hs) as [Hm Hsec].
  unfold formatTime. cbv zeta. now rewrite Hm, Hsec.
Qed.

Lemma formatTime_minutes_seconds_witness :
  @formatTime plain_printer 754 = pad2 (Z.of_nat 754 / 60) ++ str ":" ++ pad2 (Z.of_nat 754 mod 60).
Proof. exact (@formatTime_minutes_seconds plain_printer 754 eq_refl). Defined.

(** X24: below one hundred minutes the clock is exactly five characters,
    [MM:SS]; from one hundred minutes on it is longer. *)
Theorem formatTime_shape {P : NumberToString} (s : nat) :
  Z.of_nat s < 2 ^ 52 ->
  (Z.of_nat s < 6000 ->
   formatTime s =
   [0x30 + Z.of_nat s / 60 / 10; 0x30 + (Z.of_nat s / 60) mod 10; 0x3A;
    0x30 + (Z.of_nat s mod 60) / 10; 0x30 + (Z.of_nat s mod 60) mod 10]) /\
  (6000 <= Z.of_nat s -> (6 <= length (formatTime s))%nat).
Proof.
  intros Hs. destruct (formatTime_parts s Hs) as [Hm Hsec].
  pose proof (Z.mod_pos_bound (Z.of_nat s) 60 ltac:(lia)) as Hr.
  unfold formatTime. cbv zeta. rewrite Hm, Hsec.
  fold (pad2 (Z.of_nat s / 60)). fold (pad2 (Z.of_nat s mod 60)).
  rewrite (pad2_two_digits (Z.of_nat s mod 60)) by lia.
  split.
  - intros Hlt. rewrite pad2_two_digits; [reflexivity|].
    split; [apply Z.div_pos; lia|apply Z.div_lt_upper_bound; lia].
  - intros Hge. rewrite length_app.
    assert (Hq : 100 <= Z.of_nat s / 60) by (apply Z.div_le_lower_bound; lia).
    destruct (pad2_length (Z.of_nat s / 60) ltac:(lia)) as [_ H3].
    specialize (H3 Hq). cbn [length app]. rewrite length_app. cbn [length].
    change (length (str ":")) with 1%nat. lia.
Qed.

Lemma formatTime_shape_witness :
  @formatTime plain_printer 754 = [0x31; 0x32; 0x3A; 0x33; 0x34].
Proof.
  exact (proj1 (@formatTime_shape plain_printer 754 eq_refl) eq_refl).
Defined.

(** X25: two different times never show the same clock. *)
Theorem formatTime_injective {P : NumberToString} (s1 s2 : nat) :
  Z.of_nat s1 < 2 ^ 52 -> Z.of_nat s2 < 2 ^ 52 ->
  s1 <> s2 -> formatTime s1 <> formatTime s2.
Proof.
  intros H1 H2 Hne. revert Hne.
  assert (Hinj : formatTime s1 = formatTime s2 -> s1 = s2); [|tauto].
  destruct (formatTime_parts s1 H1) as [Hm1 Hsec1].
  destruct (formatTime_parts s2 H2) as [Hm2 Hsec2].
  pose proof (Z.mod_pos_bound (Z.of_nat s1) 60 ltac:(lia)) as Hr1.
  pose proof (Z.mod_pos_bound (Z.of_nat s2) 60 ltac:(lia)) as Hr2.
  unfold formatTime. cbv zeta. rewrite Hm1, Hsec1, Hm2, Hsec2.
  fold (pad2 (Z.of_nat s1 / 60)). fold (pad2 (Z.of_nat s1 mod 60)).
  fold (pad2 (Z.of_nat s2 / 60)). fold (pad2 (Z.of_nat s2 mod 60)).
  intros Heq. apply app_inv_length in Heq.
  - destruct Heq as [Hm Hsec].
    apply (f_equal digits_value) in Hm.
    injection Hsec as Hsec. apply (f_equal digits_value) in Hsec.
    rewrite !digits_value_pad2 in Hm, Hsec by (try apply Z.div_pos; lia).
    pose proof (Z.div_mod (Z.of_nat s1) 60 ltac:(lia)).
    pose proof (Z.div_mod (Z.of_nat s2) 60 ltac:(lia)). lia.
  - rewrite !length_app, !pad2_two_digits by lia. reflexivity.
Qed.

Lemma formatTime_injective_witness :
  @formatTime plain_printer 59 <> @formatTime plain_printer 60.
Proof.
  refine (@formatTime_injective plain_printer 59 60 eq_refl eq_refl _). discriminate.
Defined.

(** ** The statistics row and the language *)

(** X26: right after Start the row shows [00:00], accuracy 0, 0 words a
    minute and no typed word out of the reference's words, whatever was
    typed or timed before. *)
Theorem panel_after_start (E : Engine) (P : NumberToString) (a : App) :
  lowercase_ascii E ->
  Z.of_nat (length (splitWords (normalize (reference (session a)) (opts a)))) < 2 ^ 32 ->
  panel (step a ClickStart) =
  {| timeShown := str "00:00";
     accuracyShown := Number.of_Z 0;
     wpmShown := Number.of_Z 0;
     wordsShown :=
       (0%nat, length (splitWords (normalize (reference (session a)) (opts a)))) |}.
Proof.
  intros Hlow Hlen. unfold panel, step, runEffects.
  cbn [handle withSession withStorage handleStart session opts reference attempt seconds].
  destruct (calcStats_empty_attempt E (reference (session a)) (opts a) Hlen Hlow)
    as [Hw Hacc].
  rewrite Hw, Hacc. f_equal.
Qed.

Lemma panel_after_start_witness :
  @panel excerpt_engine plain_printer (step (mount []) ClickStart) =
  {| timeShown := str "00:00";
     accuracyShown := Number.of_Z 0;
     wpmShown := Number.of_Z 0;
     wordsShown := (0%nat, 23%nat) |}.
Proof.
  exact (panel_after_start excerpt_engine plain_printer (mount [])
           excerpt_lowercase_ascii eq_refl).
Defined.

Lemma step_supported (a : App) (e : Event) :
  supported (lang a) -> supported (lang (step a e)).
Proof.
  intros Hs. unfold step, runEffects. cbn [lang withStorage].
  destruct e; cbn [handle lang withSession]; auto.
  destruct (str_eqb (lang a) (str "en")); [right|left]; reflexivity.
Qed.

(** X27: when the stored language is absent, empty, ["en"] or ["vi"], the
    language stays one of ["en"] and ["vi"] after any events, and a
    reload from the storage they leave restores it. *)
Theorem lang_supported (st : Storage) (es : list Event) :
  match getItem "memlang" st with
  | Some l => l = [] \/ supported l
  | None => True
  end ->
  supported (lang (run (mount st) es)) /\
  lang (mount (localStorage (run (mount st) es))) = lang (run (mount st) es).
Proof.
  intros Hst.
  assert (H0 : supported (lang (mount st))).
  { unfold mount, initialState. cbn [lang withStorage].
    destruct (getItem "memlang" st) as [l|]; [|left; reflexivity].
    destruct Hst as [->|[-> | ->]]; [left|left|right]; reflexivity. }
  pose proof (mount_mirrored st) as M0.
  assert (H : supported (lang (run (mount st) es)) /\ mirrored (run (mount st) es)).
  { unfold run. revert H0 M0. generalize (mount st).
    induction es as [|e es IH]; intros a Ha Ma; cbn [fold_left]; [auto|].
    apply IH; [now apply step_supported|now apply step_mirrored]. }
  revert H. generalize (run (mount st) es). intros b [Hs (_ & _ & Hl)].
  split; [exact Hs|].
  unfold mount, initialState. cbn [lang withStorage]. rewrite Hl.
  destruct Hs as [-> | ->]; reflexivity.
Qed.

Lemma lang_supported_witness :
  supported (lang (run (mount [("memlang"%string, str "vi")]) [ClickLanguage; ClickStart])) /\
  lang (mount (localStorage (run (mount [("memlang"%string, str "vi")]) [ClickLanguage; ClickStart]))) =
  lang (run (mount [("memlang"%string, str "vi")]) [ClickLanguage; ClickStart]).
Proof.
  refine (lang_supported [("memlang"%string, str "vi")] [ClickLanguage; ClickStart] _).
  right. right. reflexivity.
Defined.

(** X28: the later revision of [Highlighter], which pads a hidden word to
    at least one no-break space, renders exactly the same nodes: no word
    of a split text is empty. *)
Theorem Highlighter_revisions_agree (E : Engine) (r a : jsstring) (o : Options) (h : bool) :
  Highlighter_revised r a o h = Highlighter r a o h.
Proof.
  unfold Highlighter_revised, Highlighter. apply mapi_from_ext.
  intros x i Hx. cbn [Nat.add]. f_equal.
  destruct h; [|reflexivity]. f_equal.
  destruct x as [|c x]; [|cbn [length]; lia].
  now apply splitWords_nth_nonempty in Hx.
Qed.
